(** * The treemap viewer of lighthouse-viewer/app/treemap/treemap.js

    A shallow embedding of the script and the properties of its tree
    traversal, labels, colours, selection and message handler.

    JavaScript numbers are IEEE 754 doubles: they are Rocq's primitive
    [float]s, with [Math.round], [%] and the Number-to-String conversion
    written out from ECMA-262.  Strings are sequences of UTF-16 code units.
    Tree nodes are mutable objects: they live in a store indexed by
    references, and every function of the script is a transformer of the
    page state. *)

From Stdlib Require Import ZArith Floats List String Ascii Lia.
From stdpp Require Import base option list gmap.

#[local] Set Warnings "-register-all,-clear-no-such-hyp".

Open Scope Z_scope.

(** ** Strings: sequences of UTF-16 code units *)

Definition code_unit := N.
Definition jsstring := list code_unit.

(** Literals are written as Rocq strings, whose bytes are read as UTF-8. *)
Definition utf8_cont (c : ascii) : N := N.land (N_of_ascii c) 63.

Definition utf16_of_code_point (cp : N) : jsstring :=
  if (cp <? 65536)%N then [cp]
  else
    let v := (cp - 65536)%N in
    [(55296 + N.shiftr v 10)%N; (56320 + N.land v 1023)%N].

Fixpoint utf8_decode (fuel : nat) (bs : list ascii) : jsstring :=
  match fuel, bs with
  | O, _ | _, [] => []
  | S k, b :: rest =>
    let n := N_of_ascii b in
    if (n <? 128)%N then n :: utf8_decode k rest
    else if (n <? 224)%N then
      match rest with
      | c1 :: rest' =>
        utf16_of_code_point (N.shiftl (N.land n 31) 6 + utf8_cont c1)
          ++ utf8_decode k rest'
      | _ => []
      end
    else if (n <? 240)%N then
      match rest with
      | c1 :: c2 :: rest' =>
        utf16_of_code_point
          (N.shiftl (N.land n 15) 12 + N.shiftl (utf8_cont c1) 6 + utf8_cont c2)
          ++ utf8_decode k rest'
      | _ => []
      end
    else
      match rest with
      | c1 :: c2 :: c3 :: rest' =>
        utf16_of_code_point
          (N.shiftl (N.land n 7) 18 + N.shiftl (utf8_cont c1) 12
           + N.shiftl (utf8_cont c2) 6 + utf8_cont c3)
          ++ utf8_decode k rest'
      | _ => []
      end
  end.

Definition js (s : string) : jsstring :=
  let bs := list_ascii_of_string s in utf8_decode (length bs) bs.

(** The string iterator behind [[...s]]: one element per code point, a
    high surrogate followed by a low surrogate forming one element. *)
Definition is_high_surrogate (c : code_unit) : bool :=
  ((55296 <=? c) && (c <=? 56319))%N.
Definition is_low_surrogate (c : code_unit) : bool :=
  ((56320 <=? c) && (c <=? 57343))%N.

Fixpoint string_iterator (s : jsstring) : list jsstring :=
  match s with
  | [] => []
  | c :: rest =>
    match rest with
    | d :: rest' =>
      if is_high_surrogate c && is_low_surrogate d
      then [c; d] :: string_iterator rest'
      else [c] :: string_iterator rest
    | [] => [[c]]
    end
  end.

(** ** Numbers *)

Definition float_of_Z (z : Z) : float :=
  match z with
  | Z0 => 0%float
  | Zpos _ => of_uint63 (Uint63.of_Z z)
  | Zneg p => (- of_uint63 (Uint63.of_Z (Zpos p)))%float
  end.

Definition float_of_N (n : N) : float := float_of_Z (Z.of_N n).

(** [s.charCodeAt(0)]: the first code unit, NaN on the empty string. *)
Definition charCodeAt0 (s : jsstring) : float :=
  match s with
  | [] => nan
  | c :: _ => float_of_N c
  end.

Definition signed_zero (negative : bool) : float :=
  if negative then neg_zero else 0%float.

(** [Math.round]: the closest integral number, ties towards +∞; the
    result keeps the sign of an argument that rounds to zero. *)
Definition Math_round (x : float) : float :=
  match Prim2SF x with
  | S754_finite s m e =>
    if 0 <=? e then x
    else
      let n := if s then Zneg m else Zpos m in
      let q := Z.shiftr (2 * n + Z.shiftl 1 (- e)) (1 - e) in
      if q =? 0 then signed_zero s else float_of_Z q
  | _ => x
  end.

(** The remainder operator [%] on numbers: the sign of the dividend,
    computed exactly. *)
Definition js_rem (x y : float) : float :=
  match Prim2SF x, Prim2SF y with
  | S754_nan, _ | _, S754_nan => nan
  | S754_infinity _, _ => nan
  | _, S754_zero _ => nan
  | _, S754_infinity _ => x
  | S754_zero _, _ => x
  | S754_finite sx mx ex, S754_finite _ my ey =>
    let e := Z.min ex ey in
    let r := Z.rem (Z.shiftl (Zpos mx) (ex - e)) (Z.shiftl (Zpos my) (ey - e)) in
    let v := Z.ldexp (float_of_Z r) e in
    if sx then (- v)%float else v
  end.

(** Truthiness of a number, for [||] and [if]: NaN, +0 and -0 are falsy. *)
Definition number_truthy (x : float) : bool :=
  negb (is_nan x) && negb (x =? 0)%float.

(** [a || b] on numbers. *)
Definition number_or (a b : float) : float := if number_truthy a then a else b.

(** *** Number to String (ECMA-262, Number::toString, radix 10) *)

Definition digit_char (d : Z) : code_unit := Z.to_N (48 + d).

Fixpoint decimal_digits (fuel : nat) (n : Z) (acc : jsstring) : jsstring :=
  match fuel with
  | O => acc
  | S k =>
    let acc' := digit_char (n mod 10) :: acc in
    if n <? 10 then acc' else decimal_digits k (n / 10) acc'
  end.

(** The decimal digits of a non-negative integer. *)
Definition digits_of (n : Z) : jsstring :=
  decimal_digits (S (Z.to_nat (Z.log2 n))) n [].

Record decimal := { dec_s : Z; dec_k : Z; dec_n : Z }.

(** Powers by repeated squaring: the exponents reach a few hundred. *)
Fixpoint pow_pos (b : Z) (p : positive) : Z :=
  match p with
  | xH => b
  | xO p' => let r := pow_pos b p' in r * r
  | xI p' => let r := pow_pos b p' in b * (r * r)
  end.

Definition pow10 (n : Z) : Z :=
  match n with
  | Zpos p => pow_pos 10 p
  | _ => 1
  end.

Definition pow2 (n : Z) : Z := Z.shiftl 1 (Z.max n 0).

(** [10^n <= v * 2^E] for integers [v > 0], [n] and [E] *)
Definition pow10_le (v E n : Z) : bool :=
  pow10 n * pow2 (- E) <=? v * pow2 E * pow10 (- n).

Fixpoint log10_scan (v E : Z) (fuel : nat) (n : Z) : Z :=
  match fuel with
  | O => n
  | S k => if pow10_le v E (n + 1) then log10_scan v E k (n + 1) else n
  end.

(** The largest [D] with [10^D <= m * 2^e]: [1233 / 4096] is just below
    the decimal logarithm of 2, so the scan starts at most two below. *)
Definition floor_log10 (m : positive) (e : Z) : Z :=
  let bits := Zpos (digits2_pos m) + e in
  log10_scan (Zpos m) e 4 ((bits - 1) * 1233 / 4096 - 1).

(** The number [m * 2^e] and the ends of its rounding interval, all scaled
    by [2^(max 0 (2 - e)) * 10^(- sc_P)] to stay in the integers. *)
Record scale := {
  sc_D : Z;        (* floor of the decimal logarithm *)
  sc_P : Z;        (* the least power of ten in use *)
  sc_down : Z;
  sc_V : Z;        (* the number *)
  sc_low : Z;      (* the lower end of the interval *)
  sc_high : Z;     (* its upper end *)
  sc_closed : bool (* the ends read back as the number: even mantissa *)
}.

Definition scale_of (m : positive) (e : Z) : scale :=
  let E := e - 2 in
  let D := floor_log10 m e in
  let P := Z.min 0 (D - 17) in
  let unit := pow2 E * pow10 (- P) in
  let V := 4 * Zpos m * unit in
  (* the lower neighbour is closer when the mantissa is a power of two
     above the subnormal range *)
  let low_gap := if (Zpos m =? pow2 52) && (emin <? e) then unit else 2 * unit in
  {| sc_D := D; sc_P := P; sc_down := pow2 (- E); sc_V := V;
     sc_low := V - low_gap; sc_high := V + 2 * unit;
     sc_closed := Z.even (Zpos m) |}.

Section Shortest.
Variable c : scale.

(** [s * 10^p], scaled *)
Definition scaled (s p : Z) : Z := s * pow10 (p - sc_P c) * sc_down c.

(** [s * 10^p] reads back as the number: it lies in its rounding interval. *)
Definition reads_back (s p : Z) : bool :=
  let x := scaled s p in
  if sc_closed c
  then (sc_low c <=? x) && (x <=? sc_high c)
  else (sc_low c <? x) && (x <? sc_high c).

Definition candidates (k : Z) : list decimal :=
  n ← [sc_D c + 1; sc_D c + 2];
  let p := n - k in
  let s0 := sc_V c / (pow10 (p - sc_P c) * sc_down c) in
  s ← [s0; s0 + 1];
  if (pow10 (k - 1) <=? s) && (s <? pow10 k) && reads_back s p
  then [{| dec_s := s; dec_k := k; dec_n := n |}] else [].

Definition distance (d : decimal) : Z :=
  Z.abs (scaled (dec_s d) (dec_n d - dec_k d) - sc_V c).

(** The closest candidate; of two equally close ones, the even one. *)
Definition closer (a b : decimal) : decimal :=
  match distance a ?= distance b with
  | Lt => a
  | Gt => b
  | Eq => if Z.even (dec_s a) then a else b
  end.

Fixpoint shortest_from (fuel : nat) (k : Z) : decimal :=
  match fuel with
  | O => {| dec_s := 0; dec_k := 1; dec_n := 0 |}
  | S f =>
    match candidates k with
    | [] => shortest_from f (k + 1)
    | d :: ds => foldl closer d ds
    end
  end.
End Shortest.

(** [n], [k] and [s] of the conversion: as few digits as possible. *)
Definition shortest_decimal (m : positive) (e : Z) : decimal :=
  shortest_from (scale_of m e) 17 1.

Definition exponent_part (n : Z) : jsstring :=
  let x := n - 1 in
  [101%N; if x <? 0 then 45%N else 43%N] ++ digits_of (Z.abs x).

Definition format_decimal (d : decimal) : jsstring :=
  let ds := digits_of (dec_s d) in
  let k := dec_k d in
  let n := dec_n d in
  if (k <=? n) && (n <=? 21) then ds ++ replicate (Z.to_nat (n - k)) 48%N
  else if (0 <? n) && (n <=? 21) then
    take (Z.to_nat n) ds ++ [46%N] ++ drop (Z.to_nat n) ds
  else if (-6 <? n) && (n <=? 0) then
    [48%N; 46%N] ++ replicate (Z.to_nat (- n)) 48%N ++ ds
  else if k =? 1 then ds ++ exponent_part n
  else take 1 ds ++ [46%N] ++ drop 1 ds ++ exponent_part n.

Definition number_to_string (x : float) : jsstring :=
  match Prim2SF x with
  | S754_nan => js "NaN"
  | S754_zero _ => js "0"
  | S754_infinity s => (if s then [45%N] else []) ++ js "Infinity"
  | S754_finite s m e =>
    (if s then [45%N] else []) ++ format_decimal (shortest_decimal m e)
  end.

(** ** Property values

    A numeric property of a node holds a number; it is [null] after a JSON
    round trip of NaN or an infinity, and [undefined] when absent. *)
Inductive value :=
  | Undefined
  | Null
  | Number (x : float).

(** ToNumber *)
Definition to_number (v : value) : float :=
  match v with
  | Undefined => nan
  | Null => 0%float
  | Number x => x
  end.

(** A string property inside a template literal: [`${s}`] *)
Definition template (s : option jsstring) : jsstring :=
  match s with
  | Some s => s
  | None => js "undefined"
  end.

(** ** The object store *)

Definition loc := positive.

(** The inline style of a rendered element. *)
Record style := {
  backgroundColor : option jsstring;
  color : option jsstring
}.

(** What [node.dom] can hold: the element the layout library attached, or
    the plain empty object an element becomes in a JSON round trip. *)
Inductive dom_value :=
  | Element (st : style)
  | PlainObject.

(** The own properties of a Node other than its children. *)
Record props := {
  p_id : option jsstring;
  p_originalId : option jsstring;
  p_size : value;
  p_wastedBytes : value;
  p_total : value;
  p_idHash : value;
  p_dom : option dom_value
}.

(** A Node object: [n_children] is the [children] array of references,
    [None] when the property is absent. *)
Record node := {
  n_props : props;
  n_children : option (list loc)
}.

(** RootNode: [{ id, group, node }] *)
Record RootNode := {
  rn_id : jsstring;
  rn_group : jsstring;
  rn_node : loc
}.

Inductive element_ref :=
  | MainElement
  | BundleSelectorElement.

Record TreemapViewer := {
  documentUrl : jsstring;
  rootNodes : list RootNode;
  el : element_ref;
  currentRootNode : option loc;
  treemap : option loc
}.

(** The [<select>] control: its options (value, text), the selected value
    and the number of change listeners attached. *)
Record selector := {
  sel_options : list (jsstring * jsstring);
  sel_value : jsstring;
  sel_listeners : nat
}.

(** The [main] element: the root whose treemap it contains, if any. *)
Record main_element := {
  main_content : option loc
}.

Inductive post :=
  | Opened      (* {opened: true} *)
  | Rendered.   (* {rendered: true} *)

Definition window_id := nat.

(** The window that opened the page, with the messages posted to it. *)
Record opener_window := {
  op_id : window_id;
  op_closed : bool;
  op_inbox : list post
}.

(** The page: the object store, the document, [self.opener], [window.ga]
    (the list of its calls, when the hook is present) and the closure
    variable [treemapViewer]. *)
Record world := {
  heap : gmap loc node;
  bundle_selector : option selector;
  main_el : option main_element;
  opener : option opener_window;
  ga : option (list (list jsstring));
  treemapViewer : option TreemapViewer
}.

Inductive exn :=
  | TypeError
  | Error (message : jsstring).

(** The outcome of running a piece of the script: a result, an exception
    (with the state reached), recursion deeper than the fuel, or [Stuck]
    outside the data model: a reference to no object (which no JavaScript
    state has) or a truthy payload field of another type than documented. *)
Inductive outcome (A : Type) :=
  | Ok (a : A) (w : world)
  | Throw (e : exn) (w : world)
  | OutOfFuel
  | Stuck.
Arguments Ok {A} a w.
Arguments Throw {A} e w.
Arguments OutOfFuel {A}.
Arguments Stuck {A}.

Definition M (A : Type) : Type := world -> outcome A.

Definition ret {A} (a : A) : M A := fun w => Ok a w.

Definition bind {A B} (m : M A) (k : A -> M B) : M B :=
  fun w =>
    match m w with
    | Ok a w' => k a w'
    | Throw e w' => Throw e w'
    | OutOfFuel => OutOfFuel
    | Stuck => Stuck
    end.

Notation "x <- m ;; k" := (bind m (fun x => k))
  (at level 100, m at next level, right associativity).
Notation "m ;;; k" := (bind m (fun _ => k))
  (at level 100, right associativity).

Definition throw {A} (e : exn) : M A := fun w => Throw e w.

Definition set_heap (h : gmap loc node) (w : world) : world :=
  {| heap := h; bundle_selector := bundle_selector w; main_el := main_el w;
     opener := opener w; ga := ga w; treemapViewer := treemapViewer w |}.

(** Reading the object behind a reference. *)
Definition deref (l : loc) : M node :=
  fun w =>
    match heap w !! l with
    | Some n => Ok n w
    | None => Stuck
    end.

(** Writing the own properties of an object. *)
Definition set_props (l : loc) (f : props -> props) : M unit :=
  fun w =>
    match heap w !! l with
    | Some n =>
      Ok tt (set_heap (<[l := {| n_props := f (n_props n);
                                 n_children := n_children n |}]> (heap w)) w)
    | None => Stuck
    end.

(** A new object. *)
Definition alloc (n : node) : M loc :=
  fun w =>
    let l := fresh (dom (heap w)) in
    Ok l (set_heap (<[l := n]> (heap w)) w).

(** [for (const x of xs) body(x)] *)
Fixpoint for_each {A} (xs : list A) (body : A -> M unit) : M unit :=
  match xs with
  | [] => ret tt
  | x :: rest => body x ;;; for_each rest body
  end.

(** ** The script *)

Definition MODE : jsstring := js "wastedBytes".

(** [find(query)]: the element, or an error carrying the query. *)
Definition find (query : jsstring) : M element_ref :=
  fun w =>
    let missing := Throw (Error (js "query " ++ query ++ js " not found")) w in
    if decide (query = js ".bundle-selector") then
      match bundle_selector w with
      | Some _ => Ok BundleSelectorElement w
      | None => missing
      end
    else if decide (query = js "main") then
      match main_el w with
      | Some _ => Ok MainElement w
      | None => missing
      end
    else missing.

(** [dfs(node, fn)]: the children are read after [fn] has run. *)
Fixpoint dfs (fuel : nat) (node : loc) (fn : loc -> M unit) : M unit :=
  match fuel with
  | O => fun _ => OutOfFuel
  | S fuel' =>
    fn node ;;;
    n <- deref node ;;
    match n_children n with
    | Some children => for_each children (fun child => dfs fuel' child fn)
    | None => ret tt
    end
  end.

Definition set_id (s : jsstring) (p : props) : props :=
  {| p_id := Some s; p_originalId := p_originalId p; p_size := p_size p;
     p_wastedBytes := p_wastedBytes p; p_total := p_total p;
     p_idHash := p_idHash p; p_dom := p_dom p |}.

Definition bullet : jsstring := js " • ".

(** The label written in the dead 'default' mode. *)
Definition label_default (p : props) : jsstring :=
  let size := to_number (p_size p) in
  let total := to_number (p_total p) in
  template (p_originalId p) ++ bullet
    ++ number_to_string (Math_round size) ++ bullet
    ++ number_to_string (Math_round (size / total * 100)%float).

(** The label written in the 'wastedBytes' mode. *)
Definition label_wastedBytes (p : props) : jsstring :=
  let size := to_number (p_size p) in
  let wastedBytes := to_number (p_wastedBytes p) in
  template (p_originalId p) ++ bullet
    ++ number_to_string (Math_round size) ++ bullet
    ++ number_to_string (Math_round (wastedBytes / size * 100)%float).

(** The callback of [setTitle]. *)
Definition title_fn (node : loc) : M unit :=
  if decide (MODE = js "default") then
    set_props node (fun p => set_id (label_default p) p)
  else if decide (MODE = js "wastedBytes") then
    set_props node (fun p => set_id (label_wastedBytes p) p)
  else deref node ;;; ret tt.

Definition setTitle (fuel : nat) (node : loc) : M unit :=
  dfs fuel node title_fn.

Definition hsl (h s l : float) : jsstring :=
  js "hsl(" ++ number_to_string h ++ js ", " ++ number_to_string s
    ++ js "%, " ++ number_to_string l ++ js "%)".

(** *** JSON.parse(JSON.stringify(node)) *)

(** The JSON text of a node, as a tree. *)
Inductive json :=
  | JObject (p : props) (kids : option (list json)).

Definition is_finite (x : float) : bool :=
  negb (is_nan x) && negb (is_infinity x).

(** A numeric property through the round trip: NaN and the infinities
    are written as [null], -0 as [0]; every other number reads back as
    itself; an [undefined] property is left out. *)
Definition json_value (v : value) : value :=
  match v with
  | Number x =>
    if is_finite x then (if (x =? 0)%float then Number 0 else Number x)
    else Null
  | _ => v
  end.

(** An element has no enumerable own property: it is written as [{}]. *)
Definition json_dom (d : option dom_value) : option dom_value :=
  match d with
  | Some _ => Some PlainObject
  | None => None
  end.

Definition json_props (p : props) : props :=
  {| p_id := p_id p; p_originalId := p_originalId p;
     p_size := json_value (p_size p);
     p_wastedBytes := json_value (p_wastedBytes p);
     p_total := json_value (p_total p);
     p_idHash := json_value (p_idHash p);
     p_dom := json_dom (p_dom p) |}.

(** [xs.map(f)] for an effectful [f] *)
Fixpoint map_m {A B} (f : A -> M B) (xs : list A) : M (list B) :=
  match xs with
  | [] => ret []
  | x :: rest => y <- f x ;; ys <- map_m f rest ;; ret (y :: ys)
  end.

(** [JSON.stringify]: [stack] holds the objects being written, and meeting
    one of them again is the circular-structure TypeError. *)
Fixpoint stringify (fuel : nat) (stack : list loc) (l : loc) : M json :=
  match fuel with
  | O => fun _ => OutOfFuel
  | S fuel' =>
    if decide (l ∈ stack) then throw TypeError
    else
      n <- deref l ;;
      match n_children n with
      | Some children =>
        kids <- map_m (stringify fuel' (l :: stack)) children ;;
        ret (JObject (json_props (n_props n)) (Some kids))
      | None => ret (JObject (json_props (n_props n)) None)
      end
  end.

(** [JSON.parse]: every object of the text is a new object. *)
Fixpoint parse (j : json) : M loc :=
  match j with
  | JObject p kids =>
    match kids with
    | Some ks =>
      children <- map_m parse ks ;;
      alloc {| n_props := p; n_children := Some children |}
    | None => alloc {| n_props := p; n_children := None |}
    end
  end.

(** *** class TreemapViewer *)

Definition set_originalId (p : props) : props :=
  {| p_id := p_id p; p_originalId := p_id p; p_size := p_size p;
     p_wastedBytes := p_wastedBytes p; p_total := p_total p;
     p_idHash := p_idHash p; p_dom := p_dom p |}.

Definition set_idHash (idHash : float) (p : props) : props :=
  {| p_id := p_id p; p_originalId := p_originalId p; p_size := p_size p;
     p_wastedBytes := p_wastedBytes p; p_total := p_total p;
     p_idHash := Number idHash; p_dom := p_dom p |}.

Definition set_dom (d : dom_value) (p : props) : props :=
  {| p_id := p_id p; p_originalId := p_originalId p; p_size := p_size p;
     p_wastedBytes := p_wastedBytes p; p_total := p_total p;
     p_idHash := p_idHash p; p_dom := Some d |}.

(** [[...id].reduce((acc, char) => acc + char.charCodeAt(0), 0)] *)
Definition idHash_of (id : jsstring) : float :=
  foldl (fun acc char => (acc + charCodeAt0 char)%float) 0%float
        (string_iterator id).

Definition set_viewer (v : TreemapViewer) (w : world) : world :=
  {| heap := heap w; bundle_selector := bundle_selector w;
     main_el := main_el w; opener := opener w; ga := ga w;
     treemapViewer := Some v |}.

(** The receiver of a method call on [treemapViewer]. *)
Definition this : M TreemapViewer :=
  fun w =>
    match treemapViewer w with
    | Some v => Ok v w
    | None => Throw TypeError w
    end.

Definition set_currentRootNode (l : option loc) : M unit :=
  v <- this ;;
  fun w => Ok tt (set_viewer
    {| documentUrl := documentUrl v; rootNodes := rootNodes v; el := el v;
       currentRootNode := l; treemap := treemap v |} w).

Definition set_treemap (l : option loc) : M unit :=
  v <- this ;;
  fun w => Ok tt (set_viewer
    {| documentUrl := documentUrl v; rootNodes := rootNodes v; el := el v;
       currentRootNode := currentRootNode v; treemap := l |} w).

(** [el.innerHTML = ''] and the element receiving a rendered treemap *)
Definition set_content (r : element_ref) (content : option loc) : M unit :=
  fun w =>
    match r with
    | MainElement =>
      Ok tt {| heap := heap w; bundle_selector := bundle_selector w;
               main_el := (fun _ => {| main_content := content |}) <$> main_el w;
               opener := opener w; ga := ga w;
               treemapViewer := treemapViewer w |}
    | BundleSelectorElement =>
      Ok tt {| heap := heap w;
               bundle_selector :=
                 (fun sel => {| sel_options := []; sel_value := [];
                                sel_listeners := sel_listeners sel |})
                   <$> bundle_selector w;
               main_el := main_el w; opener := opener w; ga := ga w;
               treemapViewer := treemapViewer w |}
    end.

(** [xs.reduce(f, init)] for an [f] that reads the store *)
Fixpoint reduce {A B} (f : B -> A -> M B) (xs : list A) (init : B) : M B :=
  match xs with
  | [] => ret init
  | x :: rest => acc <- f init x ;; reduce f rest acc
  end.

(** The fixed palette of [updateColors]: hue and saturation. *)
Definition colors : list (float * float) :=
  [(30, 60); (94, 60); (124, 60); (254, 60)]%float.

(** The integer a number denotes, when it denotes one. *)
Definition integer_of (x : float) : option Z :=
  match Prim2SF x with
  | S754_zero _ => Some 0
  | S754_finite s m e =>
    let n := if s then Zneg m else Zpos m in
    if 0 <=? e then Some (Z.shiftl n e)
    else if Z.land (Zpos m) (Z.ones (- e)) =? 0 then Some (Z.shiftr n (- e))
    else None
  | _ => None
  end.

(** [xs[i]] for a number [i]: an element when [i] is an index, else
    [undefined]. *)
Definition array_get {A} (xs : list A) (i : float) : option A :=
  match integer_of i with
  | Some z => if (0 <=? z) && (z <? Z.of_nat (length xs))
              then xs !! Z.to_nat z else None
  | None => None
  end.

(** [colors[node.idHash % colors.length || 0]] *)
Definition pick_color (p : props) : option (float * float) :=
  array_get colors
    (number_or (js_rem (to_number (p_idHash p)) (float_of_Z (Z.of_nat (length colors))))
               0%float).

(** [25 + (85 - 25) * (1 - node.wastedBytes / node.size)] *)
Definition lightness (p : props) : float :=
  (25 + (85 - 25) * (1 - to_number (p_wastedBytes p) / to_number (p_size p)))%float.

(** The callback of [updateColors]. *)
Definition color_fn (node : loc) : M unit :=
  n <- deref node ;;
  match p_dom (n_props n) with
  | None => ret tt
  | Some d =>
    let l := lightness (n_props n) in
    match pick_color (n_props n), d with
    | Some (h, s), Element _ =>
      set_props node (set_dom (Element
        {| backgroundColor := Some (hsl h s (Math_round l));
           color := Some (if (50 <? l)%float then js "black" else js "white") |}))
    | _, _ => throw TypeError
    end
  end.

(** Values of the message payload. *)
Inductive jsval :=
  | VUndefined
  | VNull
  | VBool (b : bool)
  | VNumber (x : float)
  | VString (s : jsstring)
  | VRootNodes (rs : list RootNode).

(** ToBoolean *)
Definition truthy (v : jsval) : bool :=
  match v with
  | VUndefined | VNull => false
  | VBool b => b
  | VNumber x => number_truthy x
  | VString s => negb (bool_decide (s = []))
  | VRootNodes _ => true
  end.

(** [e.data]: [undefined] or [null], another primitive, or an object with
    the three properties read by the handler ([VUndefined] when absent). *)
Inductive message_data :=
  | DataNullish
  | DataPrimitive
  | DataObject (documentUrl id rootNodes : jsval).

Record MessageEvent := {
  source : option window_id;
  data : message_data
}.

(** [e.source !== self.opener] is false when both are the same window, or
    both are null. *)
Definition same_window (src : option window_id) (op : option opener_window) : bool :=
  match src, op with
  | Some a, Some o => bool_decide (a = op_id o)
  | None, None => true
  | _, _ => false
  end.

Definition set_selector (sel : selector) (w : world) : world :=
  {| heap := heap w; bundle_selector := Some sel; main_el := main_el w;
     opener := opener w; ga := ga w; treemapViewer := treemapViewer w |}.

(** [makeOption(value, text)] *)
Definition makeOption (value text : jsstring) : M unit :=
  fun w =>
    match bundle_selector w with
    | Some sel =>
      Ok tt (set_selector
        {| sel_options := sel_options sel ++ [(value, text)];
           sel_value := sel_value sel;
           sel_listeners := sel_listeners sel |} w)
    | None => Stuck
    end.

(** [bundleSelectorEl.value = id]: the option with that value becomes the
    selected one; without such an option nothing is selected. *)
Definition select_value (id : jsstring) : M unit :=
  fun w =>
    match bundle_selector w with
    | Some sel =>
      Ok tt (set_selector
        {| sel_options := sel_options sel;
           sel_value := if bool_decide (id ∈ (sel_options sel).*1) then id else [];
           sel_listeners := sel_listeners sel |} w)
    | None => Stuck
    end.

Definition add_change_listener : M unit :=
  fun w =>
    match bundle_selector w with
    | Some sel =>
      Ok tt (set_selector
        {| sel_options := sel_options sel; sel_value := sel_value sel;
           sel_listeners := S (sel_listeners sel) |} w)
    | None => Stuck
    end.

(** [if (self.opener && !self.opener.closed) self.opener.postMessage(m, '*')] *)
Definition post_to_opener (m : post) : M unit :=
  fun w =>
    match opener w with
    | Some o =>
      if op_closed o then Ok tt w
      else Ok tt {| heap := heap w; bundle_selector := bundle_selector w;
                    main_el := main_el w;
                    opener := Some {| op_id := op_id o; op_closed := op_closed o;
                                      op_inbox := op_inbox o ++ [m] |};
                    ga := ga w; treemapViewer := treemapViewer w |}
    | None => Ok tt w
    end.

(** [if (window.ga) window.ga('send', 'event', 'report', 'open in viewer')] *)
Definition ga_report : M unit :=
  fun w =>
    match ga w with
    | Some calls =>
      Ok tt {| heap := heap w; bundle_selector := bundle_selector w;
               main_el := main_el w; opener := opener w;
               ga := Some (calls ++ [[js "send"; js "event"; js "report";
                                      js "open in viewer"]]);
               treemapViewer := treemapViewer w |}
    | None => Ok tt w
    end.

Section Viewer.
(** The layout library, webtreemap, is not part of the script. Its two
    entry points are taken as transformers of the object store:
    [webtreemap.sort(node)], and [new webtreemap.TreeMap(node, options)]
    followed by [render(el)], which lays [node] out with the given
    padding. *)
Variable webtreemap_sort : loc -> gmap loc node -> gmap loc node.
Variable webtreemap_render :
  list float -> loc -> gmap loc node -> gmap loc node.

Definition sort (node : loc) : M unit :=
  fun w => Ok tt (set_heap (webtreemap_sort node (heap w)) w).

(** The constructor; the object it builds is its result. *)
Definition new_TreemapViewer (fuel : nat) (documentUrl : jsstring)
    (rootNodes : list RootNode) (el : element_ref) : M TreemapViewer :=
  for_each rootNodes (fun rootNode =>
    dfs fuel (rn_node rootNode) (fun node => set_props node set_originalId) ;;;
    let idHash := idHash_of (rn_id rootNode) in
    dfs fuel (rn_node rootNode) (fun node => set_props node (set_idHash idHash)) ;;;
    sort (rn_node rootNode)) ;;;
  ret {| documentUrl := documentUrl; rootNodes := rootNodes; el := el;
         currentRootNode := None; treemap := None |}.

(** The ephemeral aggregate of [show('javascript')]. *)
Definition aggregate (documentUrl : jsstring) (size wastedBytes : float)
    (children : list loc) : node :=
  {| n_props := {| p_id := None; p_originalId := Some documentUrl;
                   p_size := Number size; p_wastedBytes := Number wastedBytes;
                   p_total := Undefined; p_idHash := Undefined;
                   p_dom := None |};
     n_children := Some children |}.

Definition updateColors (fuel : nat) : M unit :=
  v <- this ;;
  match currentRootNode v with
  | Some node => dfs fuel node color_fn
  | None => throw TypeError
  end.

Definition render (fuel : nat) : M unit :=
  v <- this ;;
  match treemap v with
  | Some node =>
    (fun w => Ok tt (set_heap (webtreemap_render [18; 3; 3; 3]%float node (heap w)) w)) ;;;
    set_content (el v) (Some node) ;;;
    updateColors fuel
  | None => throw TypeError
  end.

(** The first statement of [show]: the node to display becomes
    [currentRootNode]. *)
Definition select_root (id : jsstring) : M unit :=
  v <- this ;;
  if decide (id = js "javascript") then
    let children :=
      rn_node <$> filter (fun rootNode => rn_group rootNode = id) (rootNodes v) in
    size <- reduce (fun acc cur =>
              n <- deref cur ;;
              ret (to_number (p_size (n_props n)) + acc)%float) children 0%float ;;
    wastedBytes <- reduce (fun acc cur =>
              n <- deref cur ;;
              ret (to_number (p_wastedBytes (n_props n)) + acc)%float) children 0%float ;;
    node <- alloc (aggregate (documentUrl v) size wastedBytes children) ;;
    set_currentRootNode (Some node)
  else
    match List.find (fun rootNode => bool_decide (rn_id rootNode = id)) (rootNodes v) with
    | Some rootNode => set_currentRootNode (Some (rn_node rootNode))
    | None => throw TypeError
    end.

Definition show (fuel : nat) (id : jsstring) : M unit :=
  select_root id ;;;
  v <- this ;;
  match currentRootNode v with
  | Some node =>
    (* Clone because treemap view modifies input. *)
    text <- stringify fuel [] node ;;
    clone <- parse text ;;
    set_currentRootNode (Some clone) ;;;
    setTitle fuel clone ;;;
    set_content (el v) None ;;;
    set_treemap (Some clone) ;;;
    render fuel
  | None => throw TypeError
  end.

(** *** main *)

(** The listener of 'message'. *)
Definition on_message (fuel : nat) (e : MessageEvent) : M unit :=
  fun w =>
    if negb (same_window (source e) (opener w)) then Ok tt w
    else
      match data e with
      | DataNullish => Throw TypeError w
      | DataPrimitive => Ok tt w
      | DataObject documentUrl id rootNodes =>
        if negb (truthy rootNodes) || negb (truthy documentUrl) || negb (truthy id)
        then Ok tt w
        else
          match documentUrl, id, rootNodes with
          | VString documentUrl, VString id, VRootNodes rootNodes =>
            ((* Init header controls. *)
             find (js ".bundle-selector") ;;;
             makeOption (js "javascript") (documentUrl ++ js " (all javascript)") ;;;
             for_each rootNodes (fun rootNode =>
               makeOption (rn_id rootNode) (rn_id rootNode)) ;;;
             select_value id ;;;
             add_change_listener ;;;
             el <- find (js "main") ;;
             viewer <- new_TreemapViewer fuel documentUrl rootNodes el ;;
             (fun w => Ok tt (set_viewer viewer w)) ;;;
             show fuel id ;;;
             post_to_opener Rendered ;;;
             ga_report) w
          | _, _, _ => Stuck
          end
      end.

(** The listener of 'change' on the selector. *)
Definition on_change (fuel : nat) : M unit :=
  fun w =>
    match bundle_selector w with
    | Some sel => show fuel (sel_value sel) w
    | None => Stuck
    end.

(** The listener of 'resize': [treemapViewer && treemapViewer.render()] *)
Definition on_resize (fuel : nat) : M unit :=
  fun w =>
    match treemapViewer w with
    | Some _ => render fuel w
    | None => Ok tt w
    end.

(** The listener of 'click'; [in_node] tells whether the target lies
    within a treemap node. *)
Definition on_click (fuel : nat) (in_node : bool) : M unit :=
  fun w =>
    if negb in_node then Ok tt w
    else
      match treemapViewer w with
      | Some _ => updateColors fuel w
      | None => Ok tt w
      end.

(** [main()] up to the listeners: the page announces itself. *)
Definition main : M unit := post_to_opener Opened.
End Viewer.

(** *** The hover listeners

    They see the document through class lists only. An element is named
    by a number, and the document maps it to its class list (empty for an
    element without classes). The target of a mouse event is given with
    its ancestors: the element itself first, then its parent, up to the
    root element. *)

Definition element_id := positive.
Definition event_target := list element_id.

(** [el.classList] *)
Definition classList (d : gmap element_id (list jsstring)) (el : element_id) :
    list jsstring :=
  default [] (d !! el).

(** [target.closest('.' + class)]: the target or its nearest ancestor with
    the class, [null] when there is none. *)
Definition closest (d : gmap element_id (list jsstring)) (class : jsstring)
    (target : event_target) : option element_id :=
  List.find (fun el => bool_decide (class ∈ classList d el)) target.

(** [el.classList.add(token)]: a class list is an ordered set. *)
Definition classList_add (token : jsstring) (el : element_id)
    (d : gmap element_id (list jsstring)) : gmap element_id (list jsstring) :=
  let tokens := classList d el in
  <[el := if bool_decide (token ∈ tokens) then tokens else tokens ++ [token]]> d.

(** [el.classList.remove(token)] *)
Definition classList_remove (token : jsstring) (el : element_id)
    (d : gmap element_id (list jsstring)) : gmap element_id (list jsstring) :=
  <[el := filter (fun t => t <> token) (classList d el)]> d.

(** The listener of 'mouseover'. *)
Definition on_mouseover (target : event_target)
    (d : gmap element_id (list jsstring)) : gmap element_id (list jsstring) :=
  match closest d (js "webtreemap-node") target with
  | None => d
  | Some nodeEl => classList_add (js "webtreemap-node--hover") nodeEl d
  end.

(** The listener of 'mouseout'. *)
Definition on_mouseout (target : event_target)
    (d : gmap element_id (list jsstring)) : gmap element_id (list jsstring) :=
  match closest d (js "webtreemap-node") target with
  | None => d
  | Some nodeEl => classList_remove (js "webtreemap-node--hover") nodeEl d
  end.

(** ** Trees in the store *)

(** The nodes below [l] in visiting order, parent first, provided the
    structure below [l] is no deeper than [fuel]. *)
Fixpoint preorder (fuel : nat) (h : gmap loc node) (l : loc) : option (list loc) :=
  match fuel with
  | O => None
  | S fuel' =>
    match h !! l with
    | Some n =>
      match n_children n with
      | Some children =>
        match mapM (preorder fuel' h) children with
        | Some below => Some (l :: concat below)
        | None => None
        end
      | None => Some [l]
      end
    | None => None
    end
  end.

(** [x] is [l] or one of its descendants. *)
Inductive reachable (h : gmap loc node) : loc -> loc -> Prop :=
  | reachable_here l n : h !! l = Some n -> reachable h l l
  | reachable_below l n children child x :
      h !! l = Some n -> n_children n = Some children -> child ∈ children ->
      reachable h child x -> reachable h l x.

(** The two stores hold the same objects with the same children. *)
Definition same_shape (h h' : gmap loc node) : Prop :=
  forall l, n_children <$> h' !! l = n_children <$> h !! l.

(** A callback that leaves the [children] of every object alone. *)
Definition keeps_shape (fn : loc -> M unit) : Prop :=
  forall l w w', fn l w = Ok tt w' -> same_shape (heap w) (heap w').

(** Changing the own properties of one object. *)
Definition update_props (f : props -> props) (n : node) : node :=
  {| n_props := f (n_props n); n_children := n_children n |}.

(** [setTitle] run [k] times. *)
Fixpoint repeat_m (k : nat) (m : M unit) : M unit :=
  match k with
  | O => ret tt
  | S k' => m ;;; repeat_m k' m
  end.


(** [colors[node.idHash % colors.length]], the selection without [|| 0] *)
Definition pick_color_no_fallback (p : props) : option (float * float) :=
  array_get colors
    (js_rem (to_number (p_idHash p)) (float_of_Z (Z.of_nat (length colors)))).

(** * Properties *)

(** ** The state monad *)

Lemma bind_ok {A B} (m : M A) (k : A -> M B) w a w' :
  m w = Ok a w' -> bind m k w = k a w'.
Proof. unfold bind. intros ->. reflexivity. Qed.

Lemma bind_throw {A B} (m : M A) (k : A -> M B) w e w' :
  m w = Throw e w' -> bind m k w = Throw e w'.
Proof. unfold bind. intros ->. reflexivity. Qed.

Lemma bind_inv_ok {A B} (m : M A) (k : A -> M B) w b w' :
  bind m k w = Ok b w' -> exists a w1, m w = Ok a w1 /\ k a w1 = Ok b w'.
Proof.
  unfold bind. destruct (m w) as [a w1| | |] eqn:E; try discriminate.
  intros H. exists a, w1. auto.
Qed.

Lemma for_each_app {A} (xs ys : list A) (body : A -> M unit) w :
  for_each (xs ++ ys) body w = (for_each xs body ;;; for_each ys body) w.
Proof.
  revert w. induction xs as [|x xs IH]; intros w; simpl.
  - reflexivity.
  - unfold bind in *. destruct (body x w) as [[] w1| | |]; auto.
Qed.

(** ** Stores of the same shape *)

Lemma same_shape_refl h : same_shape h h.
Proof. intros l. reflexivity. Qed.

Lemma same_shape_sym h h' : same_shape h h' -> same_shape h' h.
Proof. intros H l. symmetry. apply H. Qed.

Lemma same_shape_trans h1 h2 h3 :
  same_shape h1 h2 -> same_shape h2 h3 -> same_shape h1 h3.
Proof. intros H12 H23 l. rewrite H23. apply H12. Qed.

Lemma same_shape_lookup h h' l n :
  same_shape h h' -> h !! l = Some n ->
  exists n', h' !! l = Some n' /\ n_children n' = n_children n.
Proof.
  intros H Hl. specialize (H l). rewrite Hl in H. simpl in H.
  destruct (h' !! l) as [n'|]; simpl in H; [|discriminate].
  exists n'. split; [reflexivity | congruence].
Qed.

Lemma same_shape_alter h l f :
  (forall n, n_children (f n) = n_children n) -> same_shape h (alter f l h).
Proof.
  intros Hf x. destruct (decide (l = x)) as [->|Hne].
  - rewrite lookup_alter_eq. destruct (h !! x); simpl; [|reflexivity].
    by rewrite Hf.
  - by rewrite lookup_alter_ne.
Qed.

Lemma mapM_ext_in {A B} (f g : A -> option B) (xs : list A) :
  (forall x, x ∈ xs -> f x = g x) -> mapM f xs = mapM g xs.
Proof.
  induction xs as [|x xs IH]; intros H; simpl; [reflexivity|].
  rewrite H by left. rewrite IH; [reflexivity|].
  intros y Hy. apply H. by right.
Qed.

Lemma preorder_same_shape fuel h h' l :
  same_shape h h' -> preorder fuel h' l = preorder fuel h l.
Proof.
  intros Hs. revert l. induction fuel as [|fuel IH]; intros l; simpl; [reflexivity|].
  specialize (Hs l).
  destruct (h !! l) as [n|], (h' !! l) as [n'|]; simpl in Hs; try discriminate;
    [|reflexivity].
  injection Hs as ->.
  destruct (n_children n) as [cs|]; [|reflexivity].
  rewrite (mapM_ext_in (preorder fuel h') (preorder fuel h)); [reflexivity|].
  intros; apply IH.
Qed.

(** ** [dfs] on a structure of bounded depth *)

Lemma for_each_keeps_shape fn ns w w' :
  keeps_shape fn -> for_each ns fn w = Ok tt w' -> same_shape (heap w) (heap w').
Proof.
  intros Hfn. revert w. induction ns as [|x ns IH]; intros w; simpl.
  - intros [= <-]. apply same_shape_refl.
  - intros H. apply bind_inv_ok in H as ([] & w1 & H1 & H2).
    eapply same_shape_trans; [eapply Hfn, H1 | eapply IH, H2].
Qed.

Lemma mapM_cons_Some {A B} (f : A -> option B) x xs ys :
  mapM f (x :: xs) = Some ys ->
  exists y ys', ys = y :: ys' /\ f x = Some y /\ mapM f xs = Some ys'.
Proof.
  simpl. destruct (f x) as [y|]; simpl; [|discriminate].
  destruct (mapM f xs) as [ys'|]; simpl; [|discriminate].
  intros [= <-]. eauto.
Qed.

Lemma dfs_children_preorder fn fuel h :
  keeps_shape fn ->
  (forall l w ns, preorder fuel (heap w) l = Some ns ->
                  dfs fuel l fn w = for_each ns fn w) ->
  forall children below w,
    mapM (preorder fuel h) children = Some below ->
    same_shape h (heap w) ->
    for_each children (fun child => dfs fuel child fn) w
    = for_each (concat below) fn w.
Proof.
  intros Hfn IH children.
  induction children as [|c cs IHcs]; intros below w Hm Hs.
  - injection Hm as <-. reflexivity.
  - apply mapM_cons_Some in Hm as (ns & below' & -> & Hc & Hm).
    simpl. rewrite for_each_app. unfold bind.
    rewrite (IH c w ns) by (by rewrite (preorder_same_shape _ h)).
    destruct (for_each ns fn w) as [[] w1| | |] eqn:E; try reflexivity.
    apply IHcs; [assumption|].
    eapply same_shape_trans; [exact Hs|].
    eapply for_each_keeps_shape; eassumption.
Qed.

(** [dfs] calls [fn] on the nodes in the order [preorder] lists them. *)
Lemma dfs_preorder fn :
  keeps_shape fn ->
  forall fuel l w ns,
    preorder fuel (heap w) l = Some ns -> dfs fuel l fn w = for_each ns fn w.
Proof.
  intros Hfn. induction fuel as [|fuel IH]; intros l w ns Hpre; [discriminate|].
  simpl in Hpre. destruct (heap w !! l) as [n|] eqn:Hl; [|discriminate].
  simpl. unfold bind at 1.
  destruct (n_children n) as [cs|] eqn:Hcs.
  - destruct (mapM (preorder fuel (heap w)) cs) as [below|] eqn:Hm; [|discriminate].
    injection Hpre as <-. simpl. unfold bind at 2.
    destruct (fn l w) as [[] w1| | |] eqn:Efn; try reflexivity.
    destruct (same_shape_lookup _ _ _ _ (Hfn _ _ _ Efn) Hl) as (n' & Hl' & Hc').
    unfold bind, deref. rewrite Hl', Hc', Hcs.
    eapply dfs_children_preorder; eauto.
  - injection Hpre as <-. simpl. unfold bind at 2.
    destruct (fn l w) as [[] w1| | |] eqn:Efn; try reflexivity.
    destruct (same_shape_lookup _ _ _ _ (Hfn _ _ _ Efn) Hl) as (n' & Hl' & Hc').
    unfold bind, deref. rewrite Hl', Hc', Hcs. reflexivity.
Qed.

(** ** The visiting order *)

Lemma elem_of_concat {A} (x : A) (ls : list (list A)) :
  x ∈ concat ls <-> exists l, l ∈ ls /\ x ∈ l.
Proof.
  induction ls as [|l ls IH]; simpl.
  - split; [intros H; inversion H | intros (l & H & _); inversion H].
  - rewrite elem_of_app, IH. split.
    + intros [H|(l' & H1 & H2)]; [exists l | exists l']; split; auto;
        [by left | by right].
    + intros (l' & H1 & H2). apply elem_of_cons in H1 as [->|H1]; eauto.
Qed.

Lemma preorder_inv fuel h l ns :
  preorder (S fuel) h l = Some ns ->
  exists n, h !! l = Some n /\
    ((n_children n = None /\ ns = [l]) \/
     exists children below,
       n_children n = Some children /\
       Forall2 (fun c ns_c => preorder fuel h c = Some ns_c) children below /\
       ns = l :: concat below).
Proof.
  simpl. destruct (h !! l) as [n|]; [|discriminate]. intros H. exists n.
  split; [reflexivity|]. destruct (n_children n) as [cs|].
  - destruct (mapM (preorder fuel h) cs) as [below|] eqn:Hm; [|discriminate].
    injection H as <-. right. exists cs, below.
    auto using mapM_Some_1.
  - injection H as <-. auto.
Qed.

Lemma preorder_root fuel h l ns : preorder fuel h l = Some ns -> l ∈ ns.
Proof.
  destruct fuel; [discriminate|]. intros H.
  apply preorder_inv in H as (n & _ & [[_ ->]|(cs & below & _ & _ & ->)]); by left.
Qed.

Lemma Forall2_elem_of_r {A B} (P : A -> B -> Prop) xs ys y :
  Forall2 P xs ys -> y ∈ ys -> exists x, x ∈ xs /\ P x y.
Proof.
  induction 1 as [|x y' xs ys HP _ IH]; intros Hy; [inversion Hy|].
  apply elem_of_cons in Hy as [->|Hy].
  - exists x. split; [by left | assumption].
  - destruct (IH Hy) as (x' & Hx' & HP'). exists x'. split; [by right | assumption].
Qed.

Lemma Forall2_elem_of_l {A B} (P : A -> B -> Prop) xs ys x :
  Forall2 P xs ys -> x ∈ xs -> exists y, y ∈ ys /\ P x y.
Proof.
  induction 1 as [|x' y xs ys HP _ IH]; intros Hx; [inversion Hx|].
  apply elem_of_cons in Hx as [->|Hx].
  - exists y. split; [by left | assumption].
  - destruct (IH Hx) as (y' & Hy' & HP'). exists y'. split; [by right | assumption].
Qed.

(** Every visited node is an object of the store. *)
Lemma preorder_is_Some fuel h l ns x :
  preorder fuel h l = Some ns -> x ∈ ns -> is_Some (h !! x).
Proof.
  revert l ns. induction fuel as [|fuel IH]; intros l ns H Hx; [discriminate|].
  apply preorder_inv in H as (n & Hl & [[_ ->]|(cs & below & _ & HF & ->)]).
  - apply list_elem_of_singleton in Hx as ->. eauto.
  - apply elem_of_cons in Hx as [->|Hx]; [eauto|].
    apply elem_of_concat in Hx as (ns_c & Hin & Hx).
    destruct (Forall2_elem_of_r _ _ _ _ HF Hin) as (c & _ & Hc). eauto.
Qed.

Lemma preorder_reachable fuel h l ns x :
  preorder fuel h l = Some ns -> x ∈ ns -> reachable h l x.
Proof.
  revert l ns. induction fuel as [|fuel IH]; intros l ns H Hx; [discriminate|].
  apply preorder_inv in H as (n & Hl & [[_ ->]|(cs & below & Hcs & HF & ->)]).
  - apply list_elem_of_singleton in Hx as ->. eapply reachable_here, Hl.
  - apply elem_of_cons in Hx as [->|Hx]; [eapply reachable_here, Hl|].
    apply elem_of_concat in Hx as (ns_c & Hin & Hx).
    destruct (Forall2_elem_of_r _ _ _ _ HF Hin) as (c & Hc & Hpre).
    eapply reachable_below; eauto.
Qed.

Lemma reachable_preorder h l x :
  reachable h l x -> forall fuel ns, preorder fuel h l = Some ns -> x ∈ ns.
Proof.
  induction 1 as [l n Hl|l n cs c x Hl Hcs Hc _ IH]; intros fuel ns H.
  - eapply preorder_root, H.
  - destruct fuel; [discriminate|].
    apply preorder_inv in H as (n' & Hl' & [[Hnone _]|(cs' & below & Hcs' & HF & ->)]).
    + congruence.
    + assert (cs' = cs) as -> by congruence.
      destruct (Forall2_elem_of_l _ _ _ _ HF Hc) as (ns_c & Hin & Hpre).
      right. apply elem_of_concat. exists ns_c. eauto.
Qed.

(** Pre-order: the descendants of a visited node all come after it. *)
Lemma preorder_parent_first fuel h l ns p :
  preorder fuel h l = Some ns -> p ∈ ns ->
  exists pre rest post,
    ns = pre ++ p :: rest ++ post /\
    forall x, reachable h p x -> x <> p -> x ∈ rest.
Proof.
  revert l ns. induction fuel as [|fuel IH]; intros l ns H Hp; [discriminate|].
  destruct (decide (p = l)) as [->|Hne].
  - pose proof (preorder_root _ _ _ _ H) as Hroot.
    assert (exists rest, ns = l :: rest) as [rest ->].
    { apply preorder_inv in H as (n & _ & [[_ ->]|(cs & below & _ & _ & ->)]); eauto. }
    exists [], rest, []. split; [by rewrite app_nil_r|].
    intros x Hx Hxl. pose proof (reachable_preorder _ _ _ Hx _ _ H) as Hin.
    apply elem_of_cons in Hin as [?|?]; [congruence | assumption].
  - apply preorder_inv in H as (n & Hl & [[_ ->]|(cs & below & Hcs & HF & ->)]).
    + apply list_elem_of_singleton in Hp. congruence.
    + apply elem_of_cons in Hp as [?|Hp]; [congruence|].
      apply elem_of_concat in Hp as (ns_c & Hin & Hp).
      destruct (Forall2_elem_of_r _ _ _ _ HF Hin) as (c & Hc & Hpre).
      destruct (IH _ _ Hpre Hp) as (pre & rest & post & -> & Hrest).
      apply list_elem_of_split in Hin as (b1 & b2 & ->).
      exists (l :: concat b1 ++ pre), rest, (post ++ concat b2).
      split; [|assumption].
      rewrite concat_app. simpl. rewrite <- !app_assoc. simpl.
      by rewrite <- !app_assoc.
Qed.

(** ** Updating the visited nodes *)

(** The store after [g] has been applied to the objects listed. *)
Definition apply_all (g : node -> node) (ns : list loc) (h : gmap loc node) :
    gmap loc node :=
  foldl (fun h l => alter g l h) h ns.

Lemma apply_all_lookup g ns h l :
  (forall n, g (g n) = g n) ->
  apply_all g ns h !! l = if decide (l ∈ ns) then g <$> h !! l else h !! l.
Proof.
  intros Hg. revert h. unfold apply_all.
  induction ns as [|x ns IH]; intros h; cbn [foldl].
  - destruct (decide (l ∈ [])) as [H|_]; [|reflexivity].
    by apply not_elem_of_nil in H.
  - rewrite IH. destruct (decide (l = x)) as [->|Hne].
    + rewrite lookup_alter_eq.
      destruct (decide (x ∈ x :: ns)) as [_|H]; [|by destruct H; left].
      destruct (decide (x ∈ ns)); [|reflexivity].
      destruct (h !! x); simpl; [by rewrite Hg | reflexivity].
    + rewrite lookup_alter_ne by congruence.
      destruct (decide (l ∈ ns)) as [Hin|Hnin];
        destruct (decide (l ∈ x :: ns)) as [Hin'|Hnin']; try reflexivity.
      * destruct Hnin'. by right.
      * apply elem_of_cons in Hin' as [?|?]; contradiction.
Qed.

Lemma apply_all_shape g ns h :
  (forall n, n_children (g n) = n_children n) -> same_shape h (apply_all g ns h).
Proof.
  intros Hg. revert h. induction ns as [|x ns IH]; intros h; simpl.
  - apply same_shape_refl.
  - eapply same_shape_trans; [apply same_shape_alter, Hg | apply IH].
Qed.

Lemma set_heap_set_heap h1 h2 w : set_heap h2 (set_heap h1 w) = set_heap h2 w.
Proof. reflexivity. Qed.

Lemma set_heap_heap w : set_heap (heap w) w = w.
Proof. by destruct w. Qed.

Lemma heap_set_heap h w : heap (set_heap h w) = h.
Proof. reflexivity. Qed.

Lemma set_props_ok l f w n :
  heap w !! l = Some n ->
  set_props l f w = Ok tt (set_heap (alter (update_props f) l (heap w)) w).
Proof.
  intros H. unfold set_props. rewrite H, alter_alt, H. reflexivity.
Qed.

Lemma set_props_keeps_shape f : keeps_shape (fun l => set_props l f).
Proof.
  intros l w w'. unfold set_props.
  destruct (heap w !! l) as [n|] eqn:Hl; [|discriminate].
  intros [= <-]. simpl. intros x.
  destruct (decide (l = x)) as [->|Hne].
  - rewrite lookup_insert_eq, Hl. reflexivity.
  - by rewrite lookup_insert_ne.
Qed.

(** A callback that, when it returns, has applied [g] to its node. *)
Definition acts_as (fn : loc -> M unit) (g : node -> node) : Prop :=
  forall l w w', fn l w = Ok tt w' -> w' = set_heap (alter g l (heap w)) w.

Lemma for_each_acts_as fn g ns w w' :
  acts_as fn g -> for_each ns fn w = Ok tt w' ->
  w' = set_heap (apply_all g ns (heap w)) w.
Proof.
  intros Hfn. revert w. induction ns as [|x ns IH]; intros w; simpl.
  - intros [= <-]. by rewrite set_heap_heap.
  - intros H. apply bind_inv_ok in H as ([] & w1 & H1 & H2).
    apply Hfn in H1 as ->. apply IH in H2 as ->. reflexivity.
Qed.

Lemma for_each_set_props f ns w :
  (forall l, l ∈ ns -> is_Some (heap w !! l)) ->
  for_each ns (fun l => set_props l f) w
  = Ok tt (set_heap (apply_all (update_props f) ns (heap w)) w).
Proof.
  revert w. induction ns as [|x ns IH]; intros w Hin; simpl.
  - by rewrite set_heap_heap.
  - destruct (Hin x) as [n Hx]; [by left|].
    erewrite bind_ok by (eapply set_props_ok, Hx).
    rewrite IH; [reflexivity|].
    intros l Hl. simpl. destruct (decide (x = l)) as [->|Hne].
    + rewrite lookup_alter_eq, Hx. eauto.
    + rewrite lookup_alter_ne by assumption. apply Hin. by right.
Qed.

(** ** Labels *)

Definition title_props (p : props) : props := set_id (label_wastedBytes p) p.

Lemma title_fn_eq node : title_fn node = set_props node title_props.
Proof.
  unfold title_fn.
  destruct (decide (MODE = js "default")) as [E|_]; [vm_compute in E; discriminate|].
  destruct (decide (MODE = js "wastedBytes")) as [_|E]; [reflexivity|].
  exfalso. apply E. reflexivity.
Qed.

Lemma title_fn_keeps_shape : keeps_shape title_fn.
Proof.
  intros l w w'. rewrite title_fn_eq. apply (set_props_keeps_shape title_props).
Qed.

(** The label never reads the [id] it replaces. *)
Lemma label_ignores_id s p : label_wastedBytes (set_id s p) = label_wastedBytes p.
Proof. reflexivity. Qed.

Lemma title_props_idemp n :
  update_props title_props (update_props title_props n) = update_props title_props n.
Proof. reflexivity. Qed.

Lemma setTitle_result fuel root w ns :
  preorder fuel (heap w) root = Some ns ->
  setTitle fuel root w
  = Ok tt (set_heap (apply_all (update_props title_props) ns (heap w)) w).
Proof.
  intros H. unfold setTitle.
  rewrite (dfs_preorder _ title_fn_keeps_shape _ _ _ _ H).
  rewrite <- (for_each_set_props title_props).
  - clear. revert w. induction ns as [|x ns IH]; intros w; simpl; [reflexivity|].
    unfold bind. rewrite title_fn_eq.
    destruct (set_props x title_props w) as [[] w1| | |]; auto.
  - intros l Hl. eapply preorder_is_Some; eassumption.
Qed.

Lemma apply_all_idemp g ns h :
  (forall n, g (g n) = g n) -> apply_all g ns (apply_all g ns h) = apply_all g ns h.
Proof.
  intros Hg. apply map_eq. intros l. rewrite !apply_all_lookup by assumption.
  destruct (decide (l ∈ ns)); [|reflexivity].
  destruct (h !! l); simpl; [by rewrite Hg | reflexivity].
Qed.

Lemma setTitle_again fuel root w ns :
  preorder fuel (heap w) root = Some ns ->
  let w1 := set_heap (apply_all (update_props title_props) ns (heap w)) w in
  setTitle fuel root w1 = Ok tt w1.
Proof.
  intros H w1.
  assert (preorder fuel (heap w1) root = Some ns) as H1.
  { rewrite <- H. apply preorder_same_shape. subst w1. simpl.
    apply apply_all_shape. reflexivity. }
  rewrite (setTitle_result _ _ _ _ H1). subst w1. simpl.
  rewrite apply_all_idemp by apply title_props_idemp. reflexivity.
Qed.

Lemma repeat_m_fixed (m : M unit) w k :
  m w = Ok tt w -> repeat_m k m w = Ok tt w.
Proof.
  intros H. induction k as [|k IH]; simpl; [reflexivity|].
  by rewrite (bind_ok _ _ _ _ _ H).
Qed.

Lemma NoDup_lookup_before {A} (pre rest post : list A) p x i j :
  NoDup (pre ++ p :: rest ++ post) -> x ∈ rest ->
  (pre ++ p :: rest ++ post) !! i = Some p ->
  (pre ++ p :: rest ++ post) !! j = Some x ->
  (i < j)%nat.
Proof.
  intros Hnd Hx Hi Hj.
  assert ((pre ++ p :: rest ++ post) !! length pre = Some p) as Hp.
  { by rewrite list_lookup_middle. }
  apply list_elem_of_lookup in Hx as [k Hk].
  assert ((pre ++ p :: rest ++ post) !! (length pre + S k)%nat = Some x) as Hxk.
  { rewrite lookup_app_r by lia.
    replace (length pre + S k - length pre)%nat with (S k) by lia.
    simpl. by rewrite lookup_app_l by (eapply lookup_lt_Some, Hk). }
  rewrite (NoDup_lookup _ _ _ _ Hnd Hi Hp), (NoDup_lookup _ _ _ _ Hnd Hj Hxk).
  lia.
Qed.

(** ** Sample pages *)

(** A page without document, opener or viewer, over the store [h]. *)
Definition page (h : gmap loc node) : world :=
  {| heap := h; bundle_selector := None; main_el := None; opener := None;
     ga := None; treemapViewer := None |}.

(** A node as the audit delivers it. *)
Definition data_node (id : string) (size wastedBytes : float)
    (children : option (list loc)) : node :=
  {| n_props := {| p_id := Some (js id); p_originalId := None;
                   p_size := Number size; p_wastedBytes := Number wastedBytes;
                   p_total := Undefined; p_idHash := Undefined; p_dom := None |};
     n_children := children |}.

(** A bundle with two modules. *)
Definition bundle_store : gmap loc node :=
  <[1%positive := data_node "main.js" 300 90 (Some [2%positive; 3%positive])]>
  (<[2%positive := data_node "a.js" 100 40 None]>
  (<[3%positive := data_node "b.js" 200 50 (Some [])]> ∅)).

(** [node => { node.id = 'seen'; delete node.children; }] *)
Definition mark_and_prune (node : loc) : M unit :=
  fun w =>
    Ok tt (set_heap (alter (fun n =>
      {| n_props := set_id (js "seen") (n_props n); n_children := None |})
      node (heap w)) w).

(** ** The claims *)

(** C3, amended. On a finite tree, [dfs(node, fn)] calls [fn] on every
    node of the tree exactly once, a parent strictly before each of its
    descendants, for every [fn] that leaves the [children] arrays as they
    are: the effect of the traversal is that of calling [fn] on the nodes
    one by one in pre-order. *)
Theorem dfs_visits_each_node_in_preorder fn fuel w root ns :
  keeps_shape fn ->
  preorder fuel (heap w) root = Some ns -> NoDup ns ->
  dfs fuel root fn w = for_each ns fn w
  /\ (forall x, reachable (heap w) root x ->
        exists i, ns !! i = Some x /\ forall j, ns !! j = Some x -> j = i)
  /\ (forall x, x ∈ ns -> reachable (heap w) root x)
  /\ (forall p x i j, ns !! i = Some p -> ns !! j = Some x ->
        reachable (heap w) p x -> x <> p -> (i < j)%nat).
Proof.
  intros Hfn Hpre Hnd. repeat split.
  - by apply dfs_preorder.
  - intros x Hx. pose proof (reachable_preorder _ _ _ Hx _ _ Hpre) as Hin.
    apply list_elem_of_lookup in Hin as [i Hi]. exists i. split; [assumption|].
    intros j Hj. eapply NoDup_lookup; eassumption.
  - intros x Hx. eapply preorder_reachable; eassumption.
  - intros p x i j Hi Hj Hreach Hne.
    assert (p ∈ ns) as Hp by (eapply list_elem_of_lookup_2, Hi).
    destruct (preorder_parent_first _ _ _ _ _ Hpre Hp)
      as (pre & rest & post & -> & Hrest).
    eapply NoDup_lookup_before; eauto.
Qed.

Lemma dfs_visits_each_node_in_preorder_witness :
  dfs 2 1%positive title_fn (page bundle_store)
  = for_each [1; 2; 3]%positive title_fn (page bundle_store).
Proof.
  refine (proj1 (dfs_visits_each_node_in_preorder title_fn 2 (page bundle_store)
                   1%positive [1; 2; 3]%positive title_fn_keeps_shape _ _)).
  - reflexivity.
  - repeat constructor; rewrite ?elem_of_cons, ?elem_of_nil; intuition discriminate.
Defined.

(** C3 as stated fails for a callback that removes [children]: the
    children are read after the call, so the child is never visited and
    stays as it was. *)
Lemma dfs_skips_pruned_children :
  let w := page (<[1%positive := data_node "main.js" 300 90 (Some [2%positive])]>
                (<[2%positive := data_node "a.js" 100 40 None]> ∅)) in
  preorder 2 (heap w) 1%positive = Some [1; 2]%positive
  /\ NoDup [1; 2]%positive
  /\ dfs 2 1%positive mark_and_prune w = for_each [1%positive] mark_and_prune w
  /\ dfs 2 1%positive mark_and_prune w <> for_each [1; 2]%positive mark_and_prune w
  /\ exists w',
       dfs 2 1%positive mark_and_prune w = Ok tt w'
       /\ heap w' !! 2%positive = Some (data_node "a.js" 100 40 None).
Proof.
  cbv zeta. split; [reflexivity|]. split.
  { repeat constructor; rewrite ?elem_of_cons, ?elem_of_nil; intuition discriminate. }
  split; [reflexivity|]. split.
  { intros H. vm_compute in H. discriminate H. }
  eexists. split; reflexivity.
Qed.

(** C2. In the active 'wastedBytes' mode [setTitle] writes on every node of
    the tree the label "<originalId> • <rounded size> • <rounded
    wastedBytes / size * 100>"; a node with originalId "a.js", size 100 and
    wastedBytes 40 is labelled "a.js • 100 • 40". *)
Theorem setTitle_writes_label fuel w root ns :
  preorder fuel (heap w) root = Some ns ->
  (exists w',
     setTitle fuel root w = Ok tt w' /\
     forall l n, reachable (heap w) root l -> heap w !! l = Some n ->
       exists n',
         heap w' !! l = Some n' /\
         p_id (n_props n') =
           Some (template (p_originalId (n_props n)) ++ js " • "
                 ++ number_to_string (Math_round (to_number (p_size (n_props n))))
                 ++ js " • "
                 ++ number_to_string
                      (Math_round (to_number (p_wastedBytes (n_props n))
                                   / to_number (p_size (n_props n)) * 100)%float)))
  /\ (forall p, p_originalId p = Some (js "a.js") -> p_size p = Number 100 ->
        p_wastedBytes p = Number 40 ->
        p_id (title_props p) = Some (js "a.js • 100 • 40")).
Proof.
  intros Hpre. split.
  - eexists. split; [apply (setTitle_result _ _ _ _ Hpre)|].
    intros l n Hreach Hl. simpl.
    rewrite apply_all_lookup by apply title_props_idemp.
    rewrite decide_True by (eapply reachable_preorder; eassumption).
    rewrite Hl. simpl. eexists. split; reflexivity.
  - intros p H1 H2 H3. unfold title_props, label_wastedBytes. simpl.
    rewrite H1, H2, H3. vm_compute. reflexivity.
Qed.

Lemma setTitle_writes_label_witness :
  exists w',
    setTitle 2 1%positive (page bundle_store) = Ok tt w' /\
    forall l n, reachable bundle_store 1%positive l -> bundle_store !! l = Some n ->
      exists n',
        heap w' !! l = Some n' /\
        p_id (n_props n') =
          Some (template (p_originalId (n_props n)) ++ js " • "
                ++ number_to_string (Math_round (to_number (p_size (n_props n))))
                ++ js " • "
                ++ number_to_string
                     (Math_round (to_number (p_wastedBytes (n_props n))
                                  / to_number (p_size (n_props n)) * 100)%float)).
Proof.
  refine (proj1 (setTitle_writes_label 2 (page bundle_store) 1%positive
                   [1; 2; 3]%positive _)).
  reflexivity.
Defined.

(** C6. Running [setTitle] again changes nothing: on a tree, any number
    of runs leaves every node with the [id] the first run wrote, because
    the label is computed from [originalId] and never from [id]. *)
Theorem setTitle_idempotent fuel w root ns :
  preorder fuel (heap w) root = Some ns ->
  exists w1,
    setTitle fuel root w = Ok tt w1
    /\ (forall k, repeat_m (S k) (setTitle fuel root) w = Ok tt w1)
    /\ (forall l n1, l ∈ ns -> heap w1 !! l = Some n1 ->
          p_id (n_props n1) = Some (label_wastedBytes (n_props n1)))
    /\ (forall s p, label_wastedBytes (set_id s p) = label_wastedBytes p).
Proof.
  intros Hpre. eexists. split; [apply (setTitle_result _ _ _ _ Hpre)|].
  split; [|split].
  - intros k. simpl. rewrite (bind_ok _ _ _ _ _ (setTitle_result _ _ _ _ Hpre)).
    apply repeat_m_fixed, setTitle_again, Hpre.
  - intros l n1 Hin. simpl.
    rewrite apply_all_lookup by apply title_props_idemp.
    rewrite decide_True by assumption.
    destruct (heap w !! l) as [n|]; simpl; [|discriminate].
    intros [= <-]. reflexivity.
  - reflexivity.
Qed.

Lemma setTitle_idempotent_witness :
  exists w1,
    setTitle 2 1%positive (page bundle_store) = Ok tt w1
    /\ repeat_m 3 (setTitle 2 1%positive) (page bundle_store) = Ok tt w1.
Proof.
  destruct (setTitle_idempotent 2 (page bundle_store) 1%positive
              [1; 2; 3]%positive eq_refl) as (w1 & H1 & Hk & _).
  exists w1. split; [exact H1 | exact (Hk 2%nat)].
Defined.

(** ** Facts about doubles *)

Lemma Prim2SF_nan_iff x : Prim2SF x = S754_nan <-> is_nan x = true.
Proof.
  unfold Prim2SF. destruct (is_nan x); [tauto|].
  destruct (PrimFloat.is_zero x); [split; discriminate|].
  destruct (is_infinity x); [split; discriminate|].
  destruct (Z.frexp x) as [r ex].
  destruct (shr_fexp _ _ _ _ _) as [shr e'].
  destruct (shr_m shr); split; discriminate.
Qed.

Lemma Prim2SF_infinity x s : Prim2SF x = S754_infinity s -> is_infinity x = true.
Proof.
  unfold Prim2SF. destruct (is_nan x); [discriminate|].
  destruct (PrimFloat.is_zero x); [discriminate|].
  destruct (is_infinity x); [reflexivity|].
  destruct (Z.frexp x) as [r ex].
  destruct (shr_fexp _ _ _ _ _) as [shr e'].
  destruct (shr_m shr); discriminate.
Qed.





Lemma div_by_zero w :
  (w <? 0)%float = false -> (w / 0)%float = nan \/ (w / 0)%float = infinity.
Proof.
  intros Hneg. rewrite FloatAxioms.ltb_spec in Hneg.
  assert (Prim2SF (w / 0) = S754_nan \/ Prim2SF (w / 0) = S754_infinity false) as [H|H].
  { rewrite FloatAxioms.div_spec.
    destruct (Prim2SF w) as [s|s| |s m e]; try destruct s; try discriminate; auto. }
  - left. by apply Prim2SF_inj.
  - right. by apply Prim2SF_inj.
Qed.

(** Rounding a non-negative mantissa never yields NaN. *)
Lemma shr_1_nonneg mrs : 0 <= shr_m mrs -> 0 <= shr_m (shr_1 mrs).
Proof.
  destruct mrs as [m r s]. simpl. intros H.
  destruct m as [|p|p]; [simpl; lia| |lia].
  destruct p; simpl; lia.
Qed.

Lemma iter_pos_shr_1_nonneg p mrs :
  0 <= shr_m mrs -> 0 <= shr_m (SpecFloat.iter_pos shr_1 p mrs).
Proof.
  revert mrs. induction p as [p IH|p IH|]; intros mrs H; simpl.
  - apply IH, IH, shr_1_nonneg, H.
  - apply IH, IH, H.
  - apply shr_1_nonneg, H.
Qed.

Lemma shr_fexp_nonneg m e l :
  0 <= m -> 0 <= shr_m (fst (shr_fexp prec emax m e l)).
Proof.
  intros H. unfold shr_fexp, shr.
  assert (0 <= shr_m (shr_record_of_loc m l)) as H0.
  { destruct l as [|[]]; simpl; lia. }
  destruct (fexp prec emax (Zdigits2 m + e) - e); simpl; auto.
  by apply iter_pos_shr_1_nonneg.
Qed.

Lemma binary_round_aux_not_nan sx mx ex lx :
  0 <= mx -> binary_round_aux prec emax sx mx ex lx <> S754_nan.
Proof.
  intros H. unfold binary_round_aux.
  pose proof (shr_fexp_nonneg mx ex lx H) as H1.
  destruct (shr_fexp prec emax mx ex lx) as [mrs' e']. simpl in H1.
  assert (0 <= round_nearest_even (shr_m mrs') (loc_of_shr_record mrs')) as H2.
  { unfold round_nearest_even.
    destruct (loc_of_shr_record mrs') as [|[]]; try lia.
    destruct (Z.even (shr_m mrs')); lia. }
  pose proof (shr_fexp_nonneg _ e' loc_Exact H2) as H3.
  destruct (shr_fexp prec emax _ e' loc_Exact) as [mrs'' e'']. simpl in H3.
  destruct (shr_m mrs'') as [|p|p]; [discriminate| |lia].
  destruct (e'' <=? emax - prec); discriminate.
Qed.

Lemma binary_round_not_nan sx mx ex : binary_round prec emax sx mx ex <> S754_nan.
Proof.
  unfold binary_round. destruct (shl_align _ _ _) as [mz ez].
  apply binary_round_aux_not_nan. lia.
Qed.

Lemma is_nan_false_iff x : is_nan x = false <-> Prim2SF x <> S754_nan.
Proof.
  rewrite Prim2SF_nan_iff. destruct (is_nan x); split; congruence.
Qed.

Lemma of_uint63_not_nan n : is_nan (of_uint63 n) = false.
Proof.
  apply is_nan_false_iff. rewrite of_uint63_spec. unfold binary_normalize.
  destruct (Uint63Axioms.to_Z n); [discriminate| |]; apply binary_round_not_nan.
Qed.

Lemma opp_not_nan x : is_nan x = false -> is_nan (- x) = false.
Proof.
  rewrite !is_nan_false_iff, opp_spec. destruct (Prim2SF x); simpl; congruence.
Qed.

Lemma float_of_Z_not_nan z : is_nan (float_of_Z z) = false.
Proof.
  destruct z; simpl; [reflexivity| |apply opp_not_nan]; apply of_uint63_not_nan.
Qed.

Lemma ldexp_not_nan x e : is_nan x = false -> is_nan (Z.ldexp x e) = false.
Proof.
  rewrite !is_nan_false_iff. unfold Z.ldexp. rewrite ldshiftexp_spec.
  intros H. unfold SFldexp. destruct (Prim2SF x); try congruence.
  apply binary_round_not_nan.
Qed.

Lemma is_finite_cases x :
  is_finite x = true ->
  (exists s, Prim2SF x = S754_zero s) \/ (exists s m e, Prim2SF x = S754_finite s m e).
Proof.
  unfold is_finite. intros [Hn Hi]%andb_true_iff.
  apply negb_true_iff in Hn, Hi. apply is_nan_false_iff in Hn.
  destruct (Prim2SF x) as [s|s| |s m e] eqn:E; eauto.
  - apply Prim2SF_infinity in E. congruence.
  - congruence.
Qed.

Lemma js_rem_not_nan x :
  is_finite x = true -> is_nan (js_rem x 4) = false.
Proof.
  intros Hfin. pose proof Hfin as Hfin'. unfold is_finite in Hfin'.
  apply andb_true_iff in Hfin' as [Hn _]. apply negb_true_iff in Hn.
  unfold js_rem.
  change (Prim2SF 4) with (S754_finite false 4503599627370496 (-50)).
  destruct (is_finite_cases x Hfin) as [[s ->]|(s & m & e & ->)]; [assumption|].
  cbv zeta. destruct s; [apply opp_not_nan|]; apply ldexp_not_nan, float_of_Z_not_nan.
Qed.

(** *** Integers below 2^53 add up exactly *)

(** [c * 2^j] *)
Definition pos_shl (c : positive) (j : nat) : positive := Nat.iter j xO c.

Lemma pos_iter_xO c p : Pos.iter xO c p = pos_shl c (Pos.to_nat p).
Proof. unfold pos_shl. rewrite Pos2Nat.inj_iter. reflexivity. Qed.

Lemma pos_shl_add c i j : pos_shl (pos_shl c i) j = pos_shl c (i + j).
Proof.
  unfold pos_shl. induction j as [|j IH]; simpl.
  - by rewrite Nat.add_0_r.
  - rewrite IH. replace (i + S j)%nat with (S (i + j)) by lia. reflexivity.
Qed.

Lemma pos_shl_plus a b j : (pos_shl a j + pos_shl b j)%positive = pos_shl (a + b) j.
Proof. unfold pos_shl. induction j as [|j IH]; simpl; [reflexivity|]. by rewrite <- IH. Qed.

Lemma digits2_pos_shl c j :
  Zpos (digits2_pos (pos_shl c j)) = Zpos (digits2_pos c) + Z.of_nat j.
Proof.
  unfold pos_shl. induction j as [|j IH]; simpl; [lia|].
  rewrite Pos2Z.inj_succ, IH. lia.
Qed.

Lemma digits2_pos_lower c : 2 ^ (Zpos (digits2_pos c) - 1) <= Zpos c.
Proof.
  induction c as [c IH|c IH|]; simpl; try lia.
  - rewrite Pos2Z.inj_succ. replace (Z.succ (Z.pos (digits2_pos c)) - 1)
      with (Z.succ (Z.pos (digits2_pos c) - 1)) by lia.
    rewrite Z.pow_succ_r by lia. lia.
  - rewrite Pos2Z.inj_succ. replace (Z.succ (Z.pos (digits2_pos c)) - 1)
      with (Z.succ (Z.pos (digits2_pos c) - 1)) by lia.
    rewrite Z.pow_succ_r by lia. lia.
Qed.

Lemma digits2_pos_le_53 c : Zpos c < 2 ^ 53 -> Zpos (digits2_pos c) <= 53.
Proof.
  intros H. destruct (Z_le_gt_dec (Zpos (digits2_pos c)) 53) as [|Hgt]; [assumption|].
  pose proof (digits2_pos_lower c) as Hl.
  assert (2 ^ 53 <= 2 ^ (Zpos (digits2_pos c) - 1)) by (apply Z.pow_le_mono_r; lia).
  lia.
Qed.

Lemma iter_pos_nat {A} (f : A -> A) p x :
  SpecFloat.iter_pos f p x = Nat.iter (Pos.to_nat p) f x.
Proof.
  revert x. induction p as [p IH|p IH|]; intros x; cbn [SpecFloat.iter_pos].
  - rewrite !IH, Pos2Nat.inj_xI, <- Nat.iter_add, <- Nat.iter_succ_r.
    f_equal. lia.
  - rewrite !IH, Pos2Nat.inj_xO, <- Nat.iter_add. f_equal. lia.
  - reflexivity.
Qed.

Definition exact (m : positive) : shr_record := {| shr_m := Zpos m; shr_r := false; shr_s := false |}.

Lemma shr_1_exact c j n :
  Nat.iter n shr_1 (exact (pos_shl c (n + j))) = exact (pos_shl c j).
Proof.
  induction n as [|n IH]; [reflexivity|].
  rewrite Nat.iter_succ_r. replace (S n + j)%nat with (S (n + j)) by lia.
  exact IH.
Qed.

(** The double of the positive integer [c] below 2^53. *)
Definition canon (c : positive) : spec_float :=
  S754_finite false (pos_shl c (Z.to_nat (53 - Zpos (digits2_pos c))))
              (Zpos (digits2_pos c) - 53).

Lemma fexp_small d : 1 <= d -> fexp prec emax d = d - 53.
Proof. intros H. unfold fexp, SpecFloat.emin, prec, emax. lia. Qed.

Lemma shr_fexp_exact c k :
  Zpos (digits2_pos c) <= 53 -> 53 <= Zpos (digits2_pos c) + Z.of_nat k ->
  shr_fexp prec emax (Zpos (pos_shl c k)) (- Z.of_nat k) loc_Exact
  = (exact (pos_shl c (Z.to_nat (53 - Zpos (digits2_pos c)))), Zpos (digits2_pos c) - 53).
Proof.
  intros Hd Hk. unfold shr_fexp. cbn [Zdigits2 shr_record_of_loc].
  rewrite digits2_pos_shl.
  replace (Z.pos (digits2_pos c) + Z.of_nat k + - Z.of_nat k) with (Z.pos (digits2_pos c)) by lia.
  rewrite fexp_small by lia.
  unfold shr.
  destruct (Z.pos (digits2_pos c) - 53 - - Z.of_nat k) as [|p|p] eqn:E; [|rewrite iter_pos_nat|lia].
  - f_equal; [|lia]. unfold exact. do 2 f_equal. f_equal. lia.
  - f_equal; [|lia].
    replace k with (Pos.to_nat p + Z.to_nat (53 - Z.pos (digits2_pos c)))%nat at 1 by lia.
    apply shr_1_exact.
Qed.

Lemma binary_round_aux_exact c k :
  Zpos (digits2_pos c) <= 53 -> 53 <= Zpos (digits2_pos c) + Z.of_nat k ->
  binary_round_aux prec emax false (Zpos (pos_shl c k)) (- Z.of_nat k) loc_Exact = canon c.
Proof.
  intros Hd Hk. unfold binary_round_aux. rewrite (shr_fexp_exact c k Hd Hk).
  cbn [exact shr_m loc_of_shr_record round_nearest_even].
  replace (Z.pos (digits2_pos c) - 53) with (- Z.of_nat (Z.to_nat (53 - Z.pos (digits2_pos c)))) at 1 by lia.
  rewrite (shr_fexp_exact c _ Hd) by lia.
  cbn [exact shr_m].
  replace (Z.pos (digits2_pos c) - 53 <=? emax - prec) with true; [reflexivity|].
  symmetry. apply Z.leb_le. unfold emax, prec. lia.
Qed.

Lemma binary_round_exact c k :
  Zpos (digits2_pos c) <= 53 ->
  binary_round prec emax false (pos_shl c k) (- Z.of_nat k) = canon c.
Proof.
  intros Hd. unfold binary_round, shl_align. rewrite digits2_pos_shl.
  replace (Z.pos (digits2_pos c) + Z.of_nat k + - Z.of_nat k) with (Z.pos (digits2_pos c)) by lia.
  rewrite fexp_small by lia.
  destruct (Z.pos (digits2_pos c) - 53 - - Z.of_nat k) as [|p|p] eqn:E.
  - apply binary_round_aux_exact; lia.
  - apply binary_round_aux_exact; lia.
  - rewrite pos_iter_xO, pos_shl_add.
    replace (Z.pos (digits2_pos c) - 53) with (- Z.of_nat (k + Pos.to_nat p)) by lia.
    apply binary_round_aux_exact; lia.
Qed.

Lemma Prim2SF_float_of_pos c :
  Zpos c < 2 ^ 53 -> Prim2SF (float_of_Z (Zpos c)) = canon c.
Proof.
  intros H. unfold float_of_Z. rewrite of_uint63_spec.
  rewrite Uint63.of_Z_spec, Z.mod_small
    by (split; [lia|]; eapply Z.lt_trans; [exact H | reflexivity]).
  unfold binary_normalize.
  apply (binary_round_exact c 0), digits2_pos_le_53, H.
Qed.

Lemma shl_align_shl c k K :
  (k <= K)%nat ->
  fst (shl_align (pos_shl c k) (- Z.of_nat k) (- Z.of_nat K)) = pos_shl c K.
Proof.
  intros H. unfold shl_align.
  destruct (- Z.of_nat K - - Z.of_nat k) as [|p|p] eqn:E; simpl.
  - f_equal. lia.
  - lia.
  - rewrite pos_iter_xO, pos_shl_add. f_equal. lia.
Qed.

Lemma SFadd_canon a b :
  Zpos a + Zpos b < 2 ^ 53 -> SF64add (canon a) (canon b) = canon (a + b).
Proof.
  intros H.
  assert (Zpos (digits2_pos a) <= 53) as Ha by (apply digits2_pos_le_53; lia).
  assert (Zpos (digits2_pos b) <= 53) as Hb by (apply digits2_pos_le_53; lia).
  assert (Zpos (digits2_pos (a + b)) <= 53) as Hab
    by (apply digits2_pos_le_53; lia).
  unfold canon, SF64add, SFadd.
  set (ka := Z.to_nat (53 - Z.pos (digits2_pos a))).
  set (kb := Z.to_nat (53 - Z.pos (digits2_pos b))).
  replace (Z.pos (digits2_pos a) - 53) with (- Z.of_nat ka) by lia.
  replace (Z.pos (digits2_pos b) - 53) with (- Z.of_nat kb) by lia.
  replace (Z.min (- Z.of_nat ka) (- Z.of_nat kb))
    with (- Z.of_nat (Nat.max ka kb)) by lia.
  rewrite !shl_align_shl by lia. cbn [cond_Zopp].
  rewrite <- Pos2Z.inj_add, pos_shl_plus. unfold binary_normalize.
  apply binary_round_exact, Hab.
Qed.

(** Adding two non-negative integers whose sum stays below 2^53 is exact. *)
Lemma float_of_Z_add a b :
  0 <= a -> 0 <= b -> a + b < 2 ^ 53 ->
  (float_of_Z a + float_of_Z b)%float = float_of_Z (a + b).
Proof.
  intros Ha Hb Hab. apply Prim2SF_inj. rewrite add_spec.
  destruct a as [|a|a]; [| |lia].
  - rewrite Z.add_0_l. change (Prim2SF (float_of_Z 0)) with (S754_zero false).
    destruct b as [|b|b]; [reflexivity| |lia].
    rewrite Prim2SF_float_of_pos by lia. reflexivity.
  - destruct b as [|b|b]; [| |lia].
    + rewrite Z.add_0_r. change (Prim2SF (float_of_Z 0)) with (S754_zero false).
      rewrite Prim2SF_float_of_pos by lia. reflexivity.
    + rewrite <- Pos2Z.inj_add, !Prim2SF_float_of_pos by lia.
      apply SFadd_canon. lia.
Qed.


Lemma eqb_zero x : (x =? 0)%float = true -> exists s, Prim2SF x = S754_zero s.
Proof.
  rewrite FloatAxioms.eqb_spec. change (Prim2SF 0) with (S754_zero false).
  destruct (Prim2SF x) as [s|s| |s m e]; [eauto| | |];
    try destruct s; discriminate.
Qed.

(** ** Colours *)

(** What [updateColors] does to the properties of one node. *)
Definition color_props (p : props) : props :=
  match p_dom p, pick_color p with
  | Some (Element _), Some (h, s) =>
    let l := lightness p in
    set_dom (Element
      {| backgroundColor := Some (hsl h s (Math_round l));
         color := Some (if (50 <? l)%float then js "black" else js "white") |}) p
  | _, _ => p
  end.

(** The callback runs through on the node: it has no [dom], or an element
    and a palette entry. *)
Definition can_colour (p : props) : bool :=
  match p_dom p, pick_color p with
  | None, _ => true
  | Some (Element _), Some _ => true
  | _, _ => false
  end.

Lemma update_props_id f n : f (n_props n) = n_props n -> update_props f n = n.
Proof. unfold update_props. intros ->. by destruct n. Qed.

Lemma color_fn_ok l w n :
  heap w !! l = Some n -> can_colour (n_props n) = true ->
  color_fn l w = Ok tt (set_heap (alter (update_props color_props) l (heap w)) w).
Proof.
  intros Hl Hc. unfold color_fn, bind, deref. rewrite Hl.
  unfold can_colour in Hc.
  destruct (p_dom (n_props n)) as [[st|]|] eqn:Hd; try discriminate.
  - destruct (pick_color (n_props n)) as [[h s]|] eqn:Hp; [|discriminate].
    rewrite (set_props_ok _ _ _ _ Hl).
    apply (f_equal (fun h => Ok tt (set_heap h w))).
    apply map_eq. intros x. destruct (decide (l = x)) as [->|Hne].
    + rewrite !lookup_alter_eq, Hl. simpl. f_equal. unfold update_props.
      f_equal. unfold color_props. by rewrite Hd, Hp.
    + by rewrite !lookup_alter_ne.
  - unfold ret. f_equal. rewrite alter_id; [by rewrite set_heap_heap|].
    intros n' Hn'. assert (n' = n) as -> by congruence.
    apply update_props_id. unfold color_props. by rewrite Hd.
Qed.

Lemma pick_color_set_dom d p : pick_color (set_dom d p) = pick_color p.
Proof. reflexivity. Qed.

Lemma lightness_set_dom d p : lightness (set_dom d p) = lightness p.
Proof. reflexivity. Qed.

Lemma color_props_twice p : color_props (color_props p) = color_props p.
Proof.
  unfold color_props.
  destruct (p_dom p) as [[st|]|] eqn:Hd; [|by rewrite Hd..].
  destruct (pick_color p) as [[h s]|] eqn:Hp; [|by rewrite Hd, Hp].
  cbn [p_dom set_dom]. rewrite pick_color_set_dom, Hp. reflexivity.
Qed.

Lemma color_props_idemp n :
  update_props color_props (update_props color_props n) = update_props color_props n.
Proof. unfold update_props. simpl. by rewrite color_props_twice. Qed.

Lemma can_colour_color_props p : can_colour (color_props p) = can_colour p.
Proof.
  unfold color_props.
  destruct (p_dom p) as [[st|]|] eqn:Hd; try reflexivity.
  destruct (pick_color p) as [[h s]|] eqn:Hp; [|reflexivity].
  unfold can_colour. cbn [p_dom set_dom]. by rewrite pick_color_set_dom, Hd, Hp.
Qed.

Lemma for_each_color_fn ns w :
  (forall l, l ∈ ns -> exists n, heap w !! l = Some n /\ can_colour (n_props n) = true) ->
  for_each ns color_fn w
  = Ok tt (set_heap (apply_all (update_props color_props) ns (heap w)) w).
Proof.
  revert w. induction ns as [|x ns IH]; intros w Hin; simpl.
  - by rewrite set_heap_heap.
  - destruct (Hin x) as (n & Hx & Hc); [by left|].
    rewrite (bind_ok _ _ _ _ _ (color_fn_ok _ _ _ Hx Hc)).
    rewrite IH; [reflexivity|].
    intros l Hl. simpl. destruct (decide (x = l)) as [->|Hne].
    + rewrite lookup_alter_eq, Hx. simpl. eexists. split; [reflexivity|].
      simpl. by rewrite can_colour_color_props.
    + rewrite lookup_alter_ne by assumption. apply Hin. by right.
Qed.

Lemma color_fn_keeps_shape : keeps_shape color_fn.
Proof.
  intros l w w'. unfold color_fn, bind, deref.
  destruct (heap w !! l) as [n|] eqn:Hl; [|discriminate].
  destruct (p_dom (n_props n)) as [[st|]|].
  - destruct (pick_color (n_props n)) as [[h s]|]; [|discriminate].
    apply (set_props_keeps_shape _ l).
  - destruct (pick_color (n_props n)) as [[h s]|]; discriminate.
  - intros [= <-]. apply same_shape_refl.
Qed.

Lemma updateColors_result fuel w v root ns :
  treemapViewer w = Some v -> currentRootNode v = Some root ->
  preorder fuel (heap w) root = Some ns ->
  (forall l n, l ∈ ns -> heap w !! l = Some n -> can_colour (n_props n) = true) ->
  updateColors fuel w
  = Ok tt (set_heap (apply_all (update_props color_props) ns (heap w)) w).
Proof.
  intros Hv Hroot Hpre Hc. unfold updateColors, bind, this. rewrite Hv, Hroot.
  rewrite (dfs_preorder _ color_fn_keeps_shape _ _ _ _ Hpre).
  apply for_each_color_fn. intros l Hl.
  destruct (preorder_is_Some _ _ _ _ _ Hpre Hl) as [n Hn]. eauto.
Qed.

Lemma lightness_zero_size wastedBytes :
  (wastedBytes <? 0)%float = false ->
  let l := (25 + (85 - 25) * (1 - wastedBytes / 0))%float in
  is_finite l = false /\ (50 <? l)%float = false.
Proof.
  intros H. destruct (div_by_zero _ H) as [-> | ->]; split; reflexivity.
Qed.

Lemma pick_color_fallback_dead x :
  is_nan (js_rem x 4) = false ->
  array_get colors (number_or (js_rem x 4) 0) = array_get colors (js_rem x 4).
Proof.
  intros Hn. unfold number_or, number_truthy. rewrite Hn. simpl.
  destruct (js_rem x 4 =? 0)%float eqn:E; [|reflexivity]. simpl.
  apply eqb_zero in E as [s E]. unfold array_get, integer_of. rewrite E.
  reflexivity.
Qed.

(** ** More sample pages *)

Definition unstyled : style := {| backgroundColor := None; color := None |}.

(** A node of a rendered clone. *)
Definition rendered_node (originalId : string) (size wastedBytes : float)
    (idHash : value) (children : option (list loc)) : node :=
  {| n_props := {| p_id := None; p_originalId := Some (js originalId);
                   p_size := Number size; p_wastedBytes := Number wastedBytes;
                   p_total := Undefined; p_idHash := idHash;
                   p_dom := Some (Element unstyled) |};
     n_children := children |}.

(** A page whose viewer shows the tree at [root]. *)
Definition viewing (root : loc) (h : gmap loc node) : world :=
  {| heap := h; bundle_selector := None; main_el := None; opener := None;
     ga := None;
     treemapViewer := Some {| documentUrl := js "https://x"; rootNodes := [];
                              el := MainElement; currentRootNode := Some root;
                              treemap := Some root |} |}.

Definition rendered_store : gmap loc node :=
  <[1%positive := rendered_node "a.js" 100 40 (Number 364) (Some [2%positive])]>
  (<[2%positive := rendered_node "empty.js" 0 0 (Number 364) None]> ∅).

(** A [webtreemap.sort] for children that are in order already. *)
Definition sort_sorted (root : loc) (h : gmap loc node) : gmap loc node := h.

(** A layout that gives every node below [root] a new element. *)
Definition lay_out_all (padding : list float) (root : loc) (h : gmap loc node) :
    gmap loc node :=
  match preorder (S (size h)) h root with
  | Some ns => apply_all (update_props (set_dom (Element unstyled))) ns h
  | None => h
  end.

(** The page as it is loaded, opened by window 7. *)
Definition loaded (h : gmap loc node) : world :=
  {| heap := h;
     bundle_selector := Some {| sel_options := []; sel_value := [];
                                sel_listeners := 0 |};
     main_el := Some {| main_content := None |};
     opener := Some {| op_id := 7%nat; op_closed := false; op_inbox := [] |};
     ga := None; treemapViewer := None |}.

(** A message selecting the aggregate of one JavaScript bundle. *)
Definition aggregate_message : MessageEvent :=
  {| source := Some 7%nat;
     data := DataObject (VString (js "https://x")) (VString (js "javascript"))
               (VRootNodes [{| rn_id := js "a.js"; rn_group := js "javascript";
                               rn_node := 1%positive |}]) |}.



(** C10. A rendered node whose size is 0 gets white text, for
    [wastedBytes] not below 0: the lightness [25 + 60 * (1 - wastedBytes / 0)]
    is NaN or -Infinity, [l > 50] is false and the white branch is taken. *)
Theorem updateColors_zero_size_white fuel w v root ns :
  treemapViewer w = Some v -> currentRootNode v = Some root ->
  preorder fuel (heap w) root = Some ns ->
  (forall l n, l ∈ ns -> heap w !! l = Some n -> can_colour (n_props n) = true) ->
  exists w',
    updateColors fuel w = Ok tt w' /\
    forall l n st,
      reachable (heap w) root l -> heap w !! l = Some n ->
      p_dom (n_props n) = Some (Element st) ->
      to_number (p_size (n_props n)) = 0%float ->
      (to_number (p_wastedBytes (n_props n)) <? 0)%float = false ->
      is_finite (lightness (n_props n)) = false
      /\ (50 <? lightness (n_props n))%float = false
      /\ exists n' st',
           heap w' !! l = Some n' /\ p_dom (n_props n') = Some (Element st')
           /\ color st' = Some (js "white").
Proof.
  intros Hv Hroot Hpre Hc.
  eexists. split; [apply (updateColors_result _ _ _ _ _ Hv Hroot Hpre Hc)|].
  intros l n st Hreach Hl Hd Hsize Hwaste.
  assert (is_finite (lightness (n_props n)) = false
          /\ (50 <? lightness (n_props n))%float = false) as [Hfin Hcmp].
  { unfold lightness. rewrite Hsize. apply (lightness_zero_size _ Hwaste). }
  split; [exact Hfin|]. split; [exact Hcmp|].
  pose proof (reachable_preorder _ _ _ Hreach _ _ Hpre) as Hin.
  pose proof (Hc _ _ Hin Hl) as Hcan. unfold can_colour in Hcan.
  rewrite Hd in Hcan.
  destruct (pick_color (n_props n)) as [[h s]|] eqn:Hp; [|discriminate].
  simpl. rewrite apply_all_lookup by apply color_props_idemp.
  rewrite decide_True by assumption. rewrite Hl. simpl.
  eexists. eexists. split; [reflexivity|]. cbn [update_props n_props].
  unfold color_props. rewrite Hd, Hp. split; [reflexivity|].
  cbn [color]. by rewrite Hcmp.
Qed.

Lemma updateColors_zero_size_white_witness :
  exists w' n' st',
    updateColors 2 (viewing 1%positive rendered_store) = Ok tt w'
    /\ heap w' !! 2%positive = Some n'
    /\ p_dom (n_props n') = Some (Element st')
    /\ color st' = Some (js "white").
Proof.
  destruct (updateColors_zero_size_white 2 (viewing 1%positive rendered_store) _
              1%positive [1; 2]%positive eq_refl eq_refl eq_refl)
    as (w' & Hrun & Hnodes).
  - intros l n Hin Hl.
    apply elem_of_cons in Hin as [->|Hin];
      [|apply list_elem_of_singleton in Hin as ->];
      vm_compute in Hl; injection Hl as <-; reflexivity.
  - assert (reachable rendered_store 1%positive 2%positive) as Hreach.
    { eapply preorder_reachable with (fuel := 2%nat) (ns := [1; 2]%positive);
        [reflexivity|]. right. left. }
    destruct (Hnodes 2%positive _ unstyled Hreach eq_refl eq_refl eq_refl eq_refl)
      as (_ & _ & n' & st' & Hl & Hd & Hcol).
    exists w', n', st'. auto.
Defined.

(** C9, amended. The [|| 0] of [colors[node.idHash % colors.length || 0]]
    changes nothing on a node whose [idHash] is a finite number or [null],
    as on every clone of a node stamped by the constructor. On a node
    without [idHash], [idHash % 4] is NaN and only the fallback selects the
    first palette entry; the selection without it is [undefined]. *)
Theorem fallback_matters_only_without_idHash :
  (forall p x, p_idHash p = Number x -> is_finite x = true ->
     pick_color p = pick_color_no_fallback p)
  /\ (forall p, p_idHash p = Null -> pick_color p = pick_color_no_fallback p)
  /\ (forall p, p_idHash p = Undefined ->
        pick_color p = Some (30, 60)%float /\ pick_color_no_fallback p = None).
Proof.
  split; [|split].
  - intros p x Hx Hfin. unfold pick_color, pick_color_no_fallback. rewrite Hx.
    change (float_of_Z (Z.of_nat (length colors))) with 4%float.
    apply pick_color_fallback_dead, js_rem_not_nan, Hfin.
  - intros p Hx. unfold pick_color, pick_color_no_fallback. rewrite Hx.
    reflexivity.
  - intros p Hx. unfold pick_color, pick_color_no_fallback. rewrite Hx.
    split; reflexivity.
Qed.

Lemma fallback_matters_only_without_idHash_witness :
  pick_color (n_props (rendered_node "a.js" 100 40 (Number 364) None))
  = pick_color_no_fallback (n_props (rendered_node "a.js" 100 40 (Number 364) None)).
Proof.
  exact (proj1 fallback_matters_only_without_idHash
           (n_props (rendered_node "a.js" 100 40 (Number 364) None))
           364%float eq_refl eq_refl).
Defined.

(** C9 as stated fails on the root of the aggregate view: [show] builds
    it without [idHash], the layout renders it, and [updateColors] picks
    its colour through the fallback alone. *)
Lemma aggregate_root_is_coloured_by_the_fallback :
  exists w' v root n st,
    on_message sort_sorted lay_out_all 3 aggregate_message
      (loaded (<[1%positive := data_node "a.js" 100 40 None]> ∅)) = Ok tt w'
    /\ treemapViewer w' = Some v
    /\ currentRootNode v = Some root
    /\ heap w' !! root = Some n
    /\ p_idHash (n_props n) = Undefined
    /\ p_dom (n_props n) = Some (Element st)
    /\ backgroundColor st = Some (js "hsl(30, 60%, 61%)")
    /\ pick_color (n_props n) = Some (30, 60)%float
    /\ pick_color_no_fallback (n_props n) = None.
Proof.
  do 5 eexists. split; [vm_compute; reflexivity|].
  split; [reflexivity|]. split; [reflexivity|].
  split; [vm_compute; reflexivity|]. repeat split; reflexivity.
Qed.

(** ** The message handler *)

(** C8, amended. The handler returns without an error and leaves the page
    as it is when the message does not come from the opener, and when its
    payload is an object, or a primitive other than [null] and [undefined],
    in which [documentUrl], [id] or [rootNodes] is missing or falsy. On a
    [null] or [undefined] payload from the opener the destructuring raises
    a TypeError; the page is unchanged then too. *)
Theorem on_message_ignores_other_messages sort render fuel e w :
  (same_window (source e) (opener w) = false ->
     on_message sort render fuel e w = Ok tt w)
  /\ (forall documentUrl id rootNodes,
        data e = DataObject documentUrl id rootNodes ->
        truthy documentUrl = false \/ truthy id = false \/ truthy rootNodes = false ->
        on_message sort render fuel e w = Ok tt w)
  /\ (data e = DataPrimitive -> on_message sort render fuel e w = Ok tt w)
  /\ (same_window (source e) (opener w) = true -> data e = DataNullish ->
        on_message sort render fuel e w = Throw TypeError w).
Proof.
  unfold on_message. repeat split.
  - intros ->. reflexivity.
  - intros documentUrl id rootNodes -> H.
    destruct (same_window (source e) (opener w)); [|reflexivity]. simpl.
    destruct H as [-> | [-> | ->]]; simpl; rewrite ?orb_true_r; reflexivity.
  - intros ->. destruct (same_window (source e) (opener w)); reflexivity.
  - intros -> ->. reflexivity.
Qed.

Lemma on_message_ignores_other_messages_witness :
  on_message sort_sorted lay_out_all 3
    {| source := Some 8%nat; data := DataObject VUndefined VUndefined VUndefined |}
    (loaded bundle_store) = Ok tt (loaded bundle_store)
  /\ on_message sort_sorted lay_out_all 3
    {| source := Some 7%nat;
       data := DataObject (VString (js "https://x")) (VString [])
                 (VRootNodes []) |}
    (loaded bundle_store) = Ok tt (loaded bundle_store).
Proof.
  split.
  - exact (proj1 (on_message_ignores_other_messages sort_sorted lay_out_all 3
                    {| source := Some 8%nat;
                       data := DataObject VUndefined VUndefined VUndefined |}
                    (loaded bundle_store)) eq_refl).
  - exact (proj1 (proj2 (on_message_ignores_other_messages sort_sorted lay_out_all 3
                    {| source := Some 7%nat;
                       data := DataObject (VString (js "https://x")) (VString [])
                                 (VRootNodes []) |}
                    (loaded bundle_store))) _ _ _ eq_refl (or_intror (or_introl eq_refl))).
Defined.

(** C8 as stated fails on a [null] payload sent by the opener: its three
    fields are missing and the handler raises a TypeError. *)
Lemma on_message_throws_on_null_payload :
  on_message sort_sorted lay_out_all 3
    {| source := Some 7%nat; data := DataNullish |} (loaded bundle_store)
  = Throw TypeError (loaded bundle_store).
Proof. reflexivity. Qed.

(** ** Selecting the aggregate *)


Lemma alloc_fresh n w :
  exists l, alloc n w = Ok l (set_heap (<[l := n]> (heap w)) w)
            /\ (l ∉ dom (heap w)).
Proof.
  exists (fresh (dom (heap w))). split; [reflexivity | apply is_fresh].
Qed.


(** Three bundles, two of them JavaScript, and their viewer. *)
Definition three_bundles : world :=
  {| heap := <[1%positive := data_node "a.js" 100 40 None]>
             (<[2%positive := data_node "b.js" 200 50 None]>
             (<[3%positive := data_node "c.css" 10 1 None]> ∅));
     bundle_selector := None; main_el := None; opener := None; ga := None;
     treemapViewer := Some
       {| documentUrl := js "https://x";
          rootNodes := [{| rn_id := js "a.js"; rn_group := js "javascript";
                           rn_node := 1%positive |};
                        {| rn_id := js "b.js"; rn_group := js "javascript";
                           rn_node := 2%positive |};
                        {| rn_id := js "c.css"; rn_group := js "css";
                           rn_node := 3%positive |}];
          el := MainElement; currentRootNode := None; treemap := None |} |}.


(** ** The constructor *)

(** [webtreemap.sort] changes no own property of any node. *)
Definition sort_keeps_props (sort : loc -> gmap loc node -> gmap loc node) : Prop :=
  forall root h l, n_props <$> sort root h !! l = n_props <$> h !! l.

(** [webtreemap.sort(node)] changes nothing outside the tree of [node]. *)
Definition sort_stays_below (sort : loc -> gmap loc node -> gmap loc node) : Prop :=
  forall fuel root h ns l,
    preorder fuel h root = Some ns -> l ∉ ns -> sort root h !! l = h !! l.

Lemma preorder_agree fuel h h' l ns :
  preorder fuel h l = Some ns ->
  (forall x, x ∈ ns -> h' !! x = h !! x) ->
  preorder fuel h' l = Some ns.
Proof.
  revert l ns. induction fuel as [|fuel IH]; intros l ns H Hag; [discriminate|].
  pose proof (preorder_root _ _ _ _ H) as Hroot.
  apply preorder_inv in H as (n & Hl & [[Hnone ->]|(cs & below & Hcs & HF & ->)]).
  - simpl. rewrite (Hag l Hroot), Hl, Hnone. reflexivity.
  - simpl. rewrite (Hag l Hroot), Hl, Hcs.
    assert (mapM (preorder fuel h') cs = Some below) as ->; [|reflexivity].
    apply mapM_Some_2.
    assert (forall x, x ∈ concat below -> h' !! x = h !! x) as Hag'
      by (intros x Hx; apply Hag; by right).
    clear Hag Hroot Hcs. induction HF as [|c ns_c cs below Hc _ IHF].
    + constructor.
    + constructor.
      * apply IH; [exact Hc|]. intros x Hx. apply Hag'. simpl.
        apply elem_of_app. by left.
      * apply IHF. intros x Hx. apply Hag'. simpl. apply elem_of_app. by right.
Qed.

(** The pass of the constructor over one root. *)
Definition annotate (webtreemap_sort : loc -> gmap loc node -> gmap loc node)
    (fuel : nat) (rootNode : RootNode) : M unit :=
  dfs fuel (rn_node rootNode) (fun node => set_props node set_originalId) ;;;
  dfs fuel (rn_node rootNode)
      (fun node => set_props node (set_idHash (idHash_of (rn_id rootNode)))) ;;;
  sort webtreemap_sort (rn_node rootNode).

Definition annotated (webtreemap_sort : loc -> gmap loc node -> gmap loc node)
    (rootNode : RootNode) (ns : list loc) (h : gmap loc node) : gmap loc node :=
  webtreemap_sort (rn_node rootNode)
    (apply_all (update_props (set_idHash (idHash_of (rn_id rootNode)))) ns
       (apply_all (update_props set_originalId) ns h)).

Lemma annotate_result wsort fuel r w ns :
  preorder fuel (heap w) (rn_node r) = Some ns ->
  annotate wsort fuel r w = Ok tt (set_heap (annotated wsort r ns (heap w)) w).
Proof.
  intros Hpre. unfold annotate.
  assert (forall l, l ∈ ns -> is_Some (heap w !! l)) as Hdom
    by (intros l Hl; eapply preorder_is_Some; eassumption).
  erewrite bind_ok; cycle 1.
  { rewrite (dfs_preorder _ (set_props_keeps_shape set_originalId) _ _ _ _ Hpre).
    apply for_each_set_props, Hdom. }
  erewrite bind_ok; cycle 1.
  { rewrite (dfs_preorder _ (set_props_keeps_shape _) _ _ _ ns).
    - apply for_each_set_props. intros l Hl. simpl.
      destruct (Hdom l Hl) as [n Hn].
      destruct (same_shape_lookup _ _ _ _
        (apply_all_shape (update_props set_originalId) ns (heap w)
           (fun _ => eq_refl)) Hn) as (n' & -> & _). eauto.
    - simpl. rewrite <- Hpre. apply preorder_same_shape, apply_all_shape.
      reflexivity. }
  reflexivity.
Qed.

Lemma annotated_in wsort fuel r ns h l :
  sort_keeps_props wsort ->
  preorder fuel h (rn_node r) = Some ns -> l ∈ ns ->
  exists n', annotated wsort r ns h !! l = Some n'
             /\ p_idHash (n_props n') = Number (idHash_of (rn_id r)).
Proof.
  intros Hprops Hpre Hl. unfold annotated.
  destruct (preorder_is_Some _ _ _ _ _ Hpre Hl) as [n Hn].
  pose proof (Hprops (rn_node r)
    (apply_all (update_props (set_idHash (idHash_of (rn_id r)))) ns
       (apply_all (update_props set_originalId) ns h)) l) as Hp.
  rewrite !apply_all_lookup in Hp by reflexivity.
  rewrite !decide_True in Hp by assumption. rewrite Hn in Hp. simpl in Hp.
  destruct (wsort _ _ !! l) as [n'|]; simpl in Hp; [|discriminate].
  exists n'. split; [reflexivity|]. injection Hp as ->. reflexivity.
Qed.

Lemma annotated_out wsort fuel r ns h l :
  sort_stays_below wsort ->
  preorder fuel h (rn_node r) = Some ns -> l ∉ ns ->
  annotated wsort r ns h !! l = h !! l.
Proof.
  intros Hbelow Hpre Hl. unfold annotated.
  rewrite (Hbelow fuel _ _ ns l); [|
    rewrite <- Hpre; apply preorder_same_shape;
    eapply same_shape_trans; apply apply_all_shape; reflexivity | exact Hl].
  rewrite !apply_all_lookup by reflexivity.
  by rewrite !decide_False by assumption.
Qed.

Lemma Forall2_impl_in {A B} (P Q : A -> B -> Prop) xs ys :
  Forall2 P xs ys ->
  (forall x y, x ∈ xs -> y ∈ ys -> P x y -> Q x y) ->
  Forall2 Q xs ys.
Proof.
  induction 1 as [|x y xs ys HP _ IH]; intros H; constructor.
  - apply H; [by left | by left | exact HP].
  - apply IH. intros x' y' Hx Hy. apply H; by right.
Qed.

Lemma annotate_all wsort fuel :
  sort_keeps_props wsort -> sort_stays_below wsort ->
  forall roots nss w,
    Forall2 (fun r ns => preorder fuel (heap w) (rn_node r) = Some ns) roots nss ->
    NoDup (concat nss) ->
    exists h',
      for_each roots (annotate wsort fuel) w = Ok tt (set_heap h' w)
      /\ Forall2 (fun r ns => forall l, l ∈ ns ->
                    exists n', h' !! l = Some n'
                      /\ p_idHash (n_props n') = Number (idHash_of (rn_id r)))
                 roots nss
      /\ (forall l, l ∉ concat nss -> h' !! l = heap w !! l).
Proof.
  intros Hprops Hbelow roots.
  induction roots as [|r roots IH]; intros nss w HF Hnd.
  - inversion HF; subst. exists (heap w). simpl. rewrite set_heap_heap.
    split; [reflexivity|]. split; [constructor | reflexivity].
  - inversion HF as [|? ns ? nss' Hpre HF']; subst. simpl in Hnd.
    apply NoDup_app in Hnd as (_ & Hdisj & Hnd').
    destruct (IH nss' (set_heap (annotated wsort r ns (heap w)) w))
      as (h' & Hrun & Hst & Hout); [|exact Hnd'|].
    { eapply Forall2_impl_in; [exact HF'|]. intros r' ns' _ Hin Hpre'. simpl.
      eapply preorder_agree; [exact Hpre'|].
      intros x Hx. eapply annotated_out; [assumption|exact Hpre|].
      intros Hxn. eapply Hdisj; [exact Hxn|].
      apply elem_of_concat. eauto. }
    exists h'. simpl. rewrite (bind_ok _ _ _ _ _ (annotate_result _ _ _ _ _ Hpre)).
    rewrite Hrun, set_heap_set_heap. split; [reflexivity|]. split.
    + constructor; [|exact Hst]. intros l Hl.
      rewrite Hout by (by apply Hdisj). simpl.
      eapply annotated_in; eassumption.
    + intros l Hl. rewrite elem_of_app in Hl.
      rewrite Hout by tauto. simpl.
      eapply annotated_out; [assumption|exact Hpre|tauto].
Qed.

Lemma string_iterator_cons_plain c rest :
  is_high_surrogate c = false ->
  string_iterator (c :: rest) = [c] :: string_iterator rest.
Proof. intros H. destruct rest; simpl; rewrite ?H; reflexivity. Qed.

Lemma string_iterator_plain s :
  Forall (fun c => is_high_surrogate c = false) s ->
  string_iterator s = (fun c => [c]) <$> s.
Proof.
  induction 1 as [|c rest Hc _ IH]; [reflexivity|].
  rewrite (string_iterator_cons_plain _ _ Hc), IH. reflexivity.
Qed.

Lemma idHash_of_plain s :
  Forall (fun c => is_high_surrogate c = false) s ->
  idHash_of s = foldl (fun acc c => (acc + float_of_N c)%float) 0%float s.
Proof.
  intros H. unfold idHash_of. rewrite (string_iterator_plain _ H).
  generalize 0%float. clear H. induction s as [|c s IH]; intros acc; simpl; auto.
Qed.

Lemma sort_sorted_keeps_props : sort_keeps_props sort_sorted.
Proof. intros root h l. reflexivity. Qed.

Lemma sort_sorted_stays_below : sort_stays_below sort_sorted.
Proof. intros fuel root h ns l _ _. reflexivity. Qed.

Lemma Forall2_and {A B} (P Q : A -> B -> Prop) xs ys :
  Forall2 P xs ys -> Forall2 Q xs ys -> Forall2 (fun x y => P x y /\ Q x y) xs ys.
Proof.
  induction 1 as [|x y xs ys HP _ IH]; intros HQ; inversion HQ; subst;
    constructor; auto.
Qed.

(** C5. After construction every node of the tree of a root carries as
    [idHash] the sum, over the characters the string iterator yields for
    the id of the root, of [charCodeAt(0)]: the same number on every node
    under one root, a function of the id alone. For an id without
    surrogate pairs it is the sum of all its character codes. *)
Theorem constructor_stamps_the_root_hash wsort fuel documentUrl rootNodes el w nss :
  sort_keeps_props wsort -> sort_stays_below wsort ->
  Forall2 (fun r ns => preorder fuel (heap w) (rn_node r) = Some ns) rootNodes nss ->
  NoDup (concat nss) ->
  (exists v w',
     new_TreemapViewer wsort fuel documentUrl rootNodes el w = Ok v w'
     /\ forall r l, r ∈ rootNodes -> reachable (heap w) (rn_node r) l ->
          exists n', heap w' !! l = Some n'
            /\ p_idHash (n_props n') =
                 Number (foldl (fun acc char => (acc + charCodeAt0 char)%float)
                               0%float (string_iterator (rn_id r))))
  /\ (forall id, Forall (fun c => is_high_surrogate c = false) id ->
        foldl (fun acc char => (acc + charCodeAt0 char)%float) 0%float
              (string_iterator id)
        = foldl (fun acc c => (acc + float_of_N c)%float) 0%float id).
Proof.
  intros Hprops Hbelow HF Hnd. split; [|apply idHash_of_plain].
  destruct (annotate_all wsort fuel Hprops Hbelow _ _ _ HF Hnd)
    as (h' & Hrun & Hst & _).
  eexists. eexists. split.
  - unfold new_TreemapViewer.
    change (for_each rootNodes _) with (for_each rootNodes (annotate wsort fuel)).
    rewrite (bind_ok _ _ _ _ _ Hrun). reflexivity.
  - intros r l Hr Hreach. simpl.
    destruct (Forall2_elem_of_l _ _ _ _ (Forall2_and _ _ _ _ HF Hst) Hr)
      as (ns & _ & Hpre & Hstamped).
    apply Hstamped. eapply reachable_preorder; eassumption.
Qed.

Lemma constructor_stamps_the_root_hash_witness :
  exists v w',
    new_TreemapViewer sort_sorted 1 (js "https://x")
      [{| rn_id := js "a.js"; rn_group := js "javascript"; rn_node := 1%positive |};
       {| rn_id := js "b.js"; rn_group := js "javascript"; rn_node := 2%positive |}]
      MainElement three_bundles = Ok v w'
    /\ exists n', heap w' !! 2%positive = Some n'
                  /\ p_idHash (n_props n') = Number 365.
Proof.
  destruct (constructor_stamps_the_root_hash sort_sorted 1 (js "https://x")
              [{| rn_id := js "a.js"; rn_group := js "javascript"; rn_node := 1%positive |};
               {| rn_id := js "b.js"; rn_group := js "javascript"; rn_node := 2%positive |}]
              MainElement three_bundles [[1%positive]; [2%positive]]
              sort_sorted_keeps_props sort_sorted_stays_below)
    as ((v & w' & Hrun & Hnodes) & _).
  - repeat constructor.
  - simpl. repeat constructor; rewrite ?elem_of_cons, ?elem_of_nil; intuition discriminate.
  - exists v, w'. split; [exact Hrun|].
    apply (Hnodes {| rn_id := js "b.js"; rn_group := js "javascript";
                     rn_node := 2%positive |} 2%positive).
    + right. left.
    + eapply reachable_here. reflexivity.
Defined.

(** ** What a run leaves untouched *)

(** A property of the state an outcome ends in, be it a result or an
    exception. *)
Definition ends_in {A} (P : world -> Prop) (o : outcome A) : Prop :=
  match o with
  | Ok _ w' | Throw _ w' => P w'
  | OutOfFuel | Stuck => True
  end.

Lemma ends_in_bind {A B} (P Q : world -> Prop) (m : M A) (k : A -> M B) w :
  ends_in P (m w) ->
  (forall w1, P w1 -> Q w1) ->
  (forall a w1, m w = Ok a w1 -> P w1 -> ends_in Q (k a w1)) ->
  ends_in Q (bind m k w).
Proof.
  unfold bind. intros Hm Hpq Hk.
  destruct (m w) as [a w1|e w1| |]; simpl in *; auto.
Qed.

Lemma ends_in_impl {A} (P Q : world -> Prop) (o : outcome A) :
  ends_in P o -> (forall w, P w -> Q w) -> ends_in Q o.
Proof. destruct o; simpl; auto. Qed.

(** The children of the objects in [S] are in [S]. *)
Definition closed (S : gset loc) (h : gmap loc node) : Prop :=
  forall l n children child,
    l ∈ S -> h !! l = Some n -> n_children n = Some children ->
    child ∈ children -> child ∈ S.













(** *** The JSON round trip allocates *)

Lemma json_induction (P : json -> Prop) :
  (forall p, P (JObject p None)) ->
  (forall p ks, Forall P ks -> P (JObject p (Some ks))) ->
  forall j, P j.
Proof.
  intros Hleaf Hnode.
  refine (fix IH (j : json) : P j :=
    match j with
    | JObject p None => Hleaf p
    | JObject p (Some ks) =>
      Hnode p ks ((fix go (ks : list json) : Forall P ks :=
                     match ks with
                     | [] => Forall_nil_2 P
                     | k :: rest => Forall_cons_2 P k rest (IH k) (go rest)
                     end) ks)
    end).
Qed.

Lemma map_m_pure {A B} (f : A -> M B) xs w :
  (forall x w, ends_in (fun w' => w' = w) (f x w)) ->
  ends_in (fun w' => w' = w) (map_m f xs w).
Proof.
  intros Hf. induction xs as [|x xs IH]; simpl; [reflexivity|].
  eapply (ends_in_bind (fun w' => w' = w)); [apply Hf | auto |].
  intros y w1 _ ->.
  eapply (ends_in_bind (fun w' => w' = w)); [apply IH | auto |].
  intros ys w1 _ ->. reflexivity.
Qed.

(** [JSON.stringify] changes nothing. *)
Lemma stringify_pure fuel stack l w :
  ends_in (fun w' => w' = w) (stringify fuel stack l w).
Proof.
  revert stack l w. induction fuel as [|fuel IH]; intros stack l w; [exact I|].
  simpl. destruct (decide (l ∈ stack)); [reflexivity|].
  unfold bind at 1. unfold deref.
  destruct (heap w !! l) as [nd|]; [|exact I].
  destruct (n_children nd) as [cs|]; [|reflexivity].
  eapply (ends_in_bind (fun w' => w' = w)); [|auto|].
  - apply map_m_pure. intros; apply IH.
  - intros kids w1 _ ->. reflexivity.
Qed.

(** From [w] to [w'] nothing but new objects, whose children are new. *)
Definition allocates (w w' : world) : Prop :=
  set_heap (heap w) w' = w
  /\ (forall l, l ∈ dom (heap w) -> heap w' !! l = heap w !! l)
  /\ closed (dom (heap w') ∖ dom (heap w)) (heap w').

Lemma allocates_dom w w' : allocates w w' -> dom (heap w) ⊆ dom (heap w').
Proof.
  intros (_ & Hold & _) l Hl. apply elem_of_dom. rewrite (Hold l Hl).
  by apply elem_of_dom.
Qed.

Lemma allocates_refl w : allocates w w.
Proof.
  split; [apply set_heap_heap|]. split; [reflexivity|].
  intros l n cs c Hl. set_solver.
Qed.

Lemma allocates_trans w w1 w2 :
  allocates w w1 -> allocates w1 w2 -> allocates w w2.
Proof.
  intros H1 H2. pose proof (allocates_dom _ _ H1) as Hd1.
  pose proof (allocates_dom _ _ H2) as Hd2.
  destruct H1 as (Hw1 & Ho1 & Hc1), H2 as (Hw2 & Ho2 & Hc2).
  split; [|split].
  - rewrite <- Hw1 at 2. rewrite <- Hw2. reflexivity.
  - intros l Hl. rewrite Ho2 by set_solver. by apply Ho1.
  - intros l n cs c Hl Hn Hcs Hin.
    destruct (decide (l ∈ dom (heap w1))) as [Hl1|Hl1].
    + rewrite (Ho2 l Hl1) in Hn.
      assert (c ∈ dom (heap w1) ∖ dom (heap w)) by (eapply Hc1; eauto; set_solver).
      set_solver.
    + assert (c ∈ dom (heap w2) ∖ dom (heap w1)) by (eapply Hc2; eauto; set_solver).
      set_solver.
Qed.

Lemma parse_children_allocate ks :
  Forall (fun j => forall w, exists c w',
            parse j w = Ok c w' /\ allocates w w'
            /\ c ∈ dom (heap w') /\ c ∉ dom (heap w)) ks ->
  forall w, exists cs w',
    map_m parse ks w = Ok cs w' /\ allocates w w'
    /\ forall c, c ∈ cs -> c ∈ dom (heap w') ∖ dom (heap w).
Proof.
  induction 1 as [|j ks Hj _ IH]; intros w.
  - exists [], w. split; [reflexivity|]. split; [apply allocates_refl|].
    intros c Hc. inversion Hc.
  - destruct (Hj w) as (c & w1 & Hrun1 & Ha1 & Hc1 & Hc0).
    destruct (IH w1) as (cs & w2 & Hrun2 & Ha2 & Hcs).
    exists (c :: cs), w2. split; [|split].
    + simpl. rewrite (bind_ok _ _ _ _ _ Hrun1), (bind_ok _ _ _ _ _ Hrun2).
      reflexivity.
    + eapply allocates_trans; eassumption.
    + pose proof (allocates_dom _ _ Ha1). pose proof (allocates_dom _ _ Ha2).
      intros c' [->|Hc']%elem_of_cons; [set_solver|].
      specialize (Hcs c' Hc'). set_solver.
Qed.

Lemma alloc_object n w S :
  (forall cs c, n_children n = Some cs -> c ∈ cs -> c ∈ S) ->
  closed S (heap w) -> S ⊆ dom (heap w) ->
  exists l, alloc n w = Ok l (set_heap (<[l := n]> (heap w)) w)
            /\ (l ∉ dom (heap w))
            /\ closed ({[l]} ∪ S) (<[l := n]> (heap w)).
Proof.
  intros Hn Hc Hsub. destruct (alloc_fresh n w) as (l & Hrun & Hfresh).
  exists l. split; [exact Hrun|]. split; [exact Hfresh|].
  intros x nx cs c Hx Hnx Hcs Hin.
  destruct (decide (x = l)) as [->|Hne].
  - rewrite lookup_insert_eq in Hnx. injection Hnx as <-.
    apply elem_of_union_r. eapply Hn; eassumption.
  - rewrite lookup_insert_ne in Hnx by congruence.
    apply elem_of_union_r. eapply Hc; eauto. set_solver.
Qed.

Lemma closed_equiv S S' h :
  (forall x, x ∈ S <-> x ∈ S') -> closed S h -> closed S' h.
Proof.
  intros Heq Hc l n cs c Hl Hn Hcs Hin. apply Heq.
  eapply Hc; eauto. by apply Heq.
Qed.

Lemma parse_allocates j :
  forall w, exists c w',
    parse j w = Ok c w' /\ allocates w w'
    /\ c ∈ dom (heap w') /\ c ∉ dom (heap w).
Proof.
  induction j as [p|p ks IH] using json_induction; intros w.
  - destruct (alloc_object {| n_props := p; n_children := None |} w ∅)
      as (l & Hrun & Hfresh & Hclosed); [discriminate| |set_solver|].
    { intros x n cs c Hx. set_solver. }
    exists l. eexists. split; [exact Hrun|]. simpl. split; [|set_solver].
    split; [exact (set_heap_heap w)|]. split.
    + intros x Hx. simpl. apply lookup_insert_ne. set_solver.
    + simpl. rewrite dom_insert_L.
      eapply closed_equiv; [|exact Hclosed]. set_solver.
  - destruct (parse_children_allocate ks IH w) as (cs & w1 & Hrun1 & Ha1 & Hcs).
    pose proof (allocates_dom _ _ Ha1) as Hd1.
    destruct Ha1 as (Hw1 & Ho1 & Hc1).
    destruct (alloc_object {| n_props := p; n_children := Some cs |} w1
                (dom (heap w1) ∖ dom (heap w)))
      as (l & Hrun & Hfresh & Hclosed); [| exact Hc1 | set_solver |].
    { intros cs' c [= <-] Hc. by apply Hcs. }
    exists l. eexists. split; [|split; [|split]].
    + simpl. rewrite (bind_ok _ _ _ _ _ Hrun1). exact Hrun.
    + split; [|split].
      * rewrite <- Hw1 at 2. reflexivity.
      * intros x Hx. simpl. rewrite lookup_insert_ne by set_solver. by apply Ho1.
      * simpl. rewrite dom_insert_L.
        eapply closed_equiv; [|exact Hclosed]. set_solver.
    + simpl. rewrite dom_insert_L. set_solver.
    + set_solver.
Qed.

(** *** The clone reads as the text it was made from *)

(** a JSON text as [stringify] writes it *)
Inductive written : json -> Prop :=
  | written_leaf p : json_props p = p -> written (JObject p None)
  | written_node p ks :
      json_props p = p -> Forall written ks -> written (JObject p (Some ks)).

(** no deeper than [fuel] *)
Inductive within : nat -> json -> Prop :=
  | within_leaf fuel p : within (S fuel) (JObject p None)
  | within_node fuel p ks :
      Forall (within fuel) ks -> within (S fuel) (JObject p (Some ks)).

Lemma json_value_idemp v : json_value (json_value v) = json_value v.
Proof.
  destruct v as [| |x]; try reflexivity. simpl.
  destruct (is_finite x) eqn:Hf; [|reflexivity].
  destruct (x =? 0)%float eqn:Hz; simpl.
  - reflexivity.
  - by rewrite Hf, Hz.
Qed.

Lemma json_props_idemp p : json_props (json_props p) = json_props p.
Proof.
  unfold json_props. simpl. rewrite !json_value_idemp.
  f_equal. by destruct (p_dom p).
Qed.

Lemma map_m_inv {A B} (f : A -> M B) xs w ys w' :
  map_m f xs w = Ok ys w' ->
  (forall x w, ends_in (fun w' => w' = w) (f x w)) ->
  w' = w /\ Forall2 (fun x y => f x w = Ok y w) xs ys.
Proof.
  intros H Hf. revert ys H. induction xs as [|x xs IH]; intros ys H; simpl in H.
  - injection H as <- <-. split; [reflexivity | constructor].
  - apply bind_inv_ok in H as (y & w1 & H1 & H2).
    pose proof (Hf x w) as Hp. rewrite H1 in Hp. simpl in Hp. subst w1.
    apply bind_inv_ok in H2 as (ys' & w2 & H2 & H3).
    injection H3 as <- <-. destruct (IH _ H2) as [-> HF].
    split; [reflexivity|]. by constructor.
Qed.

Lemma stringify_written fuel stack l w j w' :
  stringify fuel stack l w = Ok j w' -> written j /\ within fuel j.
Proof.
  revert stack l j w'. induction fuel as [|fuel IH]; intros stack l j w' H;
    [discriminate|].
  simpl in H. destruct (decide (l ∈ stack)); [discriminate|].
  apply bind_inv_ok in H as (nd & w1 & H1 & H2).
  unfold deref in H1. destruct (heap w !! l) as [nd'|]; [|discriminate].
  injection H1 as <- <-.
  destruct (n_children nd') as [cs|].
  - apply bind_inv_ok in H2 as (kids & w2 & H2 & H3). injection H3 as <- <-.
    apply map_m_inv in H2 as [-> HF]; [|intros; apply stringify_pure].
    assert (Forall (fun k => written k /\ within fuel k) kids) as Hk.
    { clear -HF IH. induction HF as [|c k cs ks Hc _ IHF]; constructor; eauto. }
    split.
    + constructor; [apply json_props_idemp|].
      eapply Forall_impl; [exact Hk|]. by intros k [? ?].
    + constructor. eapply Forall_impl; [exact Hk|]. by intros k [? ?].
  - injection H2 as <- <-. split; constructor. apply json_props_idemp.
Qed.

Lemma parse_allocates_inv j w c w' :
  parse j w = Ok c w' ->
  allocates w w' /\ c ∈ dom (heap w') /\ c ∉ dom (heap w).
Proof.
  intros H. destruct (parse_allocates j w) as (c' & w2 & H' & Ha & Hin & Hout).
  rewrite H in H'. injection H' as <- <-. auto.
Qed.

Lemma parse_children_allocate_inv ks w cs w' :
  map_m parse ks w = Ok cs w' ->
  allocates w w' /\ forall c, c ∈ cs -> c ∈ dom (heap w') ∖ dom (heap w).
Proof.
  intros H.
  destruct (parse_children_allocate ks
              (proj2 (Forall_forall _ _) (fun j _ => parse_allocates j)) w)
    as (cs' & w2 & H' & Ha & Hin).
  rewrite H in H'. injection H' as <- <-. auto.
Qed.




(** *** [show] works on a clone *)


(** ... and gives no object a child it did not have (it may set [dom],
    reorder children, or drop some). *)
Definition render_adds_no_edge
    (render : list float -> loc -> gmap loc node -> gmap loc node) : Prop :=
  forall padding root h l n' children' child,
    render padding root h !! l = Some n' ->
    n_children n' = Some children' -> child ∈ children' ->
    exists n children,
      h !! l = Some n /\ n_children n = Some children /\ child ∈ children.




Lemma set_heap_fields h w w' :
  set_heap h w' = w -> treemapViewer w' = treemapViewer w.
Proof. intros <-. reflexivity. Qed.









Lemma set_currentRootNode_ok l w v :
  treemapViewer w = Some v ->
  set_currentRootNode l w
  = Ok tt (set_viewer {| documentUrl := documentUrl v; rootNodes := rootNodes v;
                         el := el v; currentRootNode := l;
                         treemap := treemap v |} w).
Proof. intros H. unfold set_currentRootNode, bind, this. by rewrite H. Qed.

Lemma set_treemap_ok l w v :
  treemapViewer w = Some v ->
  set_treemap l w
  = Ok tt (set_viewer {| documentUrl := documentUrl v; rootNodes := rootNodes v;
                         el := el v; currentRootNode := currentRootNode v;
                         treemap := l |} w).
Proof. intros H. unfold set_treemap, bind, this. by rewrite H. Qed.







Lemma lay_out_all_adds_no_edge : render_adds_no_edge lay_out_all.
Proof.
  intros padding root h l n' cs' c Hl Hcs Hin.
  assert (same_shape h (lay_out_all padding root h)) as Hs.
  { unfold lay_out_all. destruct (preorder _ h root); [|apply same_shape_refl].
    apply apply_all_shape. reflexivity. }
  destruct (same_shape_lookup _ _ _ _ (same_shape_sym _ _ Hs) Hl) as (n & Hn & Heq).
  exists n, cs'. split; [exact Hn|]. split; [congruence | exact Hin].
Qed.



(** * Further properties of the script *)

(** ** [dfs] on a structure with a cycle *)

(** [l] is among its own proper descendants. *)
Definition on_cycle (h : gmap loc node) (l : loc) : Prop :=
  exists n children child,
    h !! l = Some n /\ n_children n = Some children /\ child ∈ children
    /\ reachable h child l.

(** The structure below [l] contains a cycle. *)
Definition reaches_cycle (h : gmap loc node) (l : loc) : Prop :=
  exists c, reachable h l c /\ on_cycle h c.

Lemma reachable_same_shape h h' l x :
  same_shape h h' -> reachable h l x -> reachable h' l x.
Proof.
  intros Hs. induction 1 as [l n Hl|l n cs child x Hl Hcs Hin _ IH].
  - destruct (same_shape_lookup _ _ _ _ Hs Hl) as (n' & Hn' & _).
    eapply reachable_here; eassumption.
  - destruct (same_shape_lookup _ _ _ _ Hs Hl) as (n' & Hn' & Heq).
    eapply reachable_below; [exact Hn' | by rewrite Heq | exact Hin | exact IH].
Qed.

Lemma reaches_cycle_same_shape h h' l :
  same_shape h h' -> reaches_cycle h l -> reaches_cycle h' l.
Proof.
  intros Hs (c & Hc & n & cs & child & Hn & Hcs & Hin & Hback).
  exists c. split; [by eapply reachable_same_shape|].
  destruct (same_shape_lookup _ _ _ _ Hs Hn) as (n' & Hn' & Heq).
  exists n', cs, child. split; [exact Hn'|]. split; [by rewrite Heq|].
  split; [exact Hin | by eapply reachable_same_shape].
Qed.

Lemma reaches_cycle_step h l :
  reaches_cycle h l ->
  exists n children child,
    h !! l = Some n /\ n_children n = Some children /\ child ∈ children
    /\ reaches_cycle h child.
Proof.
  intros (c & Hc & Hcyc). destruct Hc as [l n Hl|l n cs child x Hl Hcs Hin Hx].
  - pose proof Hcyc as (n' & cs & child & Hn' & Hcs & Hin & Hback).
    exists n', cs, child. repeat (split; [assumption|]).
    exists l. split; assumption.
  - exists n, cs, child. repeat (split; [assumption|]).
    exists x. split; assumption.
Qed.

Lemma dfs_keeps_shape fn :
  keeps_shape fn ->
  forall fuel l w w', dfs fuel l fn w = Ok tt w' -> same_shape (heap w) (heap w').
Proof.
  intros Hfn. induction fuel as [|fuel IH]; intros l w w' H; [discriminate|].
  simpl in H. apply bind_inv_ok in H as ([] & w1 & H1 & H).
  apply bind_inv_ok in H as (n & w2 & H2 & H).
  unfold deref in H2. destruct (heap w1 !! l); [|discriminate].
  injection H2 as <- <-.
  eapply same_shape_trans; [exact (Hfn _ _ _ H1)|].
  destruct (n_children _) as [cs|]; [|injection H as <-; apply same_shape_refl].
  eapply (for_each_keeps_shape (fun child => dfs fuel child fn)); [|exact H].
  intros c u u'. apply IH.
Qed.

Lemma dfs_children_never_return fn fuel :
  keeps_shape fn ->
  (forall l w w', reaches_cycle (heap w) l -> dfs fuel l fn w <> Ok tt w') ->
  forall children w w' child,
    child ∈ children -> reaches_cycle (heap w) child ->
    for_each children (fun c => dfs fuel c fn) w <> Ok tt w'.
Proof.
  intros Hfn IH. induction children as [|x rest IHc]; intros w w' child Hin Hc H.
  - by apply elem_of_nil in Hin.
  - simpl in H. apply bind_inv_ok in H as ([] & w1 & H1 & H).
    apply elem_of_cons in Hin as [->|Hin].
    + exact (IH _ _ _ Hc H1).
    + apply (IHc w1 w' child Hin); [|exact H].
      eapply reaches_cycle_same_shape; [|exact Hc].
      eapply dfs_keeps_shape; eassumption.
Qed.

(** On a structure with a cycle below the root, [dfs] does not return,
    whatever the recursion depth allowed: the recursion does not end (in
    JavaScript, until the call stack overflows), unless the callback has
    thrown before. *)
Theorem dfs_never_returns_on_a_cycle fn w root :
  keeps_shape fn -> reaches_cycle (heap w) root ->
  forall fuel w', dfs fuel root fn w <> Ok tt w'.
Proof.
  intros Hfn Hc fuel. revert root w Hc.
  induction fuel as [|fuel IH]; intros l w Hc w' H; [discriminate|].
  simpl in H. apply bind_inv_ok in H as ([] & w1 & H1 & H).
  apply bind_inv_ok in H as (n & w2 & H2 & H).
  unfold deref in H2. destruct (heap w1 !! l) as [n1|] eqn:Hl; [|discriminate].
  injection H2 as <- <-.
  pose proof (reaches_cycle_same_shape _ _ _ (Hfn _ _ _ H1) Hc) as Hc1.
  destruct (reaches_cycle_step _ _ Hc1) as (n' & cs & child & Hn' & Hcs & Hin & Hchild).
  rewrite Hl in Hn'. injection Hn' as <-. rewrite Hcs in H.
  eapply (dfs_children_never_return fn fuel Hfn); [|exact Hin|exact Hchild|exact H].
  intros l' u u' Hu. apply IH. exact Hu.
Qed.

(** Two nodes, each the child of the other. *)
Definition loop_store : gmap loc node :=
  <[1%positive := data_node "main.js" 300 90 (Some [2%positive])]>
  (<[2%positive := data_node "a.js" 100 40 (Some [1%positive])]> ∅).

Lemma dfs_never_returns_on_a_cycle_witness :
  match dfs 9 1%positive title_fn (page loop_store) with
  | Ok _ _ => False
  | _ => True
  end.
Proof.
  destruct (dfs 9 1%positive title_fn (page loop_store)) as [[] w'|ex w'| |] eqn:E;
    try exact I.
  apply (dfs_never_returns_on_a_cycle title_fn (page loop_store) 1%positive
           title_fn_keeps_shape) in E; [exact E|].
  exists 1%positive. split.
  - eapply reachable_here. reflexivity.
  - eexists _, _, 2%positive. split; [reflexivity|]. split; [reflexivity|].
    split; [apply elem_of_cons; by left|].
    eapply reachable_below; [reflexivity | reflexivity | apply elem_of_cons; by left|].
    eapply reachable_here. reflexivity.
Defined.

(** ** What [setTitle] writes *)

(** [setTitle] writes [id] and nothing else. *)
Theorem setTitle_changes_only_id fuel w root ns :
  preorder fuel (heap w) root = Some ns ->
  exists w',
    setTitle fuel root w = Ok tt w'
    /\ set_heap (heap w) w' = w
    /\ (forall l, ~ reachable (heap w) root l -> heap w' !! l = heap w !! l)
    /\ (forall l n, heap w !! l = Some n ->
          exists n',
            heap w' !! l = Some n'
            /\ n_children n' = n_children n
            /\ p_originalId (n_props n') = p_originalId (n_props n)
            /\ p_size (n_props n') = p_size (n_props n)
            /\ p_wastedBytes (n_props n') = p_wastedBytes (n_props n)
            /\ p_total (n_props n') = p_total (n_props n)
            /\ p_idHash (n_props n') = p_idHash (n_props n)
            /\ p_dom (n_props n') = p_dom (n_props n)).
Proof.
  intros Hpre. eexists. split; [exact (setTitle_result _ _ _ _ Hpre)|].
  split; [simpl; by rewrite set_heap_set_heap, set_heap_heap|].
  simpl. split.
  - intros l Hl. rewrite apply_all_lookup by apply title_props_idemp.
    rewrite decide_False; [reflexivity|].
    intros Hin. apply Hl. eapply preorder_reachable; eassumption.
  - intros l n Hn. rewrite apply_all_lookup by apply title_props_idemp.
    rewrite Hn. destruct (decide (l ∈ ns)); simpl; eexists; (split; [reflexivity|]);
      repeat split.
Qed.

Lemma setTitle_changes_only_id_witness :
  exists w',
    setTitle 2 1%positive (page bundle_store) = Ok tt w'
    /\ set_heap bundle_store w' = page bundle_store.
Proof.
  destruct (setTitle_changes_only_id 2 (page bundle_store) 1%positive
              [1; 2; 3]%positive eq_refl) as (w' & Hrun & Hw & _).
  exists w'. split; assumption.
Defined.

Lemma pos_div_zero w : (0 <? w)%float = true -> (w / 0)%float = infinity.
Proof.
  intros Hpos. apply Prim2SF_inj. rewrite FloatAxioms.div_spec.
  rewrite FloatAxioms.ltb_spec in Hpos.
  destruct (Prim2SF w) as [s|s| |s m e]; try destruct s; try discriminate;
    reflexivity.
Qed.

(** The label of a node of size 0: the percentage is [NaN] when nothing is
    wasted, [Infinity] otherwise. *)
Theorem setTitle_zero_size_label fuel w root ns :
  preorder fuel (heap w) root = Some ns ->
  exists w',
    setTitle fuel root w = Ok tt w'
    /\ forall l n,
         reachable (heap w) root l -> heap w !! l = Some n ->
         to_number (p_size (n_props n)) = 0%float ->
         exists n',
           heap w' !! l = Some n'
           /\ (to_number (p_wastedBytes (n_props n)) = 0%float ->
               p_id (n_props n')
               = Some (template (p_originalId (n_props n)) ++ js " • 0 • NaN"))
           /\ ((0 <? to_number (p_wastedBytes (n_props n)))%float = true ->
               p_id (n_props n')
               = Some (template (p_originalId (n_props n)) ++ js " • 0 • Infinity")).
Proof.
  intros Hpre. eexists. split; [exact (setTitle_result _ _ _ _ Hpre)|].
  intros l n Hl Hn Hsize. simpl.
  rewrite apply_all_lookup by apply title_props_idemp.
  rewrite decide_True by (eapply reachable_preorder; eassumption).
  rewrite Hn. exists (update_props title_props n). split; [reflexivity|].
  cbn [update_props n_props title_props set_id p_id].
  unfold label_wastedBytes. rewrite Hsize. split.
  - intros ->. do 2 f_equal.
  - intros Hw. rewrite (pos_div_zero _ Hw). do 2 f_equal.
Qed.

(** A module of no bytes. *)
Definition empty_module : node :=
  {| n_props := {| p_id := Some (js "a.js"); p_originalId := Some (js "a.js");
                   p_size := Number 0; p_wastedBytes := Number 0;
                   p_total := Undefined; p_idHash := Undefined; p_dom := None |};
     n_children := None |}.

Definition empty_module_store : gmap loc node := <[1%positive := empty_module]> ∅.

Lemma setTitle_zero_size_label_witness :
  exists w' n',
    setTitle 1 1%positive (page empty_module_store) = Ok tt w'
    /\ heap w' !! 1%positive = Some n'
    /\ p_id (n_props n') = Some (js "a.js • 0 • NaN").
Proof.
  destruct (setTitle_zero_size_label 1 (page empty_module_store)
              1%positive [1%positive] eq_refl) as (w' & Hrun & H).
  destruct (H 1%positive empty_module) as (n' & Hn' & Hnan & _);
    [eapply reachable_here; reflexivity | reflexivity | reflexivity |].
  exists w', n'. split; [exact Hrun|]. split; [exact Hn'|]. exact (Hnan eq_refl).
Defined.

(** ** [hsl] of integers *)

(** The number a string of decimal digits denotes. *)
Definition read_digits (s : jsstring) : Z :=
  foldl (fun acc c => 10 * acc + (Z.of_N c - 48)) 0 s.

Definition is_digit (c : code_unit) : bool := ((48 <=? c) && (c <=? 57))%N.

(** The integer [n] is converted to its decimal digits, which read back
    as [n]. *)
Definition prints_as_digits (n : Z) : bool :=
  bool_decide (number_to_string (float_of_Z n) = digits_of n)
  && forallb is_digit (digits_of n)
  && (read_digits (digits_of n) =? n).

Lemma small_integers_print_as_digits :
  forallb prints_as_digits (Z.of_nat <$> seq 0 1001) = true.
Proof. vm_compute. reflexivity. Qed.

Lemma prints_as_digits_small n : 0 <= n <= 1000 -> prints_as_digits n = true.
Proof.
  intros Hn. pose proof small_integers_print_as_digits as H.
  rewrite forallb_forall in H. apply H. apply list_elem_of_In.
  apply list_elem_of_fmap. exists (Z.to_nat n). split; [lia|].
  apply elem_of_seq. lia.
Qed.

(** [hsl] of three integers up to 1000: each is written with its decimal
    digits, without sign, fraction or exponent. *)
Theorem hsl_of_integers h s l :
  0 <= h <= 1000 -> 0 <= s <= 1000 -> 0 <= l <= 1000 ->
  hsl (float_of_Z h) (float_of_Z s) (float_of_Z l)
  = js "hsl(" ++ digits_of h ++ js ", " ++ digits_of s ++ js "%, "
      ++ digits_of l ++ js "%)"
  /\ Forall (fun n => Forall (fun c => (48 <= c <= 57)%N) (digits_of n)
                      /\ read_digits (digits_of n) = n) [h; s; l].
Proof.
  intros Hh Hs Hl.
  pose proof (prints_as_digits_small h Hh) as Ph.
  pose proof (prints_as_digits_small s Hs) as Ps.
  pose proof (prints_as_digits_small l Hl) as Pl.
  unfold prints_as_digits in *.
  apply andb_prop in Ph as [Ph Rh]. apply andb_prop in Ph as [Ph Dh].
  apply andb_prop in Ps as [Ps Rs]. apply andb_prop in Ps as [Ps Ds].
  apply andb_prop in Pl as [Pl Rl]. apply andb_prop in Pl as [Pl Dl].
  apply bool_decide_eq_true in Ph, Ps, Pl.
  split; [unfold hsl; by rewrite Ph, Ps, Pl|].
  assert (forall n, forallb is_digit (digits_of n) = true ->
                    Forall (fun c => (48 <= c <= 57)%N) (digits_of n)) as Hd.
  { intros n Hn. rewrite forallb_forall in Hn. apply Forall_forall.
    intros c Hc. apply list_elem_of_In, Hn in Hc. unfold is_digit in Hc.
    apply andb_prop in Hc as [H1 H2]. split; [by apply N.leb_le | by apply N.leb_le]. }
  repeat constructor; auto; by apply Z.eqb_eq.
Qed.

Lemma hsl_of_integers_witness :
  hsl 30 60 61 = js "hsl(30, 60%, 61%)".
Proof.
  refine (eq_trans (proj1 (hsl_of_integers 30 60 61 _ _ _)) _); [lia..|].
  vm_compute. reflexivity.
Defined.

(** ** The hash of a root id, exactly *)

(** What [char.charCodeAt(0)] reads for one element of [[...id]] ... *)
Definition first_code (char : jsstring) : Z :=
  match char with
  | c :: _ => Z.of_N c
  | [] => 0
  end.

(** ... and for all of them. *)
Definition char_codes (id : jsstring) : list Z :=
  first_code <$> string_iterator id.

Lemma string_iterator_nonempty s : Forall (fun char => char <> []) (string_iterator s).
Proof.
  assert (forall n s, (length s <= n)%nat ->
            Forall (fun char : jsstring => char <> []) (string_iterator s)) as H.
  { clear s. induction n as [|n IH]; intros s Hs.
    - destruct s; [constructor | simpl in Hs; lia].
    - destruct s as [|c [|d rest]]; simpl; [constructor | by repeat constructor |].
      simpl in Hs. destruct (is_high_surrogate c && is_low_surrogate d).
      + constructor; [discriminate | apply IH; lia].
      + constructor; [discriminate | apply (IH (d :: rest)); simpl; lia]. }
  apply (H (length s)). lia.
Qed.

Lemma sum_nonneg zs : Forall (fun z => 0 <= z) zs -> 0 <= foldr Z.add 0 zs.
Proof. induction 1; simpl; lia. Qed.

Lemma first_code_nonneg char : 0 <= first_code char.
Proof. destruct char; [apply Z.le_refl | apply N2Z.is_nonneg]. Qed.

Lemma sum_char_codes chars :
  Forall (fun char : jsstring => char <> []) chars ->
  forall acc,
    0 <= acc -> acc + foldr Z.add 0 (first_code <$> chars) < 2 ^ 53 ->
    foldl (fun acc char => (acc + charCodeAt0 char)%float) (float_of_Z acc) chars
    = float_of_Z (acc + foldr Z.add 0 (first_code <$> chars)).
Proof.
  induction 1 as [|char chars Hc Hcs IH]; intros acc Ha Hs.
  - simpl. by rewrite Z.add_0_r.
  - destruct char as [|c rest]; [done|].
    assert (0 <= foldr Z.add 0 (first_code <$> chars)).
    { apply sum_nonneg, Forall_fmap, Forall_forall. intros ? _. apply first_code_nonneg. }
    rewrite fmap_cons in *. cbn [foldr foldl first_code charCodeAt0] in *.
    pose proof (N2Z.is_nonneg c).
    unfold float_of_N. rewrite float_of_Z_add by lia.
    rewrite IH by lia. f_equal. lia.
Qed.

Lemma char_codes_plain id :
  Forall (fun c => is_high_surrogate c = false) id -> char_codes id = Z.of_N <$> id.
Proof.
  intros H. unfold char_codes. rewrite (string_iterator_plain _ H).
  rewrite <- list_fmap_compose. reflexivity.
Qed.

Lemma sum_permutation (xs ys : list Z) :
  xs ≡ₚ ys -> foldr Z.add 0 xs = foldr Z.add 0 ys.
Proof. induction 1; simpl; lia. Qed.

(** [idHash] is the exact integer sum of the character codes, so it does
    not depend on the order of the characters. *)
Theorem idHash_is_the_exact_sum id :
  foldr Z.add 0 (char_codes id) < 2 ^ 53 ->
  idHash_of id = float_of_Z (foldr Z.add 0 (char_codes id))
  /\ (Forall (fun c => is_high_surrogate c = false) id ->
      char_codes id = Z.of_N <$> id)
  /\ (forall id',
        Forall (fun c => is_high_surrogate c = false) id ->
        Forall (fun c => is_high_surrogate c = false) id' ->
        id ≡ₚ id' -> idHash_of id' = idHash_of id).
Proof.
  intros Hsum.
  assert (forall s, foldr Z.add 0 (char_codes s) < 2 ^ 53 ->
            idHash_of s = float_of_Z (foldr Z.add 0 (char_codes s))) as Hexact.
  { intros s Hs. unfold idHash_of.
    apply (sum_char_codes _ (string_iterator_nonempty s) 0); [lia | exact Hs]. }
  split; [by apply Hexact|]. split; [apply char_codes_plain|].
  intros id' Hp Hp' Hperm.
  assert (foldr Z.add 0 (char_codes id') = foldr Z.add 0 (char_codes id)) as Heq.
  { rewrite (char_codes_plain _ Hp), (char_codes_plain _ Hp').
    apply sum_permutation. by rewrite Hperm. }
  rewrite (Hexact id') by (by rewrite Heq). rewrite Heq. symmetry. by apply Hexact.
Qed.

Lemma idHash_is_the_exact_sum_witness :
  idHash_of (js "a.js") = 364%float.
Proof.
  refine (eq_trans (proj1 (idHash_is_the_exact_sum (js "a.js") _)) _).
  - vm_compute. reflexivity.
  - vm_compute. reflexivity.
Defined.

(** ** The palette entry of a hash *)

Lemma Zpos_pos_shl c j : Zpos (pos_shl c j) = Zpos c * 2 ^ Z.of_nat j.
Proof.
  induction j as [|j IH]; [simpl; lia|].
  change (pos_shl c (S j)) with (xO (pos_shl c j)).
  rewrite Pos2Z.inj_xO, IH, Nat2Z.inj_succ, Z.pow_succ_r by lia. lia.
Qed.

Lemma digits2_pos_upper c : Zpos c < 2 ^ Zpos (digits2_pos c).
Proof.
  induction c as [c IH|c IH|]; cbn [digits2_pos]; [| |reflexivity];
    rewrite Pos2Z.inj_succ, Z.pow_succ_r by lia; lia.
Qed.

Lemma js_rem_4_pos c :
  Zpos c < 2 ^ 53 -> js_rem (float_of_Z (Zpos c)) 4 = float_of_Z (Zpos c mod 4).
Proof.
  intros Hc. destruct (Z.lt_ge_cases (Zpos c) 8) as [Hsmall|Hbig].
  - assert (c = 1 \/ c = 2 \/ c = 3 \/ c = 4 \/ c = 5 \/ c = 6 \/ c = 7)%positive
      as Hcases by lia.
    repeat (destruct Hcases as [->|Hcases]; [vm_compute; reflexivity|]).
    subst. vm_compute. reflexivity.
  - pose proof (digits2_pos_upper c) as Hup.
    pose proof (digits2_pos_le_53 c Hc) as Hle.
    assert (4 <= Zpos (digits2_pos c)) as Hd.
    { destruct (Z.lt_ge_cases (Zpos (digits2_pos c)) 4) as [Hlt|]; [|assumption].
      assert (2 ^ Zpos (digits2_pos c) <= 2 ^ 3) by (apply Z.pow_le_mono_r; lia).
      lia. }
    unfold js_rem. rewrite (Prim2SF_float_of_pos c Hc).
    change (Prim2SF 4) with (S754_finite false 4503599627370496 (-50)).
    unfold canon. cbv iota beta zeta.
    rewrite Z.min_r by lia.
    replace (Zpos (digits2_pos c) - 53 - -50) with (Zpos (digits2_pos c) - 3) by lia.
    change (-50 - -50) with 0. rewrite Z.shiftl_0_r.
    rewrite Zpos_pos_shl, Z2Nat.id by lia.
    rewrite Z.shiftl_mul_pow2 by lia.
    rewrite <- Z.mul_assoc, <- Z.pow_add_r by lia.
    replace (53 - Zpos (digits2_pos c) + (Zpos (digits2_pos c) - 3)) with 50 by lia.
    rewrite Z.rem_mod_nonneg by lia.
    change (Zpos 4503599627370496) with (4 * 2 ^ 50).
    rewrite Z.mul_mod_distr_r by lia.
    pose proof (Z.mod_pos_bound (Zpos c) 4 ltac:(lia)) as Hm.
    assert (Zpos c mod 4 = 0 \/ Zpos c mod 4 = 1 \/ Zpos c mod 4 = 2 \/ Zpos c mod 4 = 3)
      as Hcases by lia.
    repeat (destruct Hcases as [->|Hcases]; [vm_compute; reflexivity|]).
    rewrite Hcases. vm_compute. reflexivity.
Qed.

Lemma js_rem_4 n :
  0 <= n < 2 ^ 53 -> js_rem (float_of_Z n) 4 = float_of_Z (n mod 4).
Proof.
  intros [Hn Hlt]. destruct n as [|c|c]; [reflexivity | by apply js_rem_4_pos | lia].
Qed.

(** The colour of a node whose [idHash] is the integer [n]: the palette
    entry number [n mod 4]. *)
Theorem palette_entry_is_hash_mod_4 p n :
  0 <= n < 2 ^ 53 -> p_idHash p = Number (float_of_Z n) ->
  pick_color p = colors !! Z.to_nat (n mod 4)
  /\ is_Some (pick_color p).
Proof.
  intros Hn Hp. unfold pick_color. rewrite Hp. cbn [to_number].
  change (float_of_Z (Z.of_nat (length colors))) with 4%float.
  rewrite (js_rem_4 n Hn).
  pose proof (Z.mod_pos_bound n 4 ltac:(lia)) as Hm.
  assert (n mod 4 = 0 \/ n mod 4 = 1 \/ n mod 4 = 2 \/ n mod 4 = 3) as Hcases by lia.
  repeat (destruct Hcases as [->|Hcases]; [split; [reflexivity | eexists; reflexivity]|]).
  rewrite Hcases. split; [reflexivity | eexists; reflexivity].
Qed.

Lemma palette_entry_is_hash_mod_4_witness :
  pick_color (n_props (rendered_node "b.js" 200 50 (Number 365) None))
  = Some (94, 60)%float.
Proof.
  refine (eq_trans (proj1 (palette_entry_is_hash_mod_4 _ 365 _ _)) _).
  - lia.
  - reflexivity.
  - reflexivity.
Defined.

(** ** What the constructor writes *)

(** The own properties of a node after the constructor's pass over its
    root. *)
Definition stamped (rootNode : RootNode) (p : props) : props :=
  set_idHash (idHash_of (rn_id rootNode)) (set_originalId p).

Lemma annotated_props wsort fuel r ns h l :
  sort_keeps_props wsort ->
  preorder fuel h (rn_node r) = Some ns -> l ∈ ns ->
  n_props <$> annotated wsort r ns h !! l = stamped r ∘ n_props <$> h !! l.
Proof.
  intros Hprops Hpre Hl. unfold annotated. rewrite Hprops.
  rewrite !apply_all_lookup by reflexivity.
  rewrite !decide_True by assumption.
  by destruct (h !! l).
Qed.

Lemma annotate_all_props wsort fuel :
  sort_keeps_props wsort -> sort_stays_below wsort ->
  forall roots nss w,
    Forall2 (fun r ns => preorder fuel (heap w) (rn_node r) = Some ns) roots nss ->
    NoDup (concat nss) ->
    exists h',
      for_each roots (annotate wsort fuel) w = Ok tt (set_heap h' w)
      /\ Forall2 (fun r ns => forall l, l ∈ ns ->
                    n_props <$> h' !! l = stamped r ∘ n_props <$> heap w !! l)
                 roots nss
      /\ (forall l, l ∉ concat nss -> h' !! l = heap w !! l).
Proof.
  intros Hprops Hbelow roots.
  induction roots as [|r roots IH]; intros nss w HF Hnd.
  - inversion HF; subst. exists (heap w). simpl. rewrite set_heap_heap.
    split; [reflexivity|]. split; [constructor | reflexivity].
  - inversion HF as [|? ns ? nss' Hpre HF']; subst. simpl in Hnd.
    apply NoDup_app in Hnd as (_ & Hdisj & Hnd').
    assert (forall ns' x, ns' ∈ nss' -> x ∈ ns' ->
              annotated wsort r ns (heap w) !! x = heap w !! x) as Hlater.
    { intros ns' x Hin Hx. eapply annotated_out; [assumption|exact Hpre|].
      intros Hxn. eapply Hdisj; [exact Hxn|]. apply elem_of_concat. eauto. }
    destruct (IH nss' (set_heap (annotated wsort r ns (heap w)) w))
      as (h' & Hrun & Hst & Hout); [|exact Hnd'|].
    { eapply Forall2_impl_in; [exact HF'|]. intros r' ns' _ Hin Hpre'. simpl.
      eapply preorder_agree; [exact Hpre'|]. intros x Hx. by eapply Hlater. }
    exists h'. simpl. rewrite (bind_ok _ _ _ _ _ (annotate_result _ _ _ _ _ Hpre)).
    rewrite Hrun, set_heap_set_heap. split; [reflexivity|]. split.
    + constructor.
      * intros l Hl. rewrite Hout by (by apply Hdisj). simpl.
        eapply annotated_props; eassumption.
      * eapply Forall2_impl_in; [exact Hst|]. intros r' ns' _ Hin H l Hl.
        rewrite (H l Hl). simpl. by rewrite (Hlater ns' l Hin Hl).
    + intros l Hl. rewrite elem_of_app in Hl.
      rewrite Hout by tauto. simpl.
      eapply annotated_out; [assumption|exact Hpre|tauto].
Qed.

(** The constructor copies [id] to [originalId] on every node of every
    root and leaves the other data of the nodes alone; it touches no
    object outside the roots' trees and nothing else on the page, and the
    viewer it builds shows nothing yet. *)
Theorem constructor_keeps_the_data wsort fuel documentUrl rootNodes el w nss :
  sort_keeps_props wsort -> sort_stays_below wsort ->
  Forall2 (fun r ns => preorder fuel (heap w) (rn_node r) = Some ns) rootNodes nss ->
  NoDup (concat nss) ->
  exists w',
    new_TreemapViewer wsort fuel documentUrl rootNodes el w
    = Ok {| documentUrl := documentUrl; rootNodes := rootNodes; el := el;
            currentRootNode := None; treemap := None |} w'
    /\ set_heap (heap w) w' = w
    /\ (forall r l n,
          r ∈ rootNodes -> reachable (heap w) (rn_node r) l ->
          heap w !! l = Some n ->
          exists n',
            heap w' !! l = Some n'
            /\ p_originalId (n_props n') = p_id (n_props n)
            /\ p_id (n_props n') = p_id (n_props n)
            /\ p_size (n_props n') = p_size (n_props n)
            /\ p_wastedBytes (n_props n') = p_wastedBytes (n_props n)
            /\ p_total (n_props n') = p_total (n_props n)
            /\ p_dom (n_props n') = p_dom (n_props n))
    /\ (forall l,
          (forall r, r ∈ rootNodes -> ~ reachable (heap w) (rn_node r) l) ->
          heap w' !! l = heap w !! l).
Proof.
  intros Hprops Hbelow HF Hnd.
  destruct (annotate_all_props wsort fuel Hprops Hbelow _ _ _ HF Hnd)
    as (h' & Hrun & Hst & Hout).
  exists (set_heap h' w). split; [|split; [|split]].
  - unfold new_TreemapViewer.
    change (for_each rootNodes _) with (for_each rootNodes (annotate wsort fuel)).
    rewrite (bind_ok _ _ _ _ _ Hrun). reflexivity.
  - by rewrite set_heap_set_heap, set_heap_heap.
  - intros r l n Hr Hreach Hn. simpl.
    destruct (Forall2_elem_of_l _ _ _ _ (Forall2_and _ _ _ _ HF Hst) Hr)
      as (ns & _ & Hpre & Hstamped).
    specialize (Hstamped l (reachable_preorder _ _ _ Hreach _ _ Hpre)).
    rewrite Hn in Hstamped. simpl in Hstamped.
    destruct (h' !! l) as [n'|]; [|discriminate].
    exists n'. split; [reflexivity|]. injection Hstamped as ->. repeat split.
  - intros l Hl. simpl. apply Hout. intros Hin.
    apply elem_of_concat in Hin as (ns & Hns & Hlns).
    destruct (Forall2_elem_of_r _ _ _ _ HF Hns) as (r & Hr & Hpre).
    apply (Hl r Hr). eapply preorder_reachable; eassumption.
Qed.

Lemma constructor_keeps_the_data_witness :
  exists w' n',
    new_TreemapViewer sort_sorted 1 (js "https://x")
      [{| rn_id := js "a.js"; rn_group := js "javascript"; rn_node := 1%positive |};
       {| rn_id := js "b.js"; rn_group := js "javascript"; rn_node := 2%positive |}]
      MainElement three_bundles
    = Ok {| documentUrl := js "https://x";
            rootNodes :=
              [{| rn_id := js "a.js"; rn_group := js "javascript"; rn_node := 1%positive |};
               {| rn_id := js "b.js"; rn_group := js "javascript"; rn_node := 2%positive |}];
            el := MainElement; currentRootNode := None; treemap := None |} w'
    /\ heap w' !! 2%positive = Some n'
    /\ p_originalId (n_props n') = Some (js "b.js").
Proof.
  destruct (constructor_keeps_the_data sort_sorted 1 (js "https://x")
              [{| rn_id := js "a.js"; rn_group := js "javascript"; rn_node := 1%positive |};
               {| rn_id := js "b.js"; rn_group := js "javascript"; rn_node := 2%positive |}]
              MainElement three_bundles [[1%positive]; [2%positive]]
              sort_sorted_keeps_props sort_sorted_stays_below)
    as (w' & Hrun & _ & Hnodes & _).
  - repeat constructor.
  - simpl. repeat constructor; rewrite ?elem_of_cons, ?elem_of_nil; intuition discriminate.
  - destruct (Hnodes {| rn_id := js "b.js"; rn_group := js "javascript";
                        rn_node := 2%positive |} 2%positive
                     (data_node "b.js" 200 50 None))
      as (n' & Hn' & Horig & _).
    + right. left.
    + eapply reachable_here. reflexivity.
    + reflexivity.
    + exists w', n'. split; [exact Hrun|]. split; [exact Hn' | exact Horig].
Defined.

(** ** [show]: no such root *)

Lemma find_no_match {A} (f : A -> bool) xs :
  (forall x, x ∈ xs -> f x = false) -> List.find f xs = None.
Proof.
  induction xs as [|x xs IH]; intros H; [reflexivity|]. simpl.
  rewrite (H x) by (by left). apply IH. intros y Hy. apply H. by right.
Qed.

Lemma select_root_no_such_root id w v :
  treemapViewer w = Some v ->
  id <> js "javascript" ->
  (forall r, r ∈ rootNodes v -> rn_id r <> id) ->
  select_root id w = Throw TypeError w.
Proof.
  intros Hv Hid Hnone. unfold select_root, bind, this. rewrite Hv.
  rewrite decide_False by exact Hid.
  rewrite find_no_match; [reflexivity|].
  intros r Hr. apply bool_decide_eq_false. by apply Hnone.
Qed.

(** Selecting an id that no root carries throws a TypeError and changes
    nothing: not the nodes, not what is on display. *)
Theorem show_unknown_id_throws layout fuel id w v :
  treemapViewer w = Some v ->
  id <> js "javascript" ->
  (forall r, r ∈ rootNodes v -> rn_id r <> id) ->
  show layout fuel id w = Throw TypeError w.
Proof.
  intros Hv Hid Hnone. unfold show.
  apply bind_throw. by eapply select_root_no_such_root.
Qed.

Lemma show_unknown_id_throws_witness :
  show lay_out_all 2 (js "d.js") three_bundles = Throw TypeError three_bundles.
Proof.
  eapply (show_unknown_id_throws lay_out_all 2 (js "d.js") three_bundles);
    [reflexivity | discriminate |].
  intros r Hr. simpl in Hr. rewrite !elem_of_cons, elem_of_nil in Hr.
  destruct Hr as [->|[->|[->|[]]]]; discriminate.
Defined.

(** ** [show]: the labels on display *)

(** The data of a node, that is all its own properties but [dom]. *)
Definition same_data (p p' : props) : Prop :=
  p_id p' = p_id p /\ p_originalId p' = p_originalId p
  /\ p_size p' = p_size p /\ p_wastedBytes p' = p_wastedBytes p
  /\ p_total p' = p_total p /\ p_idHash p' = p_idHash p.

(** Every object of [h'] was in [h] with the same data. *)
Definition data_kept (h h' : gmap loc node) : Prop :=
  forall l n', h' !! l = Some n' ->
    exists n, h !! l = Some n /\ same_data (n_props n) (n_props n').

(** The layout writes [dom] and no other own property, and creates no
    object. *)
Definition render_keeps_data
    (layout : list float -> loc -> gmap loc node -> gmap loc node) : Prop :=
  forall padding root h, data_kept h (layout padding root h).

Lemma same_data_refl p : same_data p p.
Proof. repeat split. Qed.

Lemma same_data_trans p1 p2 p3 :
  same_data p1 p2 -> same_data p2 p3 -> same_data p1 p3.
Proof. unfold same_data. intuition congruence. Qed.

Lemma data_kept_refl h : data_kept h h.
Proof. intros l n Hn. exists n. split; [exact Hn | apply same_data_refl]. Qed.

Lemma data_kept_trans h1 h2 h3 :
  data_kept h1 h2 -> data_kept h2 h3 -> data_kept h1 h3.
Proof.
  intros H12 H23 l n3 Hn3. destruct (H23 l n3 Hn3) as (n2 & Hn2 & Hd23).
  destruct (H12 l n2 Hn2) as (n1 & Hn1 & Hd12).
  exists n1. split; [exact Hn1 | by eapply same_data_trans].
Qed.

Lemma label_same_data p p' : same_data p p' -> label_wastedBytes p' = label_wastedBytes p.
Proof.
  intros (_ & Ho & Hs & Hw & _). unfold label_wastedBytes. by rewrite Ho, Hs, Hw.
Qed.

(** A relation between the states before and after that every call of a
    callback establishes holds across a whole traversal. *)
Lemma for_each_rel {A} (R : world -> world -> Prop) (body : A -> M unit) xs :
  (forall w, R w w) -> (forall w1 w2 w3, R w1 w2 -> R w2 w3 -> R w1 w3) ->
  (forall x w w', body x w = Ok tt w' -> R w w') ->
  forall w w', for_each xs body w = Ok tt w' -> R w w'.
Proof.
  intros Hrefl Htrans Hbody. induction xs as [|x xs IH]; intros w w' H; simpl in H.
  - injection H as <-. apply Hrefl.
  - apply bind_inv_ok in H as ([] & w1 & H1 & H).
    eapply Htrans; [exact (Hbody _ _ _ H1) | exact (IH _ _ H)].
Qed.

Lemma dfs_rel (R : world -> world -> Prop) fn :
  (forall w, R w w) -> (forall w1 w2 w3, R w1 w2 -> R w2 w3 -> R w1 w3) ->
  (forall l w w', fn l w = Ok tt w' -> R w w') ->
  forall fuel l w w', dfs fuel l fn w = Ok tt w' -> R w w'.
Proof.
  intros Hrefl Htrans Hfn. induction fuel as [|fuel IH]; intros l w w' H;
    [discriminate|].
  simpl in H. apply bind_inv_ok in H as ([] & w1 & H1 & H).
  apply bind_inv_ok in H as (n & w2 & H2 & H).
  unfold deref in H2. destruct (heap w1 !! l); [|discriminate].
  injection H2 as <- <-.
  eapply Htrans; [exact (Hfn _ _ _ H1)|].
  destruct (n_children _) as [cs|]; [|injection H as <-; apply Hrefl].
  eapply (for_each_rel R (fun child => dfs fuel child fn)); eassumption.
Qed.

(** Only objects differ between [w] and [w'], and they keep their data. *)
Definition restyled (w w' : world) : Prop :=
  data_kept (heap w) (heap w') /\ set_heap (heap w) w' = w.

Lemma restyled_refl w : restyled w w.
Proof. split; [apply data_kept_refl | apply set_heap_heap]. Qed.

Lemma restyled_trans w1 w2 w3 : restyled w1 w2 -> restyled w2 w3 -> restyled w1 w3.
Proof.
  intros [Hd12 Hw12] [Hd23 Hw23]. split; [by eapply data_kept_trans|].
  rewrite <- Hw12 at 2. rewrite <- Hw23. by rewrite !set_heap_set_heap.
Qed.

Lemma color_fn_restyled l w w' : color_fn l w = Ok tt w' -> restyled w w'.
Proof.
  unfold color_fn, bind, deref. destruct (heap w !! l) as [n|] eqn:Hn; [|discriminate].
  destruct (p_dom (n_props n)) as [d|]; [|intros [= <-]; apply restyled_refl].
  destruct (pick_color (n_props n)) as [[h s]|]; [|discriminate].
  destruct d as [st|]; [|discriminate].
  unfold set_props. rewrite Hn. intros [= <-].
  split; [|simpl; by rewrite set_heap_set_heap, set_heap_heap]. simpl.
  intros x n' Hx. destruct (decide (x = l)) as [->|Hne].
  - rewrite lookup_insert_eq in Hx. injection Hx as <-.
    exists n. split; [exact Hn | repeat split].
  - rewrite lookup_insert_ne in Hx by done. exists n'.
    split; [exact Hx | apply same_data_refl].
Qed.

Lemma reachable_before_layout layout padding root h l x :
  render_adds_no_edge layout -> render_keeps_data layout ->
  reachable (layout padding root h) l x -> reachable h l x.
Proof.
  intros Hedge Hdata. induction 1 as [l n Hl|l n cs child x Hl Hcs Hin _ IH].
  - destruct (Hdata _ _ _ _ _ Hl) as (n0 & Hn0 & _). by eapply reachable_here.
  - destruct (Hedge _ _ _ _ _ _ _ Hl Hcs Hin) as (n0 & cs0 & Hn0 & Hcs0 & Hin0).
    eapply reachable_below; eassumption.
Qed.

Lemma mapM_cons_eq {A B} (f : A -> option B) x xs y ys :
  f x = Some y -> mapM f xs = Some ys -> mapM f (x :: xs) = Some (y :: ys).
Proof. intros Hx Hxs. simpl. rewrite Hx. simpl. rewrite Hxs. reflexivity. Qed.

Lemma dfs_ok_preorder fn :
  keeps_shape fn ->
  forall fuel l w w',
    dfs fuel l fn w = Ok tt w' -> exists ns, preorder fuel (heap w) l = Some ns.
Proof.
  intros Hfn. induction fuel as [|fuel IH]; intros l w w' H; [discriminate|].
  simpl in H. apply bind_inv_ok in H as ([] & w1 & H1 & H).
  apply bind_inv_ok in H as (n1 & w2 & H2 & H).
  unfold deref in H2. destruct (heap w1 !! l) as [n1'|] eqn:Hl; [|discriminate].
  injection H2 as <- <-.
  pose proof (Hfn _ _ _ H1) as Hs.
  destruct (same_shape_lookup _ _ _ _ (same_shape_sym _ _ Hs) Hl) as (n & Hn & Heq).
  simpl. rewrite Hn, Heq.
  destruct (n_children n1') as [cs|]; [|eauto].
  assert (exists below, mapM (preorder fuel (heap w)) cs = Some below) as [below ->];
    [|eauto].
  clear Hl Hn Heq H1. revert w1 Hs H.
  induction cs as [|c cs IHc]; intros w1 Hs H; [by exists []|].
  simpl in H. apply bind_inv_ok in H as ([] & w2 & Hc & H).
  destruct (IH _ _ _ Hc) as [ns Hns].
  rewrite (preorder_same_shape _ _ _ _ Hs) in Hns.
  destruct (IHc w2) as [below Hbelow]; [|exact H|].
  { eapply same_shape_trans; [exact Hs|]. eapply dfs_keeps_shape; eassumption. }
  exists (ns :: below). by apply mapM_cons_eq.
Qed.

Lemma this_inv w v w' : this w = Ok v w' -> treemapViewer w = Some v /\ w' = w.
Proof. unfold this. destruct (treemapViewer w); [|discriminate]. by intros [= <- <-]. Qed.

Lemma set_content_inv r content w w' :
  set_content r content w = Ok tt w' ->
  heap w' = heap w /\ treemapViewer w' = treemapViewer w.
Proof. destruct r; intros [= <-]; split; reflexivity. Qed.

(** The steps of a call of [show] that has returned. *)
Lemma show_inv layout fuel id w w' :
  render_adds_no_edge layout -> render_keeps_data layout ->
  show layout fuel id w = Ok tt w' ->
  exists w1 v1 node text c w2 ns,
    select_root id w = Ok tt w1
    /\ treemapViewer w1 = Some v1 /\ currentRootNode v1 = Some node
    /\ stringify fuel [] node w1 = Ok text w1
    /\ parse text w1 = Ok c w2
    /\ preorder fuel (heap w2) c = Some ns
    /\ treemapViewer w'
       = Some {| documentUrl := documentUrl v1; rootNodes := rootNodes v1;
                 el := el v1; currentRootNode := Some c; treemap := Some c |}
    /\ (forall x, reachable (heap w') c x -> reachable (heap w2) c x)
    /\ (forall x n', heap w' !! x = Some n' ->
          exists n,
            apply_all (update_props title_props) ns (heap w2) !! x = Some n
            /\ same_data (n_props n) (n_props n'))
    /\ is_Some (heap w' !! c).
Proof.
  intros Hedge Hdata H. unfold show in H.
  apply bind_inv_ok in H as ([] & w1 & Hsel & H).
  apply bind_inv_ok in H as (v1 & w1' & Hthis & H).
  apply this_inv in Hthis as [Hv1 ->].
  destruct (currentRootNode v1) as [node|] eqn:Hnode; [|discriminate].
  apply bind_inv_ok in H as (text & w1' & Htext & H).
  pose proof (stringify_pure fuel [] node w1) as Hpure.
  rewrite Htext in Hpure. simpl in Hpure. subst w1'.
  apply bind_inv_ok in H as (c & w2 & Hparse & H).
  destruct (parse_allocates_inv _ _ _ _ Hparse) as ((Hw2 & _ & _) & _ & _).
  assert (treemapViewer w2 = Some v1) as Hv2
    by (rewrite (set_heap_fields _ _ _ Hw2); exact Hv1).
  apply bind_inv_ok in H as ([] & w3 & H3 & H).
  rewrite (set_currentRootNode_ok _ _ _ Hv2) in H3. injection H3 as <-.
  apply bind_inv_ok in H as ([] & w4 & H4 & H).
  destruct (dfs_ok_preorder _ title_fn_keeps_shape _ _ _ _ H4) as [ns Hns].
  rewrite (setTitle_result _ _ _ _ Hns) in H4. injection H4 as <-.
  apply bind_inv_ok in H as ([] & w5 & H5 & H).
  apply set_content_inv in H5 as [Hh5 Hv5]. simpl in Hh5, Hv5.
  apply bind_inv_ok in H as ([] & w6 & H6 & H).
  rewrite (set_treemap_ok _ _ _ Hv5) in H6. injection H6 as <-. simpl in H.
  unfold render in H.
  apply bind_inv_ok in H as (v6 & w6' & Hthis & H).
  apply this_inv in Hthis as [Hv6 ->]. simpl in Hv6. injection Hv6 as <-.
  simpl in H.
  apply bind_inv_ok in H as ([] & w7 & H7 & H). injection H7 as <-.
  apply bind_inv_ok in H as ([] & w8 & H8 & H).
  apply set_content_inv in H8 as [Hh8 Hv8]. simpl in Hh8, Hv8.
  unfold updateColors in H.
  apply bind_inv_ok in H as (v8 & w8' & Hthis & H).
  apply this_inv in Hthis as [Hv8' ->]. rewrite Hv8 in Hv8'. injection Hv8' as <-.
  simpl in H.
  pose proof (dfs_keeps_shape _ color_fn_keeps_shape _ _ _ _ H) as Hshape.
  destruct (dfs_rel restyled color_fn restyled_refl restyled_trans
              color_fn_restyled _ _ _ _ H) as [Hkept Hw'].
  simpl in Hns.
  exists w1, v1, node, text, c, w2, ns.
  repeat (split; [assumption|]).
  split; [rewrite (set_heap_fields _ _ _ Hw'); exact Hv8|]. split; [|split].
  - intros x Hx.
    apply (reachable_same_shape _ _ _ _ (same_shape_sym _ _ Hshape)) in Hx.
    rewrite Hh8 in Hx. apply (reachable_before_layout _ _ _ _ _ _ Hedge Hdata) in Hx.
    rewrite Hh5 in Hx. revert Hx. apply reachable_same_shape.
    apply same_shape_sym, apply_all_shape. reflexivity.
  - intros x n' Hn'. destruct (Hkept _ _ Hn') as (n8 & Hn8 & Hd8).
    rewrite Hh8 in Hn8. destruct (Hdata _ _ _ _ _ Hn8) as (n5 & Hn5 & Hd5).
    rewrite Hh5 in Hn5. exists n5. split; [exact Hn5 | by eapply same_data_trans].
  - destruct (dfs_ok_preorder _ color_fn_keeps_shape _ _ _ _ H) as [ns8 Hns8].
    destruct (preorder_is_Some _ _ _ _ _ Hns8 (preorder_root _ _ _ _ Hns8)) as [n8 Hn8].
    destruct (same_shape_lookup _ _ _ _ Hshape Hn8) as (n' & Hn' & _). eauto.
Qed.

(** After [show] has returned, every node on display carries the label of
    its own data, and the treemap is the one of [currentRootNode]. *)
Theorem show_labels_the_displayed_tree layout fuel id w w' :
  render_adds_no_edge layout -> render_keeps_data layout ->
  show layout fuel id w = Ok tt w' ->
  exists v' c,
    treemapViewer w' = Some v'
    /\ currentRootNode v' = Some c /\ treemap v' = Some c
    /\ forall x n',
         reachable (heap w') c x -> heap w' !! x = Some n' ->
         p_id (n_props n') = Some (label_wastedBytes (n_props n')).
Proof.
  intros Hedge Hdata H.
  destruct (show_inv _ _ _ _ _ Hedge Hdata H)
    as (w1 & v1 & node & text & c & w2 & ns & _ & _ & _ & _ & _ & Hns & Hv'
        & Hreach & Hkept & _).
  eexists _, c. split; [exact Hv'|]. split; [reflexivity|]. split; [reflexivity|].
  intros x n' Hx Hn'. apply Hreach in Hx.
  destruct (Hkept _ _ Hn') as (n4 & Hn4 & Hd).
  rewrite apply_all_lookup in Hn4 by apply title_props_idemp.
  rewrite decide_True in Hn4 by (eapply reachable_preorder; eassumption).
  destruct (heap w2 !! x) as [n2|]; [|discriminate]. injection Hn4 as <-.
  rewrite (label_same_data _ _ Hd). destruct Hd as (-> & _).
  reflexivity.
Qed.

Lemma lay_out_all_keeps_data : render_keeps_data lay_out_all.
Proof.
  intros padding root h l n' Hl. unfold lay_out_all in Hl.
  destruct (preorder _ h root) as [ns|];
    [|exists n'; split; [exact Hl | apply same_data_refl]].
  rewrite apply_all_lookup in Hl by reflexivity.
  destruct (decide (l ∈ ns)).
  - destruct (h !! l) as [n|]; [|discriminate]. injection Hl as <-.
    exists n. split; [reflexivity | repeat split].
  - exists n'. split; [exact Hl | apply same_data_refl].
Qed.

Lemma show_labels_the_displayed_tree_witness :
  exists w' v' c,
    show lay_out_all 2 (js "javascript") three_bundles = Ok tt w'
    /\ treemapViewer w' = Some v' /\ currentRootNode v' = Some c
    /\ forall x n',
         reachable (heap w') c x -> heap w' !! x = Some n' ->
         p_id (n_props n') = Some (label_wastedBytes (n_props n')).
Proof.
  destruct (show lay_out_all 2 (js "javascript") three_bundles)
    as [[] w'|e w'| |] eqn:E.
  - destruct (show_labels_the_displayed_tree lay_out_all 2 (js "javascript")
                three_bundles w' lay_out_all_adds_no_edge lay_out_all_keeps_data E)
      as (v' & c & Hv' & Hc & _ & Hlabels).
    exists w', v', c. repeat (split; [assumption || reflexivity|]). exact Hlabels.
  - vm_compute in E. discriminate E.
  - vm_compute in E. discriminate E.
  - vm_compute in E. discriminate E.
Defined.

(** ** [show]: the root on display *)

Lemma find_first {A} (f : A -> bool) xs r :
  List.find f xs = Some r ->
  exists before after,
    xs = before ++ r :: after /\ f r = true /\ forall x, x ∈ before -> f x = false.
Proof.
  induction xs as [|x xs IH]; [discriminate|]. simpl.
  destruct (f x) eqn:Hx.
  - intros [= ->]. exists [], xs. split; [reflexivity|]. split; [exact Hx|].
    intros y Hy. by apply elem_of_nil in Hy.
  - intros H. destruct (IH H) as (before & after & -> & Hr & Hb).
    exists (x :: before), after. split; [reflexivity|]. split; [exact Hr|].
    intros y Hy. apply elem_of_cons in Hy as [->|Hy]; [exact Hx | by apply Hb].
Qed.

Lemma select_root_inv id w w1 :
  id <> js "javascript" -> select_root id w = Ok tt w1 ->
  exists v r,
    treemapViewer w = Some v
    /\ List.find (fun rootNode => bool_decide (rn_id rootNode = id)) (rootNodes v) = Some r
    /\ heap w1 = heap w
    /\ treemapViewer w1
       = Some {| documentUrl := documentUrl v; rootNodes := rootNodes v; el := el v;
                 currentRootNode := Some (rn_node r); treemap := treemap v |}.
Proof.
  intros Hid H. unfold select_root in H.
  apply bind_inv_ok in H as (v & w0 & Hthis & H).
  apply this_inv in Hthis as [Hv ->].
  rewrite decide_False in H by exact Hid.
  destruct (List.find _ (rootNodes v)) as [r|] eqn:Hfind; [|discriminate].
  rewrite (set_currentRootNode_ok _ _ _ Hv) in H. injection H as <-.
  exists v, r. repeat split; assumption.
Qed.

Lemma stringify_root fuel stack l w p kids w' :
  stringify fuel stack l w = Ok (JObject p kids) w' ->
  exists n, heap w !! l = Some n /\ p = json_props (n_props n).
Proof.
  destruct fuel as [|fuel]; [discriminate|]. intros H. simpl in H.
  destruct (decide (l ∈ stack)) as [_|_]; [discriminate|].
  apply bind_inv_ok in H as (n & w1 & Hn & H).
  unfold deref in Hn. destruct (heap w !! l) as [n0|]; [|discriminate].
  injection Hn as <- <-. exists n0. split; [reflexivity|].
  destruct (n_children n0).
  - apply bind_inv_ok in H as (ks & w2 & _ & H). by injection H.
  - by injection H.
Qed.

Lemma parse_root p kids w c w' :
  parse (JObject p kids) w = Ok c w' ->
  exists n, heap w' !! c = Some n /\ n_props n = p.
Proof.
  simpl. destruct kids as [ks|]; intros H.
  - apply bind_inv_ok in H as (cs & w1 & _ & H). injection H as <- <-.
    eexists. split; [apply lookup_insert_eq | reflexivity].
  - injection H as <- <-. eexists. split; [apply lookup_insert_eq | reflexivity].
Qed.

(** [show(id)] for the id of a bundle puts on display a new object that
    carries the data of the first root with this id, as JSON keeps them. *)
Theorem show_displays_the_selected_root layout fuel id w w' :
  render_adds_no_edge layout -> render_keeps_data layout ->
  id <> js "javascript" ->
  show layout fuel id w = Ok tt w' ->
  exists v before r after n v' c n',
    treemapViewer w = Some v
    /\ rootNodes v = before ++ r :: after
    /\ rn_id r = id /\ (forall r', r' ∈ before -> rn_id r' <> id)
    /\ heap w !! rn_node r = Some n
    /\ treemapViewer w' = Some v' /\ currentRootNode v' = Some c
    /\ (c ∉ dom (heap w))
    /\ heap w' !! c = Some n'
    /\ p_originalId (n_props n') = p_originalId (n_props n)
    /\ p_size (n_props n') = json_value (p_size (n_props n))
    /\ p_wastedBytes (n_props n') = json_value (p_wastedBytes (n_props n))
    /\ p_idHash (n_props n') = json_value (p_idHash (n_props n)).
Proof.
  intros Hedge Hdata Hid H.
  destruct (show_inv _ _ _ _ _ Hedge Hdata H)
    as (w1 & v1 & node & text & c & w2 & ns & Hsel & Hv1 & Hnode & Htext & Hparse
        & Hns & Hv' & _ & Hkept & [n' Hn']).
  destruct (select_root_inv _ _ _ Hid Hsel) as (v & r & Hv & Hfind & Hh1 & Hv1').
  rewrite Hv1 in Hv1'. injection Hv1' as ->. simpl in Hnode. injection Hnode as <-.
  destruct (find_first _ _ _ Hfind) as (before & after & Hroots & Hr & Hbefore).
  apply bool_decide_eq_true in Hr.
  destruct text as [p kids].
  destruct (stringify_root _ _ _ _ _ _ _ Htext) as (n & Hn & ->).
  destruct (parse_root _ _ _ _ _ Hparse) as (n2 & Hn2 & Hp2).
  destruct (parse_allocates_inv _ _ _ _ Hparse) as (_ & _ & Hfresh).
  destruct (Hkept _ _ Hn') as (n4 & Hn4 & Hd).
  rewrite apply_all_lookup in Hn4 by apply title_props_idemp.
  rewrite decide_True in Hn4 by (eapply preorder_root; eassumption).
  rewrite Hn2 in Hn4. injection Hn4 as <-.
  destruct Hd as (_ & Ho & Hs & Hw & _ & Hh). simpl in Ho, Hs, Hw, Hh.
  rewrite Hp2 in Ho, Hs, Hw, Hh. rewrite Hh1 in Hn, Hfresh.
  eexists v, before, r, after, n, _, c, n'.
  split; [exact Hv|]. split; [exact Hroots|]. split; [exact Hr|].
  split; [intros r' Hr'; apply (bool_decide_eq_false_1 (rn_id r' = id)); by apply Hbefore|].
  split; [exact Hn|]. split; [exact Hv'|]. split; [reflexivity|].
  split; [exact Hfresh|]. split; [exact Hn'|]. auto.
Qed.

Lemma show_displays_the_selected_root_witness :
  exists w' v' c n',
    show lay_out_all 2 (js "b.js") three_bundles = Ok tt w'
    /\ treemapViewer w' = Some v' /\ currentRootNode v' = Some c
    /\ heap w' !! c = Some n'
    /\ p_size (n_props n') = Number 200.
Proof.
  destruct (show lay_out_all 2 (js "b.js") three_bundles) as [[] w'|e w'| |] eqn:E.
  - destruct (show_displays_the_selected_root lay_out_all 2 (js "b.js")
                three_bundles w' lay_out_all_adds_no_edge lay_out_all_keeps_data
                ltac:(discriminate) E)
      as (v & before & r & after & n & v' & c & n' & Hv & Hroots & Hr & Hbefore & Hn
          & Hv' & Hc & _ & Hn' & _ & Hsize & _).
    exists w', v', c, n'. split; [reflexivity|]. repeat (split; [assumption|]).
    rewrite Hsize. clear Hsize.
    injection Hv as <-. simpl in Hroots.
    destruct before as [|r0 before].
    { injection Hroots as <- _. discriminate Hr. }
    injection Hroots as <- Hroots.
    destruct before as [|r1 before].
    { injection Hroots as <- _. vm_compute in Hn. injection Hn as <-. reflexivity. }
    injection Hroots as <- Hroots.
    exfalso. apply (Hbefore _ ltac:(right; left)). reflexivity.
  - vm_compute in E. discriminate E.
  - vm_compute in E. discriminate E.
  - vm_compute in E. discriminate E.
Defined.

(** ** The clone is a tree *)

Lemma allocates_agree w w' x :
  allocates w w' -> x ∈ dom (heap w) -> heap w' !! x = heap w !! x.
Proof. intros (_ & Hold & _). apply Hold. Qed.

(** The objects of the trees [nss] were made between [w] and [w']. *)
Definition made_between (w w' : world) (ns : list loc) : Prop :=
  forall x, x ∈ ns -> x ∈ dom (heap w') ∖ dom (heap w).

Lemma parse_children_trees fuel ks :
  Forall (fun j => forall w c w',
            within fuel j -> parse j w = Ok c w' ->
            exists ns, preorder fuel (heap w') c = Some ns /\ NoDup ns
                       /\ made_between w w' ns) ks ->
  Forall (within fuel) ks ->
  forall w cs w',
    map_m parse ks w = Ok cs w' ->
    exists nss,
      Forall2 (fun c ns => preorder fuel (heap w') c = Some ns) cs nss
      /\ NoDup (concat nss) /\ made_between w w' (concat nss).
Proof.
  induction 1 as [|k ks Hk _ IH]; intros Hfuel w cs w' Hrun.
  - injection Hrun as <- <-. exists []. split; [constructor|].
    split; [constructor|]. intros x Hx. by apply elem_of_nil in Hx.
  - inversion Hfuel as [|? ? Hfk Hfks]; subst.
    simpl in Hrun. apply bind_inv_ok in Hrun as (c & wa & Hc & Hrun).
    apply bind_inv_ok in Hrun as (cs' & wb & Hcs & Hret).
    injection Hret as <- <-.
    destruct (Hk _ _ _ Hfk Hc) as (ns & Hns & Hnd & Hmade).
    destruct (IH Hfks _ _ _ Hcs) as (nss & Hnss & Hnds & Hmades).
    destruct (parse_allocates_inv _ _ _ _ Hc) as (Ha & _ & _).
    destruct (parse_children_allocate_inv _ _ _ _ Hcs) as (Hb & _).
    pose proof (allocates_dom _ _ Ha) as Hda.
    pose proof (allocates_dom _ _ Hb) as Hdb.
    exists (ns :: nss). split; [|split].
    + constructor; [|exact Hnss].
      eapply preorder_agree; [exact Hns|]. intros x Hx.
      apply (allocates_agree _ _ _ Hb). specialize (Hmade x Hx). set_solver.
    + simpl. apply NoDup_app. split; [exact Hnd|]. split; [|exact Hnds].
      intros x Hx Hx'. specialize (Hmade x Hx). specialize (Hmades x Hx'). set_solver.
    + intros x Hx. simpl in Hx. apply elem_of_app in Hx as [Hx|Hx].
      * specialize (Hmade x Hx). set_solver.
      * specialize (Hmades x Hx). set_solver.
Qed.

Lemma parse_tree j : forall fuel w c w',
  within fuel j -> parse j w = Ok c w' ->
  exists ns, preorder fuel (heap w') c = Some ns /\ NoDup ns /\ made_between w w' ns.
Proof.
  induction j as [p|p ks IH] using json_induction; intros fuel w c w' Hfuel Hrun.
  - inversion Hfuel; subst. simpl in Hrun. unfold alloc in Hrun.
    injection Hrun as <- <-. exists [fresh (dom (heap w))].
    pose proof (is_fresh (dom (heap w))) as Hfresh.
    split; [|split].
    + simpl. by rewrite lookup_insert_eq.
    + apply NoDup_singleton.
    + intros x Hx. rewrite elem_of_cons, elem_of_nil in Hx. destruct Hx as [->|[]].
      simpl. rewrite dom_insert_L. set_solver.
  - inversion Hfuel as [|fuel' ? ? Hks]; subst.
    simpl in Hrun. apply bind_inv_ok in Hrun as (cs & w1 & Hcs & Halloc).
    unfold alloc in Halloc. injection Halloc as <- <-.
    pose proof (is_fresh (dom (heap w1))) as Hfresh.
    destruct (parse_children_allocate_inv _ _ _ _ Hcs) as (Ha & _).
    pose proof (allocates_dom _ _ Ha) as Hda.
    destruct (parse_children_trees fuel' ks) with (w := w) (cs := cs) (w' := w1)
      as (nss & Hnss & Hnd & Hmade); [|exact Hks|exact Hcs|].
    { eapply Forall_impl; [exact IH|]. intros j Hj w0 c0 w0'. apply Hj. }
    exists (fresh (dom (heap w1)) :: concat nss). split; [|split].
    + simpl. rewrite lookup_insert_eq. simpl.
      assert (mapM (preorder fuel' (<[fresh (dom (heap w1)) := _]> (heap w1))) cs
              = Some nss) as ->; [|reflexivity].
      apply mapM_Some_2. eapply Forall2_impl_in; [exact Hnss|].
      intros c0 ns0 _ Hin Hpre. eapply preorder_agree; [exact Hpre|].
      intros x Hx. apply lookup_insert_ne. intros <-.
      assert (fresh (dom (heap w1)) ∈ concat nss) as Hc
        by (apply elem_of_concat; eauto).
      specialize (Hmade _ Hc). set_solver.
    + constructor; [|exact Hnd]. intros Hc. specialize (Hmade _ Hc). set_solver.
    + intros x Hx. simpl. rewrite dom_insert_L.
      apply elem_of_cons in Hx as [->|Hx]; [set_solver|].
      specialize (Hmade x Hx). set_solver.
Qed.

(** What [show] puts on display is a tree of new objects, whatever the
    sharing between the nodes it was cloned from: reading the JSON text of
    a node back gives an object below which no object is reached along two
    paths, and all of them are new. *)
Theorem clone_is_a_tree fuel node w text :
  stringify fuel [] node w = Ok text w ->
  exists c w' ns,
    parse text w = Ok c w'
    /\ preorder fuel (heap w') c = Some ns
    /\ NoDup ns
    /\ (forall x, reachable (heap w') c x <-> x ∈ ns)
    /\ (forall x, x ∈ ns -> x ∉ dom (heap w)).
Proof.
  intros Hs. destruct (stringify_written _ _ _ _ _ _ Hs) as [_ Hfuel].
  destruct (parse_allocates text w) as (c & w' & Hp & _).
  destruct (parse_tree text fuel w c w' Hfuel Hp) as (ns & Hns & Hnd & Hmade).
  exists c, w', ns. split; [exact Hp|]. split; [exact Hns|]. split; [exact Hnd|].
  split.
  - intros x. split.
    + intros Hx. eapply reachable_preorder; eassumption.
    + intros Hx. eapply preorder_reachable; eassumption.
  - intros x Hx. specialize (Hmade x Hx). set_solver.
Qed.

(** A bundle that lists the same module twice. *)
Definition shared_store : gmap loc node :=
  <[1%positive := data_node "main.js" 200 80 (Some [2%positive; 2%positive])]>
  (<[2%positive := data_node "a.js" 100 40 None]> ∅).

Lemma clone_is_a_tree_witness :
  exists text c w' ns,
    stringify 2 [] 1%positive (page shared_store) = Ok text (page shared_store)
    /\ parse text (page shared_store) = Ok c w'
    /\ preorder 2 (heap w') c = Some ns
    /\ NoDup ns /\ length ns = 3%nat.
Proof.
  destruct (stringify 2 [] 1%positive (page shared_store)) as [text w1|ex w1| |] eqn:E;
    [|vm_compute in E; discriminate E..].
  assert (w1 = page shared_store) as ->.
  { pose proof (stringify_pure 2 [] 1%positive (page shared_store)) as H.
    rewrite E in H. exact H. }
  destruct (clone_is_a_tree 2 1%positive (page shared_store) text E)
    as (c & w' & ns & Hp & Hns & Hnd & _).
  exists text, c, w', ns. split; [reflexivity|]. split; [exact Hp|].
  split; [exact Hns|]. split; [exact Hnd|].
  vm_compute in E. injection E as <-.
  vm_compute in Hp. injection Hp as <- <-.
  vm_compute in Hns. injection Hns as <-. reflexivity.
Defined.

(** ** Colouring again *)

(** Colouring a coloured tree changes nothing: a click on a node, which
    colours again, leaves the page as it is. *)
Theorem updateColors_idempotent fuel w v root ns :
  treemapViewer w = Some v -> currentRootNode v = Some root ->
  preorder fuel (heap w) root = Some ns ->
  (forall l n, l ∈ ns -> heap w !! l = Some n -> can_colour (n_props n) = true) ->
  exists w1,
    updateColors fuel w = Ok tt w1
    /\ updateColors fuel w1 = Ok tt w1
    /\ on_click fuel true w1 = Ok tt w1.
Proof.
  intros Hv Hroot Hpre Hcan.
  pose proof (updateColors_result _ _ _ _ _ Hv Hroot Hpre Hcan) as Hrun.
  eexists. split; [exact Hrun|].
  match goal with |- ?P /\ _ => assert P as Hagain end.
  { erewrite (updateColors_result fuel _ v root ns); simpl.
    - rewrite apply_all_idemp by apply color_props_idemp.
      by rewrite set_heap_set_heap.
    - exact Hv.
    - exact Hroot.
    - rewrite <- Hpre. apply preorder_same_shape, apply_all_shape. reflexivity.
    - intros l n Hl Hn. rewrite apply_all_lookup in Hn by apply color_props_idemp.
      rewrite decide_True in Hn by exact Hl.
      destruct (heap w !! l) as [n0|] eqn:Hn0; [|discriminate].
      injection Hn as <-. simpl. rewrite can_colour_color_props. by eapply Hcan. }
  split; [exact Hagain|].
  unfold on_click. simpl. rewrite Hv. exact Hagain.
Qed.

Lemma updateColors_idempotent_witness :
  exists w1,
    updateColors 2 (viewing 1%positive rendered_store) = Ok tt w1
    /\ on_click 2 true w1 = Ok tt w1.
Proof.
  destruct (updateColors_idempotent 2 (viewing 1%positive rendered_store) _
              1%positive [1; 2]%positive eq_refl eq_refl eq_refl)
    as (w1 & Hrun & _ & Hclick).
  - intros l n Hl Hn. rewrite !elem_of_cons, elem_of_nil in Hl.
    destruct Hl as [->|[->|[]]]; vm_compute in Hn; injection Hn as <-; reflexivity.
  - exists w1. split; assumption.
Defined.

Lemma color_props_same_data p : same_data p (color_props p).
Proof.
  unfold color_props. destruct (p_dom p) as [[st|]|]; try apply same_data_refl.
  destruct (pick_color p) as [[h s]|]; [|apply same_data_refl].
  repeat split.
Qed.

(** [updateColors] writes styles and nothing else: a node keeps its
    children and its data, a node without an element is left as it is, and
    so is every object outside the tree on display. *)
Theorem updateColors_changes_only_styles fuel w v root ns :
  treemapViewer w = Some v -> currentRootNode v = Some root ->
  preorder fuel (heap w) root = Some ns ->
  (forall l n, l ∈ ns -> heap w !! l = Some n -> can_colour (n_props n) = true) ->
  exists w',
    updateColors fuel w = Ok tt w'
    /\ set_heap (heap w) w' = w
    /\ (forall l, ~ reachable (heap w) root l -> heap w' !! l = heap w !! l)
    /\ (forall l n, heap w !! l = Some n -> p_dom (n_props n) = None ->
          heap w' !! l = Some n)
    /\ (forall l n, heap w !! l = Some n ->
          exists n',
            heap w' !! l = Some n'
            /\ n_children n' = n_children n
            /\ same_data (n_props n) (n_props n')).
Proof.
  intros Hv Hroot Hpre Hcan.
  eexists. split; [exact (updateColors_result _ _ _ _ _ Hv Hroot Hpre Hcan)|].
  split; [simpl; by rewrite set_heap_set_heap, set_heap_heap|].
  simpl. split; [|split].
  - intros l Hl. rewrite apply_all_lookup by apply color_props_idemp.
    rewrite decide_False; [reflexivity|].
    intros Hin. apply Hl. eapply preorder_reachable; eassumption.
  - intros l n Hn Hdom. rewrite apply_all_lookup by apply color_props_idemp.
    rewrite Hn. destruct (decide (l ∈ ns)); [|reflexivity]. simpl. f_equal.
    apply update_props_id. unfold color_props. by rewrite Hdom.
  - intros l n Hn. rewrite apply_all_lookup by apply color_props_idemp.
    rewrite Hn. destruct (decide (l ∈ ns)).
    + exists (update_props color_props n). split; [reflexivity|].
      split; [reflexivity | apply color_props_same_data].
    + exists n. split; [reflexivity|]. split; [reflexivity | apply same_data_refl].
Qed.

Lemma updateColors_changes_only_styles_witness :
  exists w',
    updateColors 2 (viewing 1%positive rendered_store) = Ok tt w'
    /\ set_heap rendered_store w' = viewing 1%positive rendered_store.
Proof.
  destruct (updateColors_changes_only_styles 2 (viewing 1%positive rendered_store) _
              1%positive [1; 2]%positive eq_refl eq_refl eq_refl)
    as (w' & Hrun & Hw & _).
  - intros l n Hl Hn. rewrite !elem_of_cons, elem_of_nil in Hl.
    destruct Hl as [->|[->|[]]]; vm_compute in Hn; injection Hn as <-; reflexivity.
  - exists w'. split; assumption.
Defined.

(** ** Relations that hold across the script

    A relation between the state before and the state after, reflexive
    and transitive, that every step establishes, holds from the start to
    the end of a sequence, a loop or a traversal, whether it returns or
    throws. *)
Section Relations.
Variable R : world -> world -> Prop.
Hypothesis R_refl : forall w, R w w.
Hypothesis R_trans : forall w1 w2 w3, R w1 w2 -> R w2 w3 -> R w1 w3.

Lemma rel_bind {A B} (m : M A) (k : A -> M B) w :
  ends_in (R w) (m w) ->
  (forall a w1, m w = Ok a w1 -> R w w1 -> ends_in (R w1) (k a w1)) ->
  ends_in (R w) (bind m k w).
Proof.
  intros Hm Hk. eapply (ends_in_bind (R w)); [exact Hm | auto |].
  intros a w1 Hrun Hw1. eapply ends_in_impl; [exact (Hk a w1 Hrun Hw1)|].
  intros w2. by apply R_trans.
Qed.

Lemma for_each_ends {A} (body : A -> M unit) xs :
  (forall x w, ends_in (R w) (body x w)) ->
  forall w, ends_in (R w) (for_each xs body w).
Proof.
  intros Hbody. induction xs as [|x xs IH]; intros w; simpl.
  - apply R_refl.
  - apply rel_bind; [apply Hbody | intros; apply IH].
Qed.

Lemma deref_ends l w : ends_in (R w) (deref l w).
Proof. unfold deref. destruct (heap w !! l); simpl; [apply R_refl | exact I]. Qed.

Lemma this_ends w : ends_in (R w) (this w).
Proof. unfold this. destruct (treemapViewer w); apply R_refl. Qed.

Lemma dfs_ends fn :
  (forall l w, ends_in (R w) (fn l w)) ->
  forall fuel l w, ends_in (R w) (dfs fuel l fn w).
Proof.
  intros Hfn. induction fuel as [|fuel IH]; intros l w; [exact I|]. simpl.
  apply rel_bind; [apply Hfn|]. intros [] w1 _ _.
  apply rel_bind; [apply deref_ends|]. intros n w2 _ _.
  destruct (n_children n); [|apply R_refl].
  apply for_each_ends. intros c u. apply IH.
Qed.
End Relations.

(** ** The controls of the page *)


























(** The options one message adds: the aggregate's, then one per root. *)
Definition options_of (documentUrl : jsstring) (rootNodes : list RootNode) :
    list (jsstring * jsstring) :=
  (js "javascript", documentUrl ++ js " (all javascript)")
    :: ((fun rootNode => (rn_id rootNode, rn_id rootNode)) <$> rootNodes).

(** The selector once the header controls are initialised. *)
Definition selector_after (sel : selector) (documentUrl id : jsstring)
    (rootNodes : list RootNode) : selector :=
  let options := sel_options sel ++ options_of documentUrl rootNodes in
  {| sel_options := options;
     sel_value := if bool_decide (id ∈ options.*1) then id else [];
     sel_listeners := S (sel_listeners sel) |}.

Lemma set_selector_twice s s' w : set_selector s' (set_selector s w) = set_selector s' w.
Proof. reflexivity. Qed.

Lemma makeOption_roots rootNodes : forall s w,
  for_each rootNodes (fun rootNode => makeOption (rn_id rootNode) (rn_id rootNode))
           (set_selector s w)
  = Ok tt (set_selector
      {| sel_options :=
           sel_options s ++ ((fun rootNode => (rn_id rootNode, rn_id rootNode)) <$> rootNodes);
         sel_value := sel_value s; sel_listeners := sel_listeners s |} w).
Proof.
  induction rootNodes as [|r rs IH]; intros s w.
  - simpl. rewrite app_nil_r. by destruct s.
  - simpl. unfold bind at 1. unfold makeOption at 1. simpl.
    rewrite set_selector_twice, IH. simpl. by rewrite <- app_assoc.
Qed.

Lemma init_header_controls documentUrl id rootNodes (k : M unit) w sel :
  bundle_selector w = Some sel ->
  (find (js ".bundle-selector") ;;;
   makeOption (js "javascript") (documentUrl ++ js " (all javascript)") ;;;
   for_each rootNodes (fun rootNode => makeOption (rn_id rootNode) (rn_id rootNode)) ;;;
   select_value id ;;;
   add_change_listener ;;;
   k) w
  = k (set_selector (selector_after sel documentUrl id rootNodes) w).
Proof.
  intros Hsel. unfold bind at 1. unfold find. simpl. rewrite Hsel.
  unfold bind at 1. unfold makeOption at 1. rewrite Hsel.
  unfold bind at 1. rewrite makeOption_roots.
  unfold bind at 1. unfold select_value. simpl.
  unfold bind at 1. unfold add_change_listener. simpl.
  rewrite !set_selector_twice. unfold selector_after, options_of. simpl.
  by rewrite <- app_assoc.
Qed.

Lemma find_main w m : main_el w = Some m -> find (js "main") w = Ok MainElement w.
Proof. intros H. unfold find. simpl. by rewrite H. Qed.

Lemma truthy_string s : s <> [] -> truthy (VString s) = true.
Proof. intros H. simpl. by rewrite bool_decide_eq_false_2. Qed.


Definition one_bundle_store : gmap loc node :=
  <[1%positive := data_node "a.js" 100 40 None]> ∅.


(** ** A page without its elements *)

(** Without the selector the handler throws the error of [find] before
    anything is changed; without the main element it throws after the
    controls are initialised, and a change of the selection then finds no
    viewer. *)
Theorem on_message_without_its_elements
    wsort layout fuel e w documentUrl id rootNodes :
  same_window (source e) (opener w) = true ->
  data e = DataObject (VString documentUrl) (VString id) (VRootNodes rootNodes) ->
  documentUrl <> [] -> id <> [] ->
  (bundle_selector w = None ->
     on_message wsort layout fuel e w
     = Throw (Error (js "query .bundle-selector not found")) w)
  /\ (forall sel,
        bundle_selector w = Some sel -> main_el w = None ->
        let w' := set_selector (selector_after sel documentUrl id rootNodes) w in
        on_message wsort layout fuel e w = Throw (Error (js "query main not found")) w'
        /\ (treemapViewer w = None -> on_change layout fuel w' = Throw TypeError w')).
Proof.
  intros Hsrc Hdata Hurl Hid. split.
  - intros Hsel. unfold on_message. rewrite Hsrc, Hdata. cbn [negb].
    rewrite (truthy_string _ Hurl), (truthy_string _ Hid). cbn [truthy negb orb].
    unfold bind at 1. unfold find. simpl. rewrite Hsel. reflexivity.
  - intros sel Hsel Hmain w'. split.
    + unfold on_message. rewrite Hsrc, Hdata. cbn [negb].
      rewrite (truthy_string _ Hurl), (truthy_string _ Hid). cbn [truthy negb orb].
      rewrite (init_header_controls _ _ _ _ _ _ Hsel).
      unfold bind at 1. unfold find. simpl. rewrite Hmain. reflexivity.
    + intros Hv. unfold on_change. simpl.
      unfold show, select_root, bind, this. simpl. rewrite Hv. reflexivity.
Qed.

(** A document that has neither the selector nor the main element. *)
Definition bare_page : world :=
  {| heap := one_bundle_store; bundle_selector := None; main_el := None;
     opener := Some {| op_id := 7%nat; op_closed := false; op_inbox := [] |};
     ga := None; treemapViewer := None |}.

Lemma on_message_without_its_elements_witness :
  on_message sort_sorted lay_out_all 3 aggregate_message bare_page
  = Throw (Error (js "query .bundle-selector not found")) bare_page.
Proof.
  refine (proj1 (on_message_without_its_elements sort_sorted lay_out_all 3
                   aggregate_message bare_page (js "https://x") (js "javascript") _
                   eq_refl eq_refl _ _) eq_refl);
    discriminate.
Defined.

(** ** A message that selects no root *)

(** When the id of a message names no root, the handler throws a
    TypeError after the viewer is stored: the viewer shows nothing, no
    reply is posted, and from then on every resize and every click on a
    treemap node throws as well. *)
Theorem on_message_unknown_id_breaks_the_page
    wsort layout fuel e w sel documentUrl id rootNodes nss :
  same_window (source e) (opener w) = true ->
  data e = DataObject (VString documentUrl) (VString id) (VRootNodes rootNodes) ->
  documentUrl <> [] -> id <> [] ->
  bundle_selector w = Some sel -> is_Some (main_el w) ->
  id <> js "javascript" -> (forall r, r ∈ rootNodes -> rn_id r <> id) ->
  sort_keeps_props wsort -> sort_stays_below wsort ->
  Forall2 (fun r ns => preorder fuel (heap w) (rn_node r) = Some ns) rootNodes nss ->
  NoDup (concat nss) ->
  exists w',
    on_message wsort layout fuel e w = Throw TypeError w'
    /\ treemapViewer w'
       = Some {| documentUrl := documentUrl; rootNodes := rootNodes;
                 el := MainElement; currentRootNode := None; treemap := None |}
    /\ opener w' = opener w
    /\ on_resize layout fuel w' = Throw TypeError w'
    /\ on_click fuel true w' = Throw TypeError w'.
Proof.
  intros Hsrc Hdata Hurl Hid Hsel [m Hmain] Hjs Hnone Hprops Hbelow HF Hnd.
  unfold on_message. rewrite Hsrc, Hdata. cbn [negb].
  rewrite (truthy_string _ Hurl), (truthy_string _ Hid). cbn [truthy negb orb].
  rewrite (init_header_controls _ _ _ _ _ _ Hsel).
  set (ws := set_selector (selector_after sel documentUrl id rootNodes) w).
  unfold bind at 1. rewrite (find_main ws m Hmain).
  destruct (annotate_all_props wsort fuel Hprops Hbelow rootNodes nss ws HF Hnd)
    as (h' & Hrun & _).
  unfold bind at 1. unfold new_TreemapViewer.
  change (for_each rootNodes _) with (for_each rootNodes (annotate wsort fuel)).
  rewrite (bind_ok _ _ _ _ _ Hrun). unfold ret.
  unfold bind at 1. unfold bind at 1.
  match goal with |- context [show layout fuel id ?wv] => set (w' := wv) end.
  exists w'.
  assert (show layout fuel id w' = Throw TypeError w') as Hshow.
  { unfold show. apply bind_throw.
    eapply select_root_no_such_root; [reflexivity | exact Hjs | exact Hnone]. }
  split; [by rewrite Hshow|]. split; [reflexivity|]. split; [reflexivity|].
  split; reflexivity.
Qed.

Definition unknown_id_message : MessageEvent :=
  {| source := Some 7%nat;
     data := DataObject (VString (js "https://x")) (VString (js "b.js"))
               (VRootNodes [{| rn_id := js "a.js"; rn_group := js "javascript";
                               rn_node := 1%positive |}]) |}.

Lemma on_message_unknown_id_breaks_the_page_witness :
  exists w',
    on_message sort_sorted lay_out_all 3 unknown_id_message (loaded one_bundle_store)
    = Throw TypeError w'
    /\ on_resize lay_out_all 3 w' = Throw TypeError w'.
Proof.
  destruct (on_message_unknown_id_breaks_the_page sort_sorted lay_out_all 3
              unknown_id_message (loaded one_bundle_store)
              {| sel_options := []; sel_value := []; sel_listeners := 0 |}
              (js "https://x") (js "b.js")
              [{| rn_id := js "a.js"; rn_group := js "javascript";
                  rn_node := 1%positive |}]
              [[1%positive]] eq_refl eq_refl)
    as (w' & Hrun & _ & _ & Hresize & _);
    try discriminate.
  - reflexivity.
  - eexists. reflexivity.
  - intros r Hr. rewrite elem_of_cons, elem_of_nil in Hr. destruct Hr as [->|[]]. discriminate.
  - apply sort_sorted_keeps_props.
  - apply sort_sorted_stays_below.
  - repeat constructor.
  - simpl. repeat constructor; rewrite ?elem_of_cons, ?elem_of_nil; intuition discriminate.
  - exists w'. split; assumption.
Defined.

(** ** Resizing the window *)

(** The objects keep their data, no object is created, and the viewer,
    the opener and the analytics hook are as they were. *)
Definition redrawn (w w' : world) : Prop :=
  data_kept (heap w) (heap w') /\ treemapViewer w' = treemapViewer w
  /\ opener w' = opener w /\ ga w' = ga w.

Lemma redrawn_refl w : redrawn w w.
Proof. split; [apply data_kept_refl | repeat split]. Qed.

Lemma redrawn_trans w1 w2 w3 : redrawn w1 w2 -> redrawn w2 w3 -> redrawn w1 w3.
Proof.
  intros (Hd12 & Hv12 & Ho12 & Hg12) (Hd23 & Hv23 & Ho23 & Hg23).
  split; [by eapply data_kept_trans|]. repeat split; congruence.
Qed.

Lemma color_fn_redrawn l w : ends_in (redrawn w) (color_fn l w).
Proof.
  pose proof (color_fn_restyled l w) as H.
  unfold color_fn, bind, deref in *. destruct (heap w !! l) as [n|]; [|exact I].
  destruct (p_dom (n_props n)) as [d|]; [|apply redrawn_refl].
  destruct (pick_color (n_props n)) as [[h s]|]; [|apply redrawn_refl].
  destruct d as [st|]; [|apply redrawn_refl].
  destruct (set_props _ _ w) as [[] w'|ex w'| |] eqn:E; try exact I.
  - destruct (H w' eq_refl) as [Hd Hw]. split; [exact Hd|].
    rewrite <- Hw. repeat split.
  - unfold set_props in E. destruct (heap w !! l); discriminate.
Qed.

Lemma set_content_redrawn r content w : ends_in (redrawn w) (set_content r content w).
Proof. destruct r; (split; [apply data_kept_refl | repeat split]). Qed.

(** A resize lays the treemap out again and colours it again: it creates
    no object and changes the data of none, whether it returns or throws;
    before the first message it does nothing. *)
Theorem on_resize_keeps_the_data layout fuel w :
  render_keeps_data layout ->
  (treemapViewer w = None -> on_resize layout fuel w = Ok tt w)
  /\ match on_resize layout fuel w with
     | Ok _ w' | Throw _ w' =>
       treemapViewer w' = treemapViewer w
       /\ opener w' = opener w /\ ga w' = ga w
       /\ forall l n', heap w' !! l = Some n' ->
            exists n,
              heap w !! l = Some n
              /\ p_id (n_props n') = p_id (n_props n)
              /\ p_originalId (n_props n') = p_originalId (n_props n)
              /\ p_size (n_props n') = p_size (n_props n)
              /\ p_wastedBytes (n_props n') = p_wastedBytes (n_props n)
              /\ p_total (n_props n') = p_total (n_props n)
              /\ p_idHash (n_props n') = p_idHash (n_props n)
     | OutOfFuel | Stuck => True
     end.
Proof.
  intros Hdata. split; [intros Hv; unfold on_resize; by rewrite Hv|].
  assert (ends_in (redrawn w) (on_resize layout fuel w)) as H.
  { unfold on_resize. destruct (treemapViewer w) as [v0|]; [|apply redrawn_refl].
    unfold render.
    apply (rel_bind redrawn redrawn_trans); [apply (this_ends redrawn redrawn_refl)|].
    intros v w1 _ _. destruct (treemap v) as [node|]; [|apply redrawn_refl].
    apply (rel_bind redrawn redrawn_trans).
    { split; [apply Hdata | repeat split]. }
    intros [] w2 _ _.
    apply (rel_bind redrawn redrawn_trans); [apply set_content_redrawn|].
    intros [] w3 _ _. unfold updateColors.
    apply (rel_bind redrawn redrawn_trans); [apply (this_ends redrawn redrawn_refl)|].
    intros v3 w4 _ _. destruct (currentRootNode v3); [|apply redrawn_refl].
    apply (dfs_ends redrawn redrawn_refl redrawn_trans). apply color_fn_redrawn. }
  destruct (on_resize layout fuel w) as [[] w'|ex w'| |]; simpl in H; try exact I;
    destruct H as (Hd & Hv & Ho & Hg); repeat (split; [assumption|]);
    intros l n' Hn'; destruct (Hd l n' Hn') as (n & Hn & Hsame);
    exists n; (split; [exact Hn | exact Hsame]).
Qed.

Lemma on_resize_keeps_the_data_witness :
  exists w',
    on_resize lay_out_all 2 (viewing 1%positive rendered_store) = Ok tt w'
    /\ treemapViewer w' = treemapViewer (viewing 1%positive rendered_store).
Proof.
  pose proof (on_resize_keeps_the_data lay_out_all 2
                (viewing 1%positive rendered_store) lay_out_all_keeps_data) as H.
  destruct H as [_ H].
  destruct (on_resize lay_out_all 2 (viewing 1%positive rendered_store))
    as [[] w'|ex w'| |] eqn:E.
  - exists w'. split; [reflexivity | exact (proj1 H)].
  - vm_compute in E. discriminate E.
  - vm_compute in E. discriminate E.
  - vm_compute in E. discriminate E.
Defined.

(** ** Colouring stops at the first failure *)

Lemma color_fn_throws l w n :
  heap w !! l = Some n -> can_colour (n_props n) = false ->
  color_fn l w = Throw TypeError w.
Proof.
  intros Hn Hcan. unfold color_fn, bind, deref. rewrite Hn.
  unfold can_colour in Hcan.
  destruct (p_dom (n_props n)) as [[st|]|]; [| |discriminate].
  - destruct (pick_color (n_props n)) as [[h s]|]; [discriminate | reflexivity].
  - destruct (pick_color (n_props n)) as [[h s]|]; reflexivity.
Qed.

(** When a node on display cannot be coloured, because its [dom] is no
    element or its [idHash] selects no palette entry, [updateColors]
    throws a TypeError there: the nodes before it in pre-order are
    coloured, the node itself and those after it are left as they were. *)
Theorem updateColors_stops_at_the_first_failure fuel w v root before x after n :
  treemapViewer w = Some v -> currentRootNode v = Some root ->
  preorder fuel (heap w) root = Some (before ++ x :: after) ->
  (forall l n, l ∈ before -> heap w !! l = Some n -> can_colour (n_props n) = true) ->
  heap w !! x = Some n -> can_colour (n_props n) = false ->
  exists w',
    updateColors fuel w = Throw TypeError w'
    /\ heap w' = apply_all (update_props color_props) before (heap w)
    /\ heap w' !! x = Some n
    /\ (forall l, l ∉ before -> heap w' !! l = heap w !! l).
Proof.
  intros Hv Hroot Hpre Hcan Hn Hx.
  assert (x ∉ before) as Hfresh.
  { intros Hin. rewrite (Hcan x n Hin Hn) in Hx. discriminate. }
  exists (set_heap (apply_all (update_props color_props) before (heap w)) w).
  assert (forall l, l ∉ before ->
            apply_all (update_props color_props) before (heap w) !! l = heap w !! l)
    as Hout.
  { intros l Hl. rewrite apply_all_lookup by apply color_props_idemp.
    by rewrite decide_False. }
  split; [|split; [reflexivity|split; [simpl; by rewrite Hout|exact Hout]]].
  unfold updateColors, bind, this. rewrite Hv, Hroot.
  rewrite (dfs_preorder _ color_fn_keeps_shape _ _ _ _ Hpre).
  rewrite for_each_app. erewrite bind_ok; cycle 1.
  { apply for_each_color_fn. intros l Hl.
    assert (l ∈ before ++ x :: after) as Hin by (apply elem_of_app; by left).
    destruct (preorder_is_Some _ _ _ _ _ Hpre Hin) as [nl Hnl]. eauto. }
  simpl. apply bind_throw. apply (color_fn_throws _ _ n); [|exact Hx].
  simpl. by rewrite Hout.
Qed.

(** A node that carries a [dom] which is no element ... *)
Definition stale_node : node :=
  {| n_props := {| p_id := None; p_originalId := Some (js "b.js");
                   p_size := Number 10; p_wastedBytes := Number 1;
                   p_total := Undefined; p_idHash := Number 364;
                   p_dom := Some PlainObject |};
     n_children := None |}.

(** ... below a rendered one. *)
Definition broken_store : gmap loc node :=
  <[1%positive := rendered_node "a.js" 100 40 (Number 364) (Some [2%positive])]>
  (<[2%positive := stale_node]> ∅).

Lemma updateColors_stops_at_the_first_failure_witness :
  exists w' n',
    updateColors 2 (viewing 1%positive broken_store) = Throw TypeError w'
    /\ heap w' !! 1%positive = Some n'
    /\ p_dom (n_props n')
       = Some (Element {| backgroundColor := Some (js "hsl(30, 60%, 61%)");
                          color := Some (js "black") |}).
Proof.
  destruct (updateColors_stops_at_the_first_failure 2 (viewing 1%positive broken_store)
              _ 1%positive [1%positive] 2%positive [] stale_node
              eq_refl eq_refl eq_refl)
    as (w' & Hrun & Hheap & _).
  - intros l n Hl Hn. rewrite elem_of_cons, elem_of_nil in Hl.
    destruct Hl as [->|[]]. vm_compute in Hn. injection Hn as <-. reflexivity.
  - reflexivity.
  - reflexivity.
  - exists w'. eexists. split; [exact Hrun|]. rewrite Hheap.
    split; vm_compute; reflexivity.
Defined.

(** ** Hovering *)

Lemma classList_insert d el tokens x :
  classList (<[el := tokens]> d) x = if decide (x = el) then tokens else classList d x.
Proof.
  unfold classList. destruct (decide (x = el)) as [->|Hne].
  - by rewrite lookup_insert_eq.
  - by rewrite lookup_insert_ne.
Qed.

Lemma closest_ext d d' class target :
  (forall el, el ∈ target -> (class ∈ classList d' el <-> class ∈ classList d el)) ->
  closest d' class target = closest d class target.
Proof.
  unfold closest. induction target as [|el rest IH]; intros H; [reflexivity|].
  simpl.
  assert (bool_decide (class ∈ classList d' el) = bool_decide (class ∈ classList d el))
    as -> by (apply bool_decide_ext, H; by left).
  destruct (bool_decide _); [reflexivity|]. apply IH. intros x Hx. apply H. by right.
Qed.

Lemma closest_Some d class target el :
  closest d class target = Some el ->
  class ∈ classList d el
  /\ exists inner outer,
       target = inner ++ el :: outer
       /\ forall x, x ∈ inner -> class ∉ classList d x.
Proof.
  unfold closest. induction target as [|x rest IH]; [discriminate|]. simpl.
  destruct (bool_decide _) eqn:Hx.
  - intros [= ->]. apply bool_decide_eq_true in Hx. split; [exact Hx|].
    exists [], rest. split; [reflexivity|]. intros y Hy. by apply elem_of_nil in Hy.
  - intros H. destruct (IH H) as (Hel & inner & outer & -> & Hinner).
    split; [exact Hel|]. exists (x :: inner), outer. split; [reflexivity|].
    intros y Hy. apply elem_of_cons in Hy as [->|Hy]; [|by apply Hinner].
    by apply bool_decide_eq_false in Hx.
Qed.

Lemma node_class_kept tokens :
  js "webtreemap-node" ∈ tokens ->
  js "webtreemap-node"
    ∈ (if bool_decide (js "webtreemap-node--hover" ∈ tokens) then tokens
       else tokens ++ [js "webtreemap-node--hover"]).
Proof. intros H. destruct (bool_decide _); [exact H|]. apply elem_of_app. by left. Qed.

Lemma closest_after_mouseover target d :
  closest (on_mouseover target d) (js "webtreemap-node") target
  = closest d (js "webtreemap-node") target.
Proof.
  unfold on_mouseover.
  destruct (closest d (js "webtreemap-node") target) as [nodeEl|] eqn:Hc; [|exact Hc].
  rewrite <- Hc. apply closest_ext. intros el _.
  unfold classList_add. rewrite classList_insert.
  destruct (decide (el = nodeEl)) as [->|]; [|reflexivity].
  destruct (closest_Some _ _ _ _ Hc) as [Hnode _].
  split; [intros _; exact Hnode | intros _; by apply node_class_kept].
Qed.

(** A treemap node nested in another one, with a caption inside. *)
Definition nested_nodes : gmap element_id (list jsstring) :=
  <[1%positive := [js "webtreemap-node"]]>
  (<[2%positive := [js "webtreemap-node"]]>
  (<[3%positive := [js "webtreemap-caption"]]> ∅)).

(** Moving the pointer over an element marks the innermost treemap node
    around it, and only that one; outside every treemap node both
    listeners do nothing. *)
Theorem mouseover_marks_the_innermost_node target d :
  match closest d (js "webtreemap-node") target with
  | Some nodeEl =>
    (exists inner outer,
       target = inner ++ nodeEl :: outer
       /\ forall el, el ∈ inner -> js "webtreemap-node" ∉ classList d el)
    /\ js "webtreemap-node" ∈ classList d nodeEl
    /\ js "webtreemap-node--hover" ∈ classList (on_mouseover target d) nodeEl
    /\ (forall token, token ∈ classList d nodeEl ->
          token ∈ classList (on_mouseover target d) nodeEl)
    /\ (forall el, el <> nodeEl ->
          classList (on_mouseover target d) el = classList d el)
  | None => on_mouseover target d = d /\ on_mouseout target d = d
  end.
Proof.
  unfold on_mouseover, on_mouseout.
  destruct (closest d (js "webtreemap-node") target) as [nodeEl|] eqn:Hc;
    [|split; reflexivity].
  destruct (closest_Some _ _ _ _ Hc) as [Hnode Hinner].
  split; [exact Hinner|]. split; [exact Hnode|].
  unfold classList_add. split; [|split].
  - rewrite classList_insert, decide_True by reflexivity.
    destruct (bool_decide _) eqn:Hb; [by apply bool_decide_eq_true in Hb|].
    apply elem_of_app. right. by left.
  - intros token Ht. rewrite classList_insert, decide_True by reflexivity.
    destruct (bool_decide _); [exact Ht|]. apply elem_of_app. by left.
  - intros el Hne. by rewrite classList_insert, decide_False.
Qed.

Lemma mouseover_marks_the_innermost_node_witness :
  js "webtreemap-node--hover" ∈ classList (on_mouseover [3; 2; 1]%positive nested_nodes) 2%positive
  /\ classList (on_mouseover [3; 2; 1]%positive nested_nodes) 1%positive
     = classList nested_nodes 1%positive.
Proof.
  pose proof (mouseover_marks_the_innermost_node [3; 2; 1]%positive nested_nodes) as H.
  change (closest nested_nodes (js "webtreemap-node") [3; 2; 1]%positive)
    with (Some 2%positive) in H.
  destruct H as (_ & _ & Hhover & _ & Hothers).
  split; [exact Hhover | apply Hothers; discriminate].
Defined.

Lemma filter_other {A} `{EqDecision A} (x : A) (xs : list A) :
  x ∉ xs -> filter (fun t => t <> x) xs = xs.
Proof.
  induction xs as [|y ys IH]; intros H; [reflexivity|].
  rewrite filter_cons_True by (intros ->; apply H; by left).
  f_equal. apply IH. intros Hy. apply H. by right.
Qed.

(** Leaving undoes entering: after mouseover and mouseout on the same
    target every class list is as before, provided the node was not
    marked already; and after mouseout the node is never marked. *)
Theorem mouseout_undoes_mouseover target d nodeEl :
  closest d (js "webtreemap-node") target = Some nodeEl ->
  (js "webtreemap-node--hover" ∉ classList (on_mouseout target d) nodeEl)
  /\ (js "webtreemap-node--hover" ∉ classList d nodeEl ->
      forall el, classList (on_mouseout target (on_mouseover target d)) el
                 = classList d el).
Proof.
  intros Hc. split.
  - unfold on_mouseout. rewrite Hc. unfold classList_remove.
    rewrite classList_insert, decide_True by reflexivity.
    intros Hin. apply list_elem_of_filter in Hin as [Hne _]. by apply Hne.
  - intros Hfresh el. unfold on_mouseout. rewrite closest_after_mouseover, Hc.
    unfold on_mouseover. rewrite Hc. unfold classList_remove, classList_add.
    rewrite !classList_insert. destruct (decide (el = nodeEl)) as [->|]; [|reflexivity].
    rewrite decide_True by reflexivity.
    rewrite bool_decide_eq_false_2 by exact Hfresh.
    rewrite filter_app, filter_other by exact Hfresh.
    rewrite filter_cons_False, filter_nil by (intros H; by apply H).
    apply app_nil_r.
Qed.

Lemma mouseout_undoes_mouseover_witness :
  classList (on_mouseover [3; 2; 1]%positive nested_nodes) 2%positive
  = [js "webtreemap-node"; js "webtreemap-node--hover"]
  /\ forall el,
       classList (on_mouseout [3; 2; 1]%positive
                    (on_mouseover [3; 2; 1]%positive nested_nodes)) el
       = classList nested_nodes el.
Proof.
  split; [reflexivity|].
  apply (proj2 (mouseout_undoes_mouseover [3; 2; 1]%positive nested_nodes 2%positive
                  eq_refl)).
  intros H. change (classList nested_nodes 2%positive) with [js "webtreemap-node"] in H.
  rewrite elem_of_cons, elem_of_nil in H. destruct H as [H|[]]. discriminate H.
Defined.
